(** * Oletools service: indicator extraction and scoring core

    A shallow embedding of the pure decision logic of
    [oletools_/oletools_.py] (safelist filter, IOC pattern filter, URI
    classifier, macro deobfuscator, macro randomness scorer, stomping
    detector, base64 recovery, link verdict tiering), with the properties
    its specification states about them.

    Conventions.  A Python [str] is a list of Unicode code points
    ([pystr]); a Python [bytes] is a list of octets ([pybytes]).  Tag
    types, which the code only ever writes as ASCII literals, are Rocq
    strings.  Everything the service imports from outside the repository
    (the Unicode tables of the interpreter, [assemblyline], [magic],
    [mraptor], the pattern library) is a [Variable] of the section that
    uses it. *)

From Stdlib Require Import ZArith NArith List Lia Bool QArith Ascii String Sorted.
From stdpp Require Import base gmap strings list.
Import ListNotations.
Open Scope Z_scope.

(** ** Python values *)

Module Py.

Definition pystr := list N.
Definition pybytes := list N.

Fixpoint u (s : string) : pystr :=
  match s with
  | EmptyString => []
  | String a t => N_of_ascii a :: u t
  end.

(** The double quote, U+0022, and the line feed. *)
Definition dq : N := 34%N.
Definition nl : N := 10%N.

Definition is_ascii_chr (c : N) : bool := (c <? 128)%N.
Definition is_ascii (s : pystr) : bool := forallb is_ascii_chr s.

Definition ascii_lower_chr (c : N) : N :=
  if ((65 <=? c) && (c <=? 90))%N then (c + 32)%N else c.
Definition ascii_lower (s : pystr) : pystr := map ascii_lower_chr s.

Definition str_eqb (a b : pystr) : bool := bool_decide (a = b).

(** Truth value of a sequence: empty is false. *)
Definition truthy {A} (l : list A) : bool :=
  match l with [] => false | _ :: _ => true end.

(** [a.startswith(p)] *)
Fixpoint startswith (p s : pystr) : bool :=
  match p, s with
  | [], _ => true
  | a :: p', c :: s' => (a =? c)%N && startswith p' s'
  | _ :: _, [] => false
  end.

(** [p in s] for sequences of the same kind. *)
Fixpoint contains (p s : pystr) : bool :=
  startswith p s ||
  match s with
  | [] => false
  | _ :: t => contains p t
  end.

Definition endswith (p s : pystr) : bool := startswith (rev p) (rev s).

Definition len {A} (l : list A) : Z := Z.of_nat (length l).

(** [sys.get_int_max_str_digits()]: [int()] raises [ValueError] on a
    text with more decimal digits than this.  Leading zeros count, a
    sign does not.  4300 is the interpreter's default, and the service
    does not change it. *)
Definition INT_MAX_STR_DIGITS : Z := 4300.

(** [sep.join(parts)] *)
Fixpoint join (sep : pystr) (parts : list pystr) : pystr :=
  match parts with
  | [] => []
  | [p] => p
  | p :: rest => p ++ sep ++ join sep rest
  end.

(** What a call does: it returns a value or raises an exception. *)
Inductive outcome (E A : Type) :=
| Returned (a : A)
| Raised (e : E).
Arguments Returned {E A} a.
Arguments Raised {E A} e.

Definition bind {E A B} (m : outcome E A) (k : A -> outcome E B) : outcome E B :=
  match m with
  | Returned a => k a
  | Raised e => Raised e
  end.

End Py.
Import Py.

(** ** [re.sub] with a replacement callback

    [re.sub(pattern, repl, text)] walks the text from the left; where
    the pattern matches it emits [repl(match)] and resumes after the
    match, elsewhere it copies one character.  The pattern is given by
    its matcher at the head of a text, which returns the match and the
    number of characters it spans. *)

Module Re.

Section Sub.
Context {M : Type}.
Variable find : pystr -> option (M * nat).
Variable repl : M -> pystr.

Fixpoint sub_from (skip : nat) (s : pystr) : pystr :=
  match s with
  | [] => []
  | c :: t =>
    match skip with
    | S k => sub_from k t
    | O =>
      match find s with
      | Some (m, S n) => repl m ++ sub_from n t
      | Some (m, O) => repl m ++ c :: sub_from 0 t
      | None => c :: sub_from 0 t
      end
    end
  end.

Definition sub (s : pystr) : pystr := sub_from 0 s.

(** The pattern matches at no position of the text. *)
Fixpoint never (s : pystr) : Prop :=
  match s with
  | [] => True
  | _ :: t => find s = None /\ never t
  end.

Lemma sub_from_drop k s : sub_from k s = sub_from 0 (drop k s).
Proof.
  revert k; induction s as [|c t IH]; intros [|k]; simpl; auto.
Qed.

Lemma sub_from_all k s : (length s <= k)%nat -> sub_from k s = [].
Proof.
  intros H. rewrite sub_from_drop, drop_ge by lia. reflexivity.
Qed.

Lemma sub_never s : never s -> sub s = s.
Proof.
  unfold sub. induction s as [|c t IH]; simpl; [reflexivity|].
  intros [-> Ht]. f_equal. auto.
Qed.

Lemma sub_whole s m :
  s <> [] -> find s = Some (m, length s) -> sub s = repl m.
Proof.
  unfold sub. destruct s as [|c t]; [congruence|]. intros _ H.
  cbn [sub_from]. rewrite H. cbn [length].
  rewrite sub_from_all by lia. apply app_nil_r.
Qed.

Lemma sub_head_miss c t :
  find (c :: t) = None -> sub (c :: t) = c :: sub t.
Proof. unfold sub. cbn [sub_from]. intros ->. reflexivity. Qed.

Lemma sub_head_hit s m n :
  find s = Some (m, n) -> (0 < n <= length s)%nat ->
  sub s = repl m ++ sub (drop n s).
Proof.
  unfold sub. destruct s as [|c t]; intros H Hn; [simpl in Hn; lia|].
  cbn [sub_from]. rewrite H. destruct n as [|n]; [lia|].
  rewrite sub_from_drop. reflexivity.
Qed.
End Sub.

(** *** A callback that may raise

    The callback runs match by match from the left; what it raises
    leaves [re.sub] at once. *)
Section SubRaising.
Context {M E : Type}.
Variable find : pystr -> option (M * nat).
Variable repl : M -> outcome E pystr.

Fixpoint sub_from_raising (skip : nat) (s : pystr) : outcome E pystr :=
  match s with
  | [] => Returned []
  | c :: t =>
    match skip with
    | S k => sub_from_raising k t
    | O =>
      match find s with
      | Some (m, S n) =>
        bind (repl m) (fun r =>
        bind (sub_from_raising n t) (fun rest => Returned (r ++ rest)))
      | Some (m, O) =>
        bind (repl m) (fun r =>
        bind (sub_from_raising 0 t) (fun rest => Returned (r ++ c :: rest)))
      | None => bind (sub_from_raising 0 t) (fun rest => Returned (c :: rest))
      end
    end
  end.

Definition sub_raising (s : pystr) : outcome E pystr := sub_from_raising 0 s.

(** The pattern matches at no position of [a] when [r] follows. *)
Definition misses (a r : pystr) : Prop :=
  forall j, (j < length a)%nat -> find (drop j a ++ r) = None.

Lemma sub_from_raising_drop k s : sub_from_raising k s = sub_from_raising 0 (drop k s).
Proof.
  revert k; induction s as [|c t IH]; intros [|k]; simpl; auto.
Qed.

Lemma sub_raising_miss c t :
  find (c :: t) = None ->
  sub_raising (c :: t) = bind (sub_raising t) (fun rest => Returned (c :: rest)).
Proof. unfold sub_raising. cbn [sub_from_raising]. intros ->. reflexivity. Qed.

Lemma sub_raising_hit s m n :
  find s = Some (m, n) -> (0 < n <= length s)%nat ->
  sub_raising s
  = bind (repl m) (fun r =>
    bind (sub_raising (drop n s)) (fun rest => Returned (r ++ rest))).
Proof.
  unfold sub_raising. destruct s as [|c t]; intros H Hn; [simpl in Hn; lia|].
  cbn [sub_from_raising]. rewrite H. destruct n as [|n]; [lia|].
  rewrite sub_from_raising_drop. reflexivity.
Qed.

Lemma misses_tail c a r : misses (c :: a) r -> misses a r.
Proof. intros H j Hj. apply (H (S j)). simpl. lia. Qed.

Lemma misses_cons c a r : find (c :: a ++ r) = None -> misses a r -> misses (c :: a) r.
Proof. intros H0 H [|j] Hj; [exact H0|]. apply H. simpl in Hj. lia. Qed.

Lemma misses_nil r : misses [] r.
Proof. intros j Hj. simpl in Hj. lia. Qed.

Lemma sub_raising_skip a r :
  misses a r ->
  sub_raising (a ++ r) = bind (sub_raising r) (fun rest => Returned (a ++ rest)).
Proof.
  induction a as [|c a IH]; intros H; cbn [app].
  - destruct (sub_raising r); reflexivity.
  - rewrite sub_raising_miss by exact (H 0%nat ltac:(simpl; lia)).
    rewrite (IH (misses_tail _ _ _ H)). destruct (sub_raising r); reflexivity.
Qed.

Lemma never_misses s : never find s -> misses s [].
Proof.
  induction s as [|c s IH]; [intros _; apply misses_nil|].
  intros [H0 H]. apply misses_cons; [rewrite app_nil_r; exact H0|exact (IH H)].
Qed.

Lemma sub_raising_never s : never find s -> sub_raising s = Returned s.
Proof.
  intros H. rewrite <- (app_nil_r s) at 1.
  rewrite (sub_raising_skip s [] (never_misses s H)). cbn. rewrite app_nil_r. reflexivity.
Qed.

(** The text can be cut before [s] when no match runs into [s]: what
    [find] sees before the cut does not depend on [s]. *)
Lemma sub_from_raising_split s :
  (forall a, a <> [] -> find (a ++ s) = find a) ->
  (forall a m n, find a = Some (m, n) -> (n <= length a)%nat) ->
  forall pre skip, (skip <= length pre)%nat ->
  sub_from_raising skip (pre ++ s)
  = bind (sub_from_raising skip pre) (fun a =>
    bind (sub_raising s) (fun b => Returned (a ++ b))).
Proof.
  intros Hcut Hspan. induction pre as [|c t IH]; intros skip Hs.
  - destruct skip; [|simpl in Hs; lia]. cbn [app sub_from_raising bind].
    fold (sub_raising s). destruct (sub_raising s); reflexivity.
  - destruct skip as [|k]; cbn [app sub_from_raising length] in *.
    + change (c :: t ++ s) with ((c :: t) ++ s).
      rewrite (Hcut (c :: t)) by discriminate.
      destruct (find (c :: t)) as [[m [|n]]|] eqn:Ef.
      * rewrite (IH 0%nat) by lia.
        destruct (repl m); [|reflexivity]. cbn [bind].
        destruct (sub_from_raising 0 t); [|reflexivity]. cbn [bind].
        destruct (sub_raising s); [|reflexivity]. cbn [bind].
        rewrite <- app_assoc. reflexivity.
      * apply Hspan in Ef. cbn [length] in Ef. rewrite (IH n) by lia.
        destruct (repl m); [|reflexivity]. cbn [bind].
        destruct (sub_from_raising n t); [|reflexivity]. cbn [bind].
        destruct (sub_raising s); [|reflexivity]. cbn [bind].
        rewrite <- app_assoc. reflexivity.
      * rewrite (IH 0%nat) by lia.
        destruct (sub_from_raising 0 t); [|reflexivity]. cbn [bind].
        destruct (sub_raising s); reflexivity.
    + apply IH. lia.
Qed.

Lemma sub_raising_split pre s :
  (forall a, a <> [] -> find (a ++ s) = find a) ->
  (forall a m n, find a = Some (m, n) -> (n <= length a)%nat) ->
  sub_raising (pre ++ s)
  = bind (sub_raising pre) (fun a =>
    bind (sub_raising s) (fun b => Returned (a ++ b))).
Proof.
  intros Hcut Hspan. apply (sub_from_raising_split s Hcut Hspan pre 0%nat). lia.
Qed.
End SubRaising.

End Re.

(** ** Macro deobfuscator ([Oletools._deobfuscator]) *)

Module Deobfuscator.

(** The one exception the replacement callbacks raise. *)
Inductive exn := ValueError.

Section WithUnicode.
(** Decimal value of a non-ASCII code point of category Nd, as both
    [\d] and [int()] see it. *)
Variable unicode_decimal : N -> option N.

Definition digit_value (c : N) : option N :=
  if is_ascii_chr c
  then if ((48 <=? c) && (c <=? 57))%N then Some (c - 48)%N else None
  else unicode_decimal c.

Definition is_digit (c : N) : bool :=
  match digit_value c with Some _ => true | None => false end.

(** The number a run of decimal digits stands for.  Python integers
    are unbounded; so is [Z]. *)
Definition digits_value (s : pystr) : Z :=
  fold_left (fun acc c => 10 * acc + Z.of_N (default 0%N (digit_value c))) s 0.

(** [int(s)] on a run of decimal digits, which is all the patterns
    give it: [ValueError] when the run is empty or longer than the
    interpreter converts. *)
Definition py_int (s : pystr) : outcome exn Z :=
  if (len s =? 0) || (INT_MAX_STR_DIGITS <? len s) then Raised ValueError
  else Returned (digits_value s).

(** [chr(i)] for [0 <= i <= 0x10FFFF]. *)
Definition py_chr (i : Z) : pystr := [Z.to_N i].

(** [f'"{chr(i)}"'] *)
Definition quoted_chr (i : Z) : pystr := dq :: py_chr i ++ [dq].

(** *** The six patterns

    [chr[$]?\((\d+) \+ (\d+)\)] and its relatives, compiled with
    [re.IGNORECASE].  The letters of the function name are the only
    cased characters; no code point outside ASCII folds to one of
    [c h r w]. *)

Record re_match := { group0 : pystr; group1 : pystr; group2 : pystr }.

Fixpoint lit_ci (p s : pystr) : option pystr :=
  match p, s with
  | [], _ => Some s
  | a :: p', c :: s' =>
    if (ascii_lower_chr c =? a)%N then lit_ci p' s' else None
  | _ :: _, [] => None
  end.

(** [[$]?] *)
Definition opt_dollar (s : pystr) : pystr :=
  match s with
  | c :: t => if (c =? 36)%N then t else s
  | [] => s
  end.

(** [(\d+)]: the longest run of digits, at least one.  What follows
    [\d+] in each pattern is a literal that is not a digit, so giving
    back digits never lets a failed match succeed. *)
Fixpoint span_digits (s : pystr) : pystr * pystr :=
  match s with
  | c :: t =>
    if is_digit c
    then let '(d, r) := span_digits t in (c :: d, r)
    else ([], s)
  | [] => ([], [])
  end.

Definition digits1 (s : pystr) : option (pystr * pystr) :=
  match span_digits s with
  | ([], _) => None
  | (d, r) => Some (d, r)
  end.

(** [name[$]?\((\d+)<op>(\d+)\)] when [op] is given, and
    [name[$]?\((\d+)\)] otherwise. *)
Definition match_call (name : pystr) (op : option pystr) (s : pystr)
  : option (re_match * nat) :=
  s1 ← lit_ci name s;
  s2 ← lit_ci (u "(") (opt_dollar s1);
  '(g1, s3) ← digits1 s2;
  match op with
  | Some o =>
    s4 ← lit_ci o s3;
    '(g2, s5) ← digits1 s4;
    s6 ← lit_ci (u ")") s5;
    let n := (length s - length s6)%nat in
    Some ({| group0 := take n s; group1 := g1; group2 := g2 |}, n)
  | None =>
    s6 ← lit_ci (u ")") s3;
    let n := (length s - length s6)%nat in
    Some ({| group0 := take n s; group1 := g1; group2 := [] |}, n)
  end.

Definition CHR_ADD_RE := match_call (u "chr") (Some (u " + ")).
Definition CHRW_ADD_RE := match_call (u "chrw") (Some (u " + ")).
Definition CHR_SUB_RE := match_call (u "chr") (Some (u " - ")).
Definition CHRW_SUB_RE := match_call (u "chrw") (Some (u " - ")).
Definition CHR_RE := match_call (u "chr") None.
Definition CHRW_RE := match_call (u "chrw") None.

(** The literal pattern of the last step, without flags. *)
Definition CONCAT_RE (s : pystr) : option (unit * nat) :=
  if startswith (dq :: u " & " ++ [dq]) s then Some (tt, 5%nat) else None.

(** *** The replacement callbacks

    [int] is the one call in them that can raise: [chr] gets a code
    point that was tested, and the groups of a match exist. *)

Definition deobf_chrs_add (m : re_match) : outcome exn pystr :=
  if truthy (group0 m) then
    bind (py_int (group1 m)) (fun x =>
    bind (py_int (group2 m)) (fun y =>
    let i := x + y in
    if (i >=? 0) && (i <=? 255) then Returned (quoted_chr i) else Returned []))
  else Returned [].

Definition deobf_unichrs_add (m : re_match) : outcome exn pystr :=
  let result := [] in
  if truthy (group0 m) then
    let result := group0 m in
    bind (py_int (group1 m)) (fun x =>
    bind (py_int (group2 m)) (fun y =>
    let i := x + y in
    if (i >=? 0) && ((i <=? 0xFFFF) || (i <=? 0x10FFFF))
    then Returned (quoted_chr i) else Returned result))
  else Returned result.

Definition deobf_chrs_sub (m : re_match) : outcome exn pystr :=
  if truthy (group0 m) then
    bind (py_int (group1 m)) (fun x =>
    bind (py_int (group2 m)) (fun y =>
    let i := x - y in
    if (i >=? 0) && (i <=? 255) then Returned (quoted_chr i) else Returned []))
  else Returned [].

Definition deobf_unichrs_sub (m : re_match) : outcome exn pystr :=
  if truthy (group0 m) then
    bind (py_int (group1 m)) (fun x =>
    bind (py_int (group2 m)) (fun y =>
    let i := x - y in
    if (i >=? 0) && ((i <=? 0xFFFF) || (i <=? 0x10FFFF))
    then Returned (quoted_chr i) else Returned []))
  else Returned [].

Definition deobf_chr (m : re_match) : outcome exn pystr :=
  if truthy (group1 m) then
    bind (py_int (group1 m)) (fun i =>
    if (i >=? 0) && (i <=? 255) then Returned (quoted_chr i) else Returned [])
  else Returned [].

Definition deobf_unichr (m : re_match) : outcome exn pystr :=
  if truthy (group1 m) then
    bind (py_int (group1 m)) (fun i =>
    if (i >=? 0) && ((i <=? 0xFFFF) || (i <=? 0x10FFFF))
    then Returned (quoted_chr i) else Returned [])
  else Returned [].

(** *** The pipeline: one pass of each substitution, in source order,
    inside [try]; when a pass raises, [except Exception] puts the
    original text back. *)
Definition passes (text : pystr) : outcome exn pystr :=
  let deobf := text in
  bind (Re.sub_raising CHR_ADD_RE deobf_chrs_add deobf) (fun deobf =>
  bind (Re.sub_raising CHRW_ADD_RE deobf_unichrs_add deobf) (fun deobf =>
  bind (Re.sub_raising CHR_SUB_RE deobf_chrs_sub deobf) (fun deobf =>
  bind (Re.sub_raising CHRW_SUB_RE deobf_unichrs_sub deobf) (fun deobf =>
  bind (Re.sub_raising CHR_RE deobf_chr deobf) (fun deobf =>
  bind (Re.sub_raising CHRW_RE deobf_unichr deobf) (fun deobf =>
  Returned (Re.sub CONCAT_RE (fun _ => []) deobf))))))).

Definition _deobfuscator (text : pystr) : pystr :=
  match passes text with
  | Returned deobf => deobf
  | Raised _ => text
  end.

(** *** Facts about the matchers *)

Lemma lit_ci_app name p q r :
  ascii_lower name = p -> lit_ci (p ++ q) (name ++ r) = lit_ci q r.
Proof.
  intros <-. induction name as [|c t IH]; simpl; [reflexivity|].
  rewrite N.eqb_refl. exact IH.
Qed.

Lemma lit_ci_exact name p r : ascii_lower name = p -> lit_ci p (name ++ r) = Some r.
Proof.
  intros H. rewrite <- (app_nil_r p), (lit_ci_app _ _ _ _ H). destruct r; reflexivity.
Qed.

Lemma lit_ci_length p s r :
  lit_ci p s = Some r -> length s = (length p + length r)%nat.
Proof.
  revert s; induction p as [|a p IH]; intros [|c s]; simpl; try congruence.
  - intros [= <-]. reflexivity.
  - intros [= <-]. reflexivity.
  - destruct (_ =? _)%N; [|congruence]. intros H. rewrite (IH _ H). reflexivity.
Qed.

(** A run of decimal digits, as [\d+] matches it. *)
Definition digits (d : pystr) : Prop :=
  d <> [] /\ Forall (fun c => is_digit c = true) d.

(** The text stops the digit run: it is empty or starts with a non-digit. *)
Definition stops (r : pystr) : Prop :=
  match r with [] => True | c :: _ => is_digit c = false end.

Lemma span_digits_app d r :
  Forall (fun c => is_digit c = true) d -> stops r -> span_digits (d ++ r) = (d, r).
Proof.
  intros Hd Hr. induction Hd as [|c d Hc _ IH]; simpl.
  - destruct r as [|c r]; simpl in *; [reflexivity|]. rewrite Hr. reflexivity.
  - rewrite Hc, IH. reflexivity.
Qed.

Lemma digits1_app d r : digits d -> stops r -> digits1 (d ++ r) = Some (d, r).
Proof.
  intros [Hne Hd] Hr. unfold digits1. rewrite span_digits_app by assumption.
  destruct d; congruence.
Qed.

Lemma is_digit_plain c : is_digit c = true -> ascii_lower_chr c <> 99%N /\ c <> dq.
Proof.
  unfold is_digit, digit_value, is_ascii_chr, ascii_lower_chr, dq.
  destruct (N.ltb_spec c 128).
  - destruct (N.leb_spec 48 c), (N.leb_spec c 57); simpl; try discriminate.
    intros _. destruct (N.leb_spec 65 c), (N.leb_spec c 90); simpl; lia.
  - intros _. destruct (N.leb_spec 65 c), (N.leb_spec c 90); simpl; lia.
Qed.

Lemma span_digits_length s d r :
  span_digits s = (d, r) -> length s = (length d + length r)%nat.
Proof.
  revert d r; induction s as [|c s IH]; simpl; intros d r.
  - intros [= <- <-]. reflexivity.
  - destruct (is_digit c).
    + destruct (span_digits s) as [d' r'] eqn:E. intros [= <- <-].
      simpl. rewrite (IH _ _ eq_refl). reflexivity.
    + intros [= <- <-]. reflexivity.
Qed.

Lemma digits1_length s d r :
  digits1 s = Some (d, r) -> (length r < length s)%nat.
Proof.
  unfold digits1. destruct (span_digits s) as [d' r'] eqn:E.
  apply span_digits_length in E. destruct d'; [discriminate|].
  intros [= <- <-]. simpl in E. lia.
Qed.

Lemma opt_dollar_length s : (length (opt_dollar s) <= length s)%nat.
Proof. destruct s as [|c t]; simpl; [lia|]. destruct (c =? 36)%N; simpl; lia. Qed.

Lemma match_call_span nm op s m n :
  match_call nm op s = Some (m, n) ->
  (length nm + 3 <= n <= length s)%nat /\ group0 m = take n s.
Proof.
  unfold match_call.
  destruct (lit_ci nm s) as [s1|] eqn:E1; [|discriminate]. cbn [mbind option_bind].
  destruct (lit_ci (u "(") (opt_dollar s1)) as [s2|] eqn:E2; [|discriminate].
  cbn [mbind option_bind].
  destruct (digits1 s2) as [[g1 s3]|] eqn:E3; [|discriminate]. cbn [mbind option_bind].
  apply lit_ci_length in E1, E2. apply digits1_length in E3.
  pose proof (opt_dollar_length s1). change (length (u "(")) with 1%nat in E2.
  destruct op as [o|].
  - destruct (lit_ci o s3) as [s4|] eqn:E4; [|discriminate]. cbn [mbind option_bind].
    destruct (digits1 s4) as [[g2 s5]|] eqn:E5; [|discriminate]. cbn [mbind option_bind].
    destruct (lit_ci (u ")") s5) as [s6|] eqn:E6; [|discriminate]. intros [= <- <-].
    apply lit_ci_length in E4, E6. apply digits1_length in E5.
    change (length (u ")")) with 1%nat in E6. cbn [group0]. split; [lia|reflexivity].
  - destruct (lit_ci (u ")") s3) as [s6|] eqn:E6; [|discriminate]. intros [= <- <-].
    apply lit_ci_length in E6. change (length (u ")")) with 1%nat in E6.
    cbn [group0]. split; [lia|reflexivity].
Qed.

Lemma match_call_truthy nm op s m n :
  match_call nm op s = Some (m, n) -> truthy (group0 m) = true.
Proof.
  intros [H ->]%match_call_span. destruct s as [|c t]; [simpl in H; lia|].
  destruct n as [|n]; [lia|reflexivity].
Qed.

Lemma startswith_length p s : startswith p s = true -> (length p <= length s)%nat.
Proof.
  revert s; induction p as [|a p IH]; intros [|c s]; simpl; try lia; try discriminate.
  intros [_ H]%andb_prop. apply IH in H. lia.
Qed.

(** *** The six passes *)

Inductive pass := ChrAdd | ChrwAdd | ChrSub | ChrwSub | Chr | Chrw.

Definition pass_name (k : pass) : pystr :=
  match k with
  | ChrAdd | ChrSub | Chr => u "chr"
  | ChrwAdd | ChrwSub | Chrw => u "chrw"
  end.

Definition pass_op (k : pass) : option pystr :=
  match k with
  | ChrAdd | ChrwAdd => Some (u " + ")
  | ChrSub | ChrwSub => Some (u " - ")
  | Chr | Chrw => None
  end.

Definition pattern (k : pass) : pystr -> option (re_match * nat) :=
  match k with
  | ChrAdd => CHR_ADD_RE
  | ChrwAdd => CHRW_ADD_RE
  | ChrSub => CHR_SUB_RE
  | ChrwSub => CHRW_SUB_RE
  | Chr => CHR_RE
  | Chrw => CHRW_RE
  end.

Definition callback (k : pass) : re_match -> outcome exn pystr :=
  match k with
  | ChrAdd => deobf_chrs_add
  | ChrwAdd => deobf_unichrs_add
  | ChrSub => deobf_chrs_sub
  | ChrwSub => deobf_unichrs_sub
  | Chr => deobf_chr
  | Chrw => deobf_unichr
  end.

Lemma pattern_match_call k : pattern k = match_call (pass_name k) (pass_op k).
Proof. destruct k; reflexivity. Qed.

(** A character no match goes through: every pattern has the letter
    [c] at its start only, and no double quote. *)
Definition breaks (x : N) : Prop := ascii_lower_chr x = 99%N \/ x = dq.

Definition break_led (q : pystr) : Prop :=
  match q with [] => True | x :: _ => breaks x end.

(** The characters of a pattern after its first. *)
Definition inner (a : N) : Prop := a <> 99%N /\ a <> 34%N.

Lemma breaks_not_digit x : breaks x -> is_digit x = false.
Proof.
  intros H. destruct (is_digit x) eqn:E; [|reflexivity].
  apply is_digit_plain in E as [E1 E2]. destruct H; contradiction.
Qed.

Lemma breaks_lower x a : breaks x -> inner a -> (ascii_lower_chr x =? a)%N = false.
Proof.
  intros [H| ->] [H1 H2]; apply N.eqb_neq; [congruence|]. exact (not_eq_sym H2).
Qed.

Lemma breaks_dollar x : breaks x -> (x =? 36)%N = false.
Proof.
  intros [H| ->]; [|reflexivity]. apply N.eqb_neq. intros ->. discriminate H.
Qed.

(** **** A match lies within the text before a breaking character *)

Lemma lit_ci_cut p a q :
  Forall inner p -> break_led q ->
  lit_ci p (a ++ q) = (fun r => r ++ q) <$> lit_ci p a.
Proof.
  intros Hp Hq. revert a. induction Hp as [|x p Hx _ IH]; intros a.
  - destruct a; reflexivity.
  - destruct a as [|c a]; cbn [app lit_ci].
    + destruct q as [|y q]; [reflexivity|]. cbn [lit_ci].
      rewrite (breaks_lower y x Hq Hx). reflexivity.
    + destruct (_ =? _)%N; [apply IH|reflexivity].
Qed.

Lemma opt_dollar_cut a q : break_led q -> opt_dollar (a ++ q) = opt_dollar a ++ q.
Proof.
  intros Hq. destruct a as [|c a]; cbn [app opt_dollar].
  - destruct q as [|y q]; [reflexivity|]. cbn [opt_dollar].
    rewrite (breaks_dollar y Hq). reflexivity.
  - destruct (c =? 36)%N; reflexivity.
Qed.

Lemma span_digits_cut a q :
  break_led q -> span_digits (a ++ q) = ((span_digits a).1, (span_digits a).2 ++ q).
Proof.
  intros Hq. induction a as [|c a IH]; cbn [app span_digits].
  - destruct q as [|y q]; [reflexivity|]. cbn [span_digits].
    rewrite (breaks_not_digit y Hq). reflexivity.
  - destruct (is_digit c); [|reflexivity]. rewrite IH.
    destruct (span_digits a); reflexivity.
Qed.

Lemma digits1_cut a q :
  break_led q -> digits1 (a ++ q) = (fun p => (p.1, p.2 ++ q)) <$> digits1 a.
Proof.
  intros Hq. unfold digits1. rewrite (span_digits_cut a q Hq).
  destruct (span_digits a) as [[|d ds] r]; reflexivity.
Qed.

Lemma inner_chars :
  Forall inner (u "hr") /\ Forall inner (u "hrw") /\ Forall inner (u "(")
  /\ Forall inner (u ")") /\ Forall inner (u " + ") /\ Forall inner (u " - ").
Proof. repeat split; repeat constructor; discriminate. Qed.

Lemma pass_name_cases k : pass_name k = 99%N :: u "hr" \/ pass_name k = 99%N :: u "hrw".
Proof. destruct k; auto. Qed.

Lemma pass_op_inner k o : pass_op k = Some o -> Forall inner o.
Proof.
  destruct inner_chars as (_ & _ & _ & _ & Hadd & Hsub).
  destruct k; intros [= <-]; assumption.
Qed.

Lemma cut_result (s q r g1 g2 : pystr) :
  (length r <= length s)%nat ->
  Some ({| group0 := take (length (s ++ q) - length (r ++ q)) (s ++ q);
           group1 := g1; group2 := g2 |},
        (length (s ++ q) - length (r ++ q))%nat)
  = Some ({| group0 := take (length s - length r) s; group1 := g1; group2 := g2 |},
          (length s - length r)%nat).
Proof.
  intros Hr.
  assert (En : (length (s ++ q) - length (r ++ q) = length s - length r)%nat)
    by (rewrite !length_app; lia).
  rewrite En, take_app_le by lia. reflexivity.
Qed.

Lemma match_call_cut k a q :
  a <> [] -> break_led q -> pattern k (a ++ q) = pattern k a.
Proof.
  intros Ha Hq. rewrite pattern_match_call.
  destruct inner_chars as (Hhr & Hhrw & Hopen & Hclose & _ & _).
  assert (Hnm : exists nm, pass_name k = 99%N :: nm /\ Forall inner nm).
  { destruct (pass_name_cases k) as [-> | ->]; eauto. }
  destruct Hnm as (nm & -> & Hnm).
  pose proof (pass_op_inner k) as Hop.
  destruct a as [|c a]; [contradiction|]. clear Ha.
  unfold match_call. cbn [app lit_ci].
  destruct (_ =? 99)%N; [|reflexivity].
  rewrite (lit_ci_cut nm a q Hnm Hq).
  destruct (lit_ci nm a) as [s1|] eqn:E1; [|reflexivity].
  cbn [fmap option_fmap option_map mbind option_bind].
  rewrite (opt_dollar_cut s1 q Hq), (lit_ci_cut _ _ q Hopen Hq).
  destruct (lit_ci (u "(") (opt_dollar s1)) as [s2|] eqn:E2; [|reflexivity].
  cbn [fmap option_fmap option_map mbind option_bind].
  rewrite (digits1_cut s2 q Hq).
  destruct (digits1 s2) as [[g1 s3]|] eqn:E3; [|reflexivity].
  cbn [fmap option_fmap option_map mbind option_bind fst snd].
  apply lit_ci_length in E1, E2. apply digits1_length in E3.
  pose proof (opt_dollar_length s1) as Hd.
  destruct (pass_op k) as [o|].
  - rewrite (lit_ci_cut o s3 q (Hop o eq_refl) Hq).
    destruct (lit_ci o s3) as [s4|] eqn:E4; [|reflexivity].
    cbn [fmap option_fmap option_map mbind option_bind].
    rewrite (digits1_cut s4 q Hq).
    destruct (digits1 s4) as [[g2 s5]|] eqn:E5; [|reflexivity].
    cbn [fmap option_fmap option_map mbind option_bind fst snd].
    rewrite (lit_ci_cut _ s5 q Hclose Hq).
    destruct (lit_ci (u ")") s5) as [s6|] eqn:E6; [|reflexivity].
    cbn [fmap option_fmap option_map mbind option_bind].
    apply lit_ci_length in E4, E6. apply digits1_length in E5.
    apply (cut_result (c :: a) q s6 g1 g2). cbn [length]. lia.
  - rewrite (lit_ci_cut _ s3 q Hclose Hq).
    destruct (lit_ci (u ")") s3) as [s6|] eqn:E6; [|reflexivity].
    cbn [fmap option_fmap option_map mbind option_bind].
    apply lit_ci_length in E6.
    apply (cut_result (c :: a) q s6 g1 []). cbn [length]. lia.
Qed.

(** **** A match stays a match when text is added after it *)

Lemma lit_ci_ext p a r z : lit_ci p a = Some r -> lit_ci p (a ++ z) = Some (r ++ z).
Proof.
  revert a. induction p as [|x p IH]; intros [|c a]; cbn [app lit_ci]; try discriminate.
  - intros [= <-]. destruct z; reflexivity.
  - intros [= <-]. reflexivity.
  - destruct (_ =? _)%N; [apply IH|discriminate].
Qed.

Lemma lit_ci_nonempty x p s r : lit_ci (x :: p) s = Some r -> s <> [].
Proof. destruct s; [discriminate|discriminate]. Qed.

Lemma opt_dollar_ext s z : s <> [] -> opt_dollar (s ++ z) = opt_dollar s ++ z.
Proof.
  destruct s as [|c s]; [contradiction|]. intros _. cbn [app opt_dollar].
  destruct (c =? 36)%N; reflexivity.
Qed.

Lemma opt_dollar_nonempty s : opt_dollar s <> [] -> s <> [].
Proof. destruct s; [intros H; exact H|discriminate]. Qed.

Lemma span_digits_ext s d r z :
  span_digits s = (d, r) -> r <> [] -> span_digits (s ++ z) = (d, r ++ z).
Proof.
  revert d. induction s as [|c s IH]; intros d; cbn [app span_digits].
  - intros [= <- <-] H. contradiction.
  - destruct (is_digit c).
    + destruct (span_digits s) as [d' r'] eqn:E. intros [= <- <-] Hr.
      rewrite (IH d' eq_refl Hr). reflexivity.
    + intros [= <- <-] _. reflexivity.
Qed.

Lemma digits1_ext s d r z :
  digits1 s = Some (d, r) -> r <> [] -> digits1 (s ++ z) = Some (d, r ++ z).
Proof.
  unfold digits1. destruct (span_digits s) as [d' r'] eqn:E.
  destruct d' as [|x d']; [discriminate|]. intros [= <- <-] Hr.
  rewrite (span_digits_ext s _ _ z E Hr). reflexivity.
Qed.

Lemma digits1_nonempty s d r : digits1 s = Some (d, r) -> d <> [].
Proof.
  unfold digits1. destruct (span_digits s) as [[|x d'] r']; [discriminate|].
  intros [= <- <-]. discriminate.
Qed.

Lemma match_call_ext nm op a z m n :
  match_call nm op a = Some (m, n) -> match_call nm op (a ++ z) = Some (m, n).
Proof.
  unfold match_call.
  destruct (lit_ci nm a) as [s1|] eqn:E1; [|discriminate].
  rewrite (lit_ci_ext _ _ _ z E1). cbn [mbind option_bind].
  destruct (lit_ci (u "(") (opt_dollar s1)) as [s2|] eqn:E2; [|discriminate].
  rewrite (opt_dollar_ext s1 z)
    by (apply opt_dollar_nonempty; exact (lit_ci_nonempty _ _ _ _ E2)).
  rewrite (lit_ci_ext _ _ _ z E2). cbn [mbind option_bind].
  destruct (digits1 s2) as [[g1 s3]|] eqn:E3; [|discriminate].
  pose proof (opt_dollar_length s1) as Hd.
  destruct op as [o|]; cbn [mbind option_bind].
  - destruct (lit_ci o s3) as [s4|] eqn:E4; [|discriminate]. cbn [mbind option_bind].
    destruct (digits1 s4) as [[g2 s5]|] eqn:E5; [|discriminate]. cbn [mbind option_bind].
    destruct (lit_ci (u ")") s5) as [s6|] eqn:E6; [|discriminate]. cbn [mbind option_bind].
    intros [= <- <-].
    assert (H3 : s3 <> []).
    { intros ->. destruct o as [|x o]; cbn in E4.
      - injection E4 as <-. discriminate E5.
      - discriminate E4. }
    rewrite (digits1_ext s2 g1 s3 z E3 H3). cbn [mbind option_bind].
    rewrite (lit_ci_ext _ _ _ z E4). cbn [mbind option_bind].
    rewrite (digits1_ext s4 g2 s5 z E5 (lit_ci_nonempty _ _ _ _ E6)).
    cbn [mbind option_bind]. rewrite (lit_ci_ext _ _ _ z E6). cbn [mbind option_bind].
    apply lit_ci_length in E1, E2, E4, E6. apply digits1_length in E3, E5.
    apply cut_result. lia.
  - destruct (lit_ci (u ")") s3) as [s6|] eqn:E6; [|discriminate]. cbn [mbind option_bind].
    intros [= <- <-].
    rewrite (digits1_ext s2 g1 s3 z E3 (lit_ci_nonempty _ _ _ _ E6)).
    cbn [mbind option_bind]. rewrite (lit_ci_ext _ _ _ z E6). cbn [mbind option_bind].
    apply lit_ci_length in E1, E2, E6. apply digits1_length in E3.
    apply cut_result. lia.
Qed.

Lemma pattern_ext k a z m n : pattern k a = Some (m, n) -> pattern k (a ++ z) = Some (m, n).
Proof. rewrite pattern_match_call. apply match_call_ext. Qed.

(** A match starts with the letter [c], has a span within the text,
    and groups that are not empty. *)
Lemma pattern_head k s m n :
  pattern k s = Some (m, n) ->
  break_led s /\ (0 < n <= length s)%nat /\ group0 m = take n s
  /\ group1 m <> [] /\ (pass_op k <> None -> group2 m <> []).
Proof.
  rewrite pattern_match_call. intros H.
  destruct (match_call_span _ _ _ _ _ H) as [Hn Hg].
  split; [|split; [lia|split; [exact Hg|]]].
  - destruct (pass_name_cases k) as [E|E]; rewrite E in H; unfold match_call in H;
      destruct s as [|c s]; try discriminate; cbn [lit_ci] in H;
      destruct (N.eqb_spec (ascii_lower_chr c) 99) as [Hc|]; try discriminate;
      left; exact Hc.
  - revert H. unfold match_call.
    destruct (lit_ci _ s) as [s1|]; [|discriminate]. cbn [mbind option_bind].
    destruct (lit_ci (u "(") (opt_dollar s1)) as [s2|]; [|discriminate].
    cbn [mbind option_bind].
    destruct (digits1 s2) as [[g1 s3]|] eqn:E3; [|discriminate]. cbn [mbind option_bind].
    apply digits1_nonempty in E3.
    destruct (pass_op k) as [o|].
    + destruct (lit_ci o s3) as [s4|]; [|discriminate]. cbn [mbind option_bind].
      destruct (digits1 s4) as [[g2 s5]|] eqn:E5; [|discriminate]. cbn [mbind option_bind].
      apply digits1_nonempty in E5.
      destruct (lit_ci (u ")") s5) as [s6|]; [|discriminate]. intros [= <- <-].
      cbn [group1 group2]. auto.
    + destruct (lit_ci (u ")") s3) as [s6|]; [|discriminate]. intros [= <- <-].
      cbn [group1 group2]. split; [exact E3|]. intros Hne. contradiction.
Qed.

(** *** Calls, as they stand in a text *)

(** The text of a call on two literals: the function name in any
    casing, an optional [$], and the arguments around the operator. *)
Definition call (name : pystr) (dollar : bool) (dx op dy : pystr) : pystr :=
  name ++ (if dollar then [36%N] else []) ++ 40%N :: dx ++ op ++ dy ++ [41%N].

(** [name(dx)] or [name$(dx)]: a call on one literal. *)
Definition call1 (name : pystr) (dollar : bool) (dx : pystr) : pystr :=
  name ++ (if dollar then [36%N] else []) ++ 40%N :: dx ++ [41%N].

Definition is_name (name : pystr) : Prop :=
  ascii_lower name = u "chr" \/ ascii_lower name = u "chrw".

(** What stands after the first literal. *)
Inductive operand :=
| Plus (dy : pystr)
| Minus (dy : pystr)
| Alone.

Definition call_text (name : pystr) (dollar : bool) (dx : pystr) (more : operand) : pystr :=
  match more with
  | Plus dy => call name dollar dx (u " + ") dy
  | Minus dy => call name dollar dx (u " - ") dy
  | Alone => call1 name dollar dx
  end.

Definition well_formed_call (name dx : pystr) (more : operand) : Prop :=
  is_name name /\ digits dx
  /\ match more with Plus dy | Minus dy => digits dy | Alone => True end.

Definition operator (more : operand) : option pystr :=
  match more with
  | Plus _ => Some (u " + ")
  | Minus _ => Some (u " - ")
  | Alone => None
  end.

Definition second (more : operand) : pystr :=
  match more with Plus dy | Minus dy => dy | Alone => [] end.

(** The pass whose pattern matches the call. *)
Definition handles (k : pass) (name : pystr) (more : operand) : bool :=
  bool_decide (ascii_lower name = pass_name k) && bool_decide (pass_op k = operator more).

(** What follows the first literal in the text. *)
Definition closing (more : operand) (r : pystr) : pystr :=
  match more with
  | Plus dy => u " + " ++ dy ++ 41%N :: r
  | Minus dy => u " - " ++ dy ++ 41%N :: r
  | Alone => 41%N :: r
  end.

Lemma call_text_app name dollar dx more r :
  call_text name dollar dx more ++ r
  = name ++ (if dollar then [36%N] else []) ++ 40%N :: dx ++ closing more r.
Proof.
  destruct more; unfold call_text, call, call1, closing;
    rewrite <- ?app_assoc; cbn [app]; rewrite <- ?app_assoc; cbn [app];
    repeat f_equal; rewrite <- ?app_assoc; reflexivity.
Qed.

Lemma closing_stops more r : stops (closing more r).
Proof. destruct more; reflexivity. Qed.

Lemma open_call k name (dollar : bool) dx tail :
  is_name name -> digits dx -> stops tail ->
  (s1 ← lit_ci (pass_name k) (name ++ (if dollar then [36%N] else []) ++ 40%N :: dx ++ tail);
   s2 ← lit_ci (u "(") (opt_dollar s1);
   digits1 s2)
  = if bool_decide (ascii_lower name = pass_name k) then Some (dx, tail) else None.
Proof.
  intros Hn Hx Ht.
  assert (Hsame : forall nm, ascii_lower name = nm ->
    (s1 ← lit_ci nm (name ++ (if dollar then [36%N] else []) ++ 40%N :: dx ++ tail);
     s2 ← lit_ci (u "(") (opt_dollar s1);
     digits1 s2) = Some (dx, tail)).
  { intros nm E. rewrite (lit_ci_exact _ _ _ E). cbn [mbind option_bind].
    replace (lit_ci (u "(") (opt_dollar ((if dollar then [36%N] else []) ++ 40%N :: dx ++ tail)))
      with (Some (dx ++ tail)) by (destruct dollar; reflexivity).
    cbn [mbind option_bind]. apply digits1_app; assumption. }
  case_bool_decide as E; [apply Hsame; exact E|].
  destruct Hn as [H|H].
  - assert (Ek : pass_name k = u "chr" ++ [119%N]).
    { destruct k; try reflexivity; exfalso; apply E; exact H. }
    rewrite Ek, (lit_ci_app _ _ _ _ H). destruct dollar; reflexivity.
  - assert (Ek : pass_name k = [99; 104; 114]%N).
    { destruct k; try reflexivity; exfalso; apply E; exact H. }
    rewrite Ek. change (u "chrw") with [99; 104; 114; 119]%N in H.
    destruct name as [|a [|b [|c [|d [|]]]]]; try discriminate.
    injection H as Ha Hb Hc Hd.
    cbn [app lit_ci]. rewrite Ha, Hb, Hc. cbn [N.eqb Pos.eqb mbind option_bind opt_dollar].
    destruct (N.eqb_spec d 36) as [->|_]; [discriminate|].
    change (u "(") with [40%N]. cbn [lit_ci]. rewrite Hd. reflexivity.
Qed.

Lemma match_call_opened nm op s g1 s3 :
  (s1 ← lit_ci nm s; s2 ← lit_ci (u "(") (opt_dollar s1); digits1 s2) = Some (g1, s3) ->
  match_call nm op s
  = match op with
    | Some o =>
      s4 ← lit_ci o s3;
      '(g2, s5) ← digits1 s4;
      s6 ← lit_ci (u ")") s5;
      let n := (length s - length s6)%nat in
      Some ({| group0 := take n s; group1 := g1; group2 := g2 |}, n)
    | None =>
      s6 ← lit_ci (u ")") s3;
      let n := (length s - length s6)%nat in
      Some ({| group0 := take n s; group1 := g1; group2 := [] |}, n)
    end.
Proof.
  unfold match_call. destruct (lit_ci nm s) as [s1|]; [|discriminate].
  cbn [mbind option_bind].
  destruct (lit_ci (u "(") (opt_dollar s1)) as [s2|]; [|discriminate].
  cbn [mbind option_bind]. intros ->. reflexivity.
Qed.

Lemma match_call_closed nm op s :
  (s1 ← lit_ci nm s; s2 ← lit_ci (u "(") (opt_dollar s1); digits1 s2) = None ->
  match_call nm op s = None.
Proof.
  unfold match_call. destruct (lit_ci nm s) as [s1|]; [|reflexivity].
  cbn [mbind option_bind].
  destruct (lit_ci (u "(") (opt_dollar s1)) as [s2|]; [|reflexivity].
  cbn [mbind option_bind]. intros ->. reflexivity.
Qed.

(** Where each pattern matches at the head of a call, whatever
    follows the call. *)
Lemma pattern_at k name dollar dx more r :
  well_formed_call name dx more ->
  pattern k (call_text name dollar dx more ++ r)
  = if handles k name more
    then Some ({| group0 := call_text name dollar dx more;
                  group1 := dx; group2 := second more |},
               length (call_text name dollar dx more))
    else None.
Proof.
  intros (Hn & Hx & Hy). rewrite pattern_match_call. unfold handles.
  pose proof (open_call k name dollar dx (closing more r) Hn Hx (closing_stops more r)) as Ho.
  rewrite <- call_text_app in Ho.
  destruct (bool_decide (ascii_lower name = pass_name k)); cbn [andb];
    [|apply match_call_closed; exact Ho].
  rewrite (match_call_opened _ _ _ _ _ Ho).
  assert (Hlen : forall s6 : pystr, s6 = r ->
    (length (call_text name dollar dx more ++ r) - length s6)%nat
    = length (call_text name dollar dx more)).
  { intros s6 ->. rewrite length_app. lia. }
  assert (Hy' : forall dy, digits dy -> digits1 (dy ++ 41%N :: r) = Some (dy, 41%N :: r)).
  { intros dy Hd. apply digits1_app; [exact Hd|reflexivity]. }
  destruct k, more; cbn [pass_op operator closing second];
    try (rewrite bool_decide_eq_false_2 by discriminate; reflexivity);
    rewrite bool_decide_eq_true_2 by reflexivity.
  all: try (change (lit_ci (u " + ") (u " + " ++ dy ++ 41%N :: r)) with (Some (dy ++ 41%N :: r))).
  all: try (change (lit_ci (u " - ") (u " - " ++ dy ++ 41%N :: r)) with (Some (dy ++ 41%N :: r))).
  all: cbn [mbind option_bind]; rewrite ?(Hy' dy Hy); cbn [mbind option_bind].
  all: change (lit_ci (u ")") (41%N :: r)) with (Some r); cbn [mbind option_bind].
  all: cbv zeta; rewrite (Hlen r eq_refl), take_app_length; reflexivity.
Qed.

(** *** What a call becomes *)

Definition wide (name : pystr) : bool := bool_decide (ascii_lower name = u "chrw").

(** The code point the callback computes. *)
Definition code_point (dx : pystr) (more : operand) : Z :=
  match more with
  | Plus dy => digits_value dx + digits_value dy
  | Minus dy => digits_value dx - digits_value dy
  | Alone => digits_value dx
  end.

(** The rule the callbacks are compared with: the quoted character
    when the code point is within [0, 255] (narrow) or [0, 0x10FFFF]
    (wide); otherwise the call itself for the wide sum, and nothing
    for the other five forms. *)
Definition replacement (name : pystr) (dollar : bool) (dx : pystr) (more : operand) : pystr :=
  let i := code_point dx more in
  if (0 <=? i) && (i <=? (if wide name then 0x10FFFF else 255)) then quoted_chr i
  else match more with
       | Plus _ => if wide name then call_text name dollar dx more else []
       | _ => []
       end.

(** A literal of the call has more digits than [int] converts. *)
Definition over_limit (dx : pystr) (more : operand) : bool :=
  (INT_MAX_STR_DIGITS <? len dx)
  || match more with
     | Plus dy | Minus dy => INT_MAX_STR_DIGITS <? len dy
     | Alone => false
     end.

Lemma digits_value_nonneg s : 0 <= digits_value s.
Proof.
  unfold digits_value. assert (H : forall acc, 0 <= acc ->
    0 <= fold_left (fun acc c => 10 * acc + Z.of_N (default 0%N (digit_value c))) s acc).
  { induction s as [|c s IH]; simpl; intros acc Ha; [assumption|]. apply IH. lia. }
  apply H. lia.
Qed.

Lemma py_int_digits d :
  d <> [] ->
  py_int d = if INT_MAX_STR_DIGITS <? len d then Raised ValueError
             else Returned (digits_value d).
Proof.
  intros Hd. unfold py_int.
  replace (len d =? 0) with false; [reflexivity|].
  symmetry. apply Z.eqb_neq. destruct d; [contradiction|]. unfold len. cbn [length]. lia.
Qed.

Lemma call_text_truthy name dollar dx more : truthy (call_text name dollar dx more) = true.
Proof.
  destruct more; unfold call_text, call, call1; destruct name; destruct dollar; reflexivity.
Qed.

Lemma wide_range i : 0 <= i ->
  (i >=? 0) && ((i <=? 0xFFFF) || (i <=? 0x10FFFF)) = (0 <=? i) && (i <=? 0x10FFFF).
Proof. intros H. rewrite Z.geb_leb. f_equal. lia. Qed.

Lemma wide_range_sub i :
  (i >=? 0) && ((i <=? 0xFFFF) || (i <=? 0x10FFFF)) = (0 <=? i) && (i <=? 0x10FFFF).
Proof. rewrite Z.geb_leb. f_equal. lia. Qed.

(** The callback of the pass that matches a call. *)
Lemma callback_at k name dollar dx more :
  well_formed_call name dx more -> handles k name more = true ->
  callback k {| group0 := call_text name dollar dx more;
                group1 := dx; group2 := second more |}
  = if over_limit dx more then Raised ValueError
    else Returned (replacement name dollar dx more).
Proof.
  intros (Hn & [Hx Hx'] & Hy) [Hk Ho]%andb_prop.
  apply bool_decide_eq_true in Hk, Ho.
  assert (Hw : wide name = bool_decide (pass_name k = u "chrw")).
  { unfold wide. rewrite Hk. reflexivity. }
  assert (Hdx : truthy dx = true) by (destruct dx; [contradiction|reflexivity]).
  unfold replacement, over_limit. rewrite Hw.
  destruct k, more; try discriminate Ho;
    cbn [callback pass_name second code_point];
    unfold deobf_chrs_add, deobf_unichrs_add, deobf_chrs_sub, deobf_unichrs_sub,
      deobf_chr, deobf_unichr;
    cbn [group0 group1 group2]; rewrite ?call_text_truthy, ?Hdx;
    rewrite (py_int_digits dx Hx);
    destruct (INT_MAX_STR_DIGITS <? len dx); cbn [bind orb]; try reflexivity;
    try (rewrite (py_int_digits dy (proj1 Hy));
         destruct (INT_MAX_STR_DIGITS <? len dy); cbn [bind]; try reflexivity);
    cbv zeta; rewrite ?wide_range_sub, ?Z.geb_leb;
    (rewrite bool_decide_eq_true_2 by reflexivity)
    || (rewrite bool_decide_eq_false_2 by discriminate);
    destruct (_ && _); reflexivity.
Qed.

(** *** Texts a pattern does not match in *)

Lemma pattern_not_c k c s : ascii_lower_chr c <> 99%N -> pattern k (c :: s) = None.
Proof.
  intros Hc. rewrite pattern_match_call.
  destruct (pass_name_cases k) as [-> | ->]; unfold match_call; cbn [lit_ci];
    destruct (N.eqb_spec (ascii_lower_chr c) 99); try contradiction; reflexivity.
Qed.

Lemma never_match_call_gen k s :
  Forall (fun c => ascii_lower_chr c <> 99%N) s -> Re.never (pattern k) s.
Proof.
  induction 1 as [|c s Hc _ IH]; simpl; [exact I|]. split; [|exact IH].
  apply pattern_not_c, Hc.
Qed.

Lemma misses_inner k a r :
  Forall (fun c => ascii_lower_chr c <> 99%N) a -> Re.misses (pattern k) a r.
Proof.
  induction 1 as [|c a Hc _ IH]; [apply Re.misses_nil|].
  apply Re.misses_cons; [|exact IH]. apply pattern_not_c, Hc.
Qed.

Lemma misses_quoted k i r : Re.misses (pattern k) (quoted_chr i) r.
Proof.
  unfold quoted_chr, py_chr. cbn [app].
  apply Re.misses_cons; [apply pattern_not_c; discriminate|].
  apply Re.misses_cons; [|apply misses_inner; repeat constructor; discriminate].
  rewrite pattern_match_call.
  destruct (pass_name_cases k) as [-> | ->]; unfold match_call; cbn [app lit_ci];
    destruct (_ =? 99)%N; reflexivity.
Qed.

(** A call starts with the letter [c] and has no other. *)
Lemma call_text_shape name dollar dx more :
  well_formed_call name dx more ->
  exists c0 t, call_text name dollar dx more = c0 :: t
               /\ ascii_lower_chr c0 = 99%N
               /\ Forall (fun c => ascii_lower_chr c <> 99%N) t.
Proof.
  intros (Hn & [_ Hx] & Hy).
  assert (Hd : forall d, Forall (fun c => is_digit c = true) d ->
                         Forall (fun c => ascii_lower_chr c <> 99%N) d).
  { intros d Hd. eapply Forall_impl; [exact Hd|]. intros c Hc. apply is_digit_plain, Hc. }
  assert (Hcl : Forall (fun c => ascii_lower_chr c <> 99%N) (closing more [])).
  { destruct more; cbn [closing u app]; repeat (constructor; [discriminate|]);
      try (apply Forall_app; split; [apply Hd, Hy|]); repeat constructor; discriminate. }
  assert (Ht : Forall (fun c => ascii_lower_chr c <> 99%N)
                 ((if dollar then [36%N] else []) ++ 40%N :: dx ++ closing more [])).
  { apply Forall_app; split; [destruct dollar; repeat constructor; discriminate|].
    constructor; [discriminate|]. apply Forall_app; split; [apply Hd, Hx|exact Hcl]. }
  pose proof (call_text_app name dollar dx more []) as E. rewrite app_nil_r in E.
  rewrite E. clear E.
  destruct Hn as [H|H];
    [change (u "chr") with [99; 104; 114]%N in H
    |change (u "chrw") with [99; 104; 114; 119]%N in H].
  - destruct name as [|a [|b [|c [|]]]]; try discriminate. injection H as Ha Hb Hc.
    eexists a, _. split; [reflexivity|]. split; [exact Ha|].
    cbn [app]. repeat (constructor; [congruence|]). exact Ht.
  - destruct name as [|a [|b [|c [|d [|]]]]]; try discriminate. injection H as Ha Hb Hc Hd'.
    eexists a, _. split; [reflexivity|]. split; [exact Ha|].
    cbn [app]. repeat (constructor; [congruence|]). exact Ht.
Qed.

Lemma misses_call k name dollar dx more r :
  well_formed_call name dx more -> handles k name more = false ->
  Re.misses (pattern k) (call_text name dollar dx more) r.
Proof.
  intros Hwf Hk. pose proof (pattern_at k name dollar dx more r Hwf) as Hp.
  rewrite Hk in Hp.
  destruct (call_text_shape name dollar dx more Hwf) as (c0 & t & E & _ & Ht).
  rewrite E in Hp |- *. apply Re.misses_cons; [exact Hp|]. apply misses_inner, Ht.
Qed.

(** *** Texts without a call *)

Definition all_passes : list pass := [ChrAdd; ChrwAdd; ChrSub; ChrwSub; Chr; Chrw].

(** One of the six patterns matches at the head of the text. *)
Definition call_at (s : pystr) : bool :=
  existsb (fun k => match pattern k s with Some _ => true | None => false end) all_passes.

(** One of them matches somewhere in the text. *)
Fixpoint has_call (s : pystr) : bool :=
  match s with
  | [] => false
  | _ :: t => call_at s || has_call t
  end.

Lemma call_at_none k s : call_at s = false -> pattern k s = None.
Proof.
  unfold call_at, all_passes. cbn [existsb]. rewrite !orb_false_iff.
  intros (H1 & H2 & H3 & H4 & H5 & H6 & _).
  destruct k; [revert H1|revert H2|revert H3|revert H4|revert H5|revert H6];
    match goal with |- _ -> ?p = None => destruct p end; congruence.
Qed.

Lemma has_call_app_r a s : has_call (a ++ s) = false -> has_call s = false.
Proof.
  induction a as [|c a IH]; [trivial|]. cbn [app has_call].
  intros [_ H]%orb_false_iff. exact (IH H).
Qed.

Lemma has_call_drop k s j :
  has_call s = false -> (j < length s)%nat -> pattern k (drop j s) = None.
Proof.
  revert j. induction s as [|c s IH]; intros j H Hj; [simpl in Hj; lia|].
  cbn [has_call] in H. apply orb_false_iff in H as [H0 H].
  destruct j as [|j]; [apply call_at_none, H0|]. cbn [drop]. apply IH; [exact H|].
  simpl in Hj. lia.
Qed.

Lemma has_call_never k s : has_call s = false -> Re.never (pattern k) s.
Proof.
  induction s as [|c s IH]; [intros _; exact I|]. cbn [has_call].
  intros [H0 H]%orb_false_iff. split; [apply call_at_none, H0|exact (IH H)].
Qed.

(** Text [g] before [r], where [r] goes on as the call-free text
    [g ++ g'] does up to a breaking character. *)
Lemma misses_text k g r g' :
  has_call (g ++ g') = false ->
  (exists p q q', r = p ++ q /\ g' = p ++ q' /\ break_led q) ->
  Re.misses (pattern k) g r.
Proof.
  intros H (p & q & q' & -> & -> & Hq) j Hj.
  assert (Hne : drop j g ++ p <> []).
  { intros E. apply app_eq_nil in E as [E _].
    apply (f_equal length) in E. rewrite length_drop in E. simpl in E. lia. }
  rewrite app_assoc, (match_call_cut k _ q Hne Hq).
  destruct (pattern k (drop j g ++ p)) as [[m n]|] eqn:E; [|reflexivity].
  apply (pattern_ext k _ q') in E.
  rewrite <- app_assoc, <- (drop_app_le g (p ++ q') j) in E by lia.
  rewrite (has_call_drop k _ j H) in E; [discriminate|].
  rewrite length_app. lia.
Qed.

(** *** A text as calls and the text between them *)

Inductive piece :=
| Text (t : pystr)
| Call (name : pystr) (dollar : bool) (dx : pystr) (more : operand).

(** The piece as it stands in the text, and after its replacement. *)
Definition source (p : piece) : pystr :=
  match p with
  | Text t => t
  | Call name dollar dx more => call_text name dollar dx more
  end.

Definition replaced (p : piece) : pystr :=
  match p with
  | Text t => t
  | Call name dollar dx more => replacement name dollar dx more
  end.

Definition well_formed (p : piece) : Prop :=
  match p with
  | Text _ => True
  | Call name _ dx more => well_formed_call name dx more
  end.

Definition too_long (p : piece) : bool :=
  match p with
  | Text _ => false
  | Call _ _ dx more => over_limit dx more
  end.

(** The text between the calls, put together. *)
Definition between (ps : list piece) : pystr :=
  flat_map (fun p => match p with Text t => t | Call _ _ _ _ => [] end) ps.

(** The piece after the passes [done]. *)
Definition stage (done : list pass) (p : piece) : pystr :=
  match p with
  | Text t => t
  | Call name dollar dx more =>
    if existsb (fun k => handles k name more) done
    then replacement name dollar dx more
    else call_text name dollar dx more
  end.

(** Pass [k] raises at the piece. *)
Definition raises (k : pass) (p : piece) : bool :=
  match p with
  | Text _ => false
  | Call name _ dx more => handles k name more && over_limit dx more
  end.

Lemma pass_determined k k' :
  pass_name k = pass_name k' -> pass_op k = pass_op k' -> k = k'.
Proof. destruct k, k'; intros H1 H2; try reflexivity; discriminate. Qed.

Lemma handles_unique k k' name more :
  handles k name more = true -> handles k' name more = true -> k = k'.
Proof.
  unfold handles. intros [H1 H2]%andb_prop [H3 H4]%andb_prop.
  apply bool_decide_eq_true in H1, H2, H3, H4.
  apply pass_determined; congruence.
Qed.

Lemma handles_some name more :
  is_name name -> existsb (fun k => handles k name more) all_passes = true.
Proof.
  intros Hn. unfold all_passes, handles. cbn [existsb pass_name pass_op].
  destruct Hn as [-> | ->], more; reflexivity.
Qed.

Lemma replacement_cases name dollar dx more :
  replacement name dollar dx more = quoted_chr (code_point dx more)
  \/ replacement name dollar dx more = call_text name dollar dx more
  \/ replacement name dollar dx more = [].
Proof.
  unfold replacement. cbv zeta. destruct (_ && _); [auto|].
  destruct more, (wide name); auto.
Qed.

Lemma stage_cases done name dollar dx more :
  stage done (Call name dollar dx more) = quoted_chr (code_point dx more)
  \/ stage done (Call name dollar dx more) = call_text name dollar dx more
  \/ stage done (Call name dollar dx more) = [].
Proof.
  cbn [stage]. destruct (existsb _ done); [apply replacement_cases|auto].
Qed.

Lemma stage_break done name dollar dx more x :
  well_formed_call name dx more ->
  stage done (Call name dollar dx more) = []
  \/ break_led (stage done (Call name dollar dx more) ++ x).
Proof.
  intros Hwf.
  destruct (stage_cases done name dollar dx more) as [-> | [-> | ->]]; [right|right|left].
  - right. reflexivity.
  - destruct (call_text_shape name dollar dx more Hwf) as (c0 & t & -> & Hc & _).
    left. exact Hc.
  - reflexivity.
Qed.

(** The text after the passes [done] goes on as the text between the
    calls does, up to a breaking character. *)
Lemma stage_lead done ps :
  Forall well_formed ps ->
  exists p q q', flat_map (stage done) ps = p ++ q /\ between ps = p ++ q' /\ break_led q.
Proof.
  induction 1 as [|pc ps Hwf _ (p & q & q' & E1 & E2 & Hq)].
  - exists [], [], []. repeat split.
  - destruct pc as [t|name dollar dx more].
    + exists (t ++ p), q, q'. unfold between in *. cbn [flat_map stage].
      rewrite E1, E2, <- !app_assoc. repeat split. exact Hq.
    + destruct (stage_break done name dollar dx more (flat_map (stage done) ps) Hwf)
        as [E|Hb].
      * exists p, q, q'. unfold between in *. cbn [flat_map]. rewrite E.
        cbn [app]. repeat split; assumption.
      * exists [], (stage done (Call name dollar dx more) ++ flat_map (stage done) ps),
          (between ps).
        repeat split. exact Hb.
Qed.

Lemma misses_stage k done name dollar dx more r :
  well_formed_call name dx more -> handles k name more = false ->
  Re.misses (pattern k) (stage done (Call name dollar dx more)) r.
Proof.
  intros Hwf Hk.
  destruct (stage_cases done name dollar dx more) as [-> | [-> | ->]].
  - apply misses_quoted.
  - apply misses_call; assumption.
  - apply Re.misses_nil.
Qed.

(** One pass over the pieces: the calls of its own kind are replaced,
    unless one of them has a literal that is too long. *)
Lemma pass_pieces k done ps :
  ~ In k done -> Forall well_formed ps -> has_call (between ps) = false ->
  Re.sub_raising (pattern k) (callback k) (flat_map (stage done) ps)
  = if existsb (raises k) ps then Raised ValueError
    else Returned (flat_map (stage (done ++ [k])) ps).
Proof.
  intros Hk Hwf. induction Hwf as [|pc ps Hpc Hwf IH]; intros Hb; [reflexivity|].
  destruct pc as [t|name dollar dx more].
  - unfold between in Hb. cbn [flat_map] in Hb. fold (between ps) in Hb.
    cbn [flat_map stage existsb raises orb].
    rewrite (Re.sub_raising_skip _ _ t _
               (misses_text k t _ _ Hb (stage_lead done ps Hwf))).
    rewrite (IH (has_call_app_r _ _ Hb)).
    destruct (existsb (raises k) ps); reflexivity.
  - specialize (IH Hb). cbn [well_formed] in Hpc.
    cbn [flat_map existsb raises].
    assert (Hnew : existsb (fun k0 => handles k0 name more) (done ++ [k])
                   = existsb (fun k0 => handles k0 name more) done || handles k name more).
    { rewrite existsb_app. cbn [existsb]. rewrite orb_false_r. reflexivity. }
    destruct (handles k name more) eqn:Hh.
    + assert (Hold : existsb (fun k0 => handles k0 name more) done = false).
      { destruct (existsb _ done) eqn:E; [|reflexivity]. exfalso.
        apply existsb_exists in E as (k' & Hin & Hk').
        rewrite (handles_unique k k' name more Hh Hk') in Hk. contradiction. }
      cbn [stage]. rewrite Hnew, Hold. cbn [orb andb].
      pose proof (pattern_at k name dollar dx more (flat_map (stage done) ps) Hpc) as Hp.
      rewrite Hh in Hp.
      rewrite (Re.sub_raising_hit _ _ _ _ _ Hp).
      2: { pose proof (call_text_truthy name dollar dx more) as Ht.
           rewrite length_app. destruct (call_text name dollar dx more); [discriminate|].
           cbn [length]. lia. }
      rewrite drop_app_length, (callback_at k name dollar dx more Hpc Hh), IH.
      destruct (over_limit dx more); [reflexivity|]. cbn [bind orb].
      destruct (existsb (raises k) ps); reflexivity.
    + cbn [andb orb].
      rewrite (Re.sub_raising_skip _ _ _ _ (misses_stage k done name dollar dx more _ Hpc Hh)).
      rewrite IH. cbn [stage]. rewrite Hnew, orb_false_r.
      destruct (existsb (raises k) ps); reflexivity.
Qed.

Lemma raises_too_long k ps : existsb (raises k) ps = true -> existsb too_long ps = true.
Proof.
  rewrite !existsb_exists. intros (p & Hin & Hp). exists p. split; [exact Hin|].
  destruct p as [|name dollar dx more]; [discriminate|].
  apply andb_prop in Hp as [_ Hp]. exact Hp.
Qed.

Lemma nothing_raises ps :
  Forall well_formed ps -> (forall k, existsb (raises k) ps = false) ->
  existsb too_long ps = false.
Proof.
  intros Hwf H. destruct (existsb too_long ps) eqn:E; [|reflexivity].
  apply existsb_exists in E as (p & Hin & Hp).
  destruct p as [|name dollar dx more]; [discriminate|].
  rewrite Forall_forall in Hwf.
  destruct (Hwf _ (proj2 (list_elem_of_In _ _) Hin)) as (Hn & _).
  pose proof (handles_some name more Hn) as Hs.
  apply existsb_exists in Hs as (k & _ & Hk).
  assert (Hr : existsb (raises k) ps = true).
  { apply existsb_exists. exists (Call name dollar dx more). split; [exact Hin|].
    cbn [raises]. rewrite Hk. exact Hp. }
  rewrite H in Hr. discriminate.
Qed.

Lemma stage_none ps : flat_map (stage []) ps = flat_map source ps.
Proof. apply flat_map_ext. intros [|]; reflexivity. Qed.

Lemma stage_all ps :
  Forall well_formed ps -> flat_map (stage all_passes) ps = flat_map replaced ps.
Proof.
  induction 1 as [|p ps Hp _ IH]; [reflexivity|]. cbn [flat_map]. rewrite IH. f_equal.
  destruct p as [|name dollar dx more]; [reflexivity|]. cbn [stage replaced].
  rewrite (handles_some name more (proj1 Hp)). reflexivity.
Qed.

(** The six passes and the last step on a text made of calls and of
    text that has no call of its own. *)
Lemma passes_pieces ps :
  Forall well_formed ps -> has_call (between ps) = false ->
  passes (flat_map source ps)
  = if existsb too_long ps then Raised ValueError
    else Returned (Re.sub CONCAT_RE (fun _ => []) (flat_map replaced ps)).
Proof.
  intros Hwf Hb. unfold passes. rewrite <- stage_none.
  change (Re.sub_raising CHR_ADD_RE deobf_chrs_add)
    with (Re.sub_raising (pattern ChrAdd) (callback ChrAdd)).
  rewrite (pass_pieces ChrAdd [] ps) by (auto; intros []).
  destruct (existsb (raises ChrAdd) ps) eqn:R1;
    [rewrite (raises_too_long _ _ R1); reflexivity|]. cbn [bind app].
  change (Re.sub_raising CHRW_ADD_RE deobf_unichrs_add)
    with (Re.sub_raising (pattern ChrwAdd) (callback ChrwAdd)).
  rewrite (pass_pieces ChrwAdd _ ps) by (auto; cbn; intuition discriminate).
  destruct (existsb (raises ChrwAdd) ps) eqn:R2;
    [rewrite (raises_too_long _ _ R2); reflexivity|]. cbn [bind app].
  change (Re.sub_raising CHR_SUB_RE deobf_chrs_sub)
    with (Re.sub_raising (pattern ChrSub) (callback ChrSub)).
  rewrite (pass_pieces ChrSub _ ps) by (auto; cbn; intuition discriminate).
  destruct (existsb (raises ChrSub) ps) eqn:R3;
    [rewrite (raises_too_long _ _ R3); reflexivity|]. cbn [bind app].
  change (Re.sub_raising CHRW_SUB_RE deobf_unichrs_sub)
    with (Re.sub_raising (pattern ChrwSub) (callback ChrwSub)).
  rewrite (pass_pieces ChrwSub _ ps) by (auto; cbn; intuition discriminate).
  destruct (existsb (raises ChrwSub) ps) eqn:R4;
    [rewrite (raises_too_long _ _ R4); reflexivity|]. cbn [bind app].
  change (Re.sub_raising CHR_RE deobf_chr)
    with (Re.sub_raising (pattern Chr) (callback Chr)).
  rewrite (pass_pieces Chr _ ps) by (auto; cbn; intuition discriminate).
  destruct (existsb (raises Chr) ps) eqn:R5;
    [rewrite (raises_too_long _ _ R5); reflexivity|]. cbn [bind app].
  change (Re.sub_raising CHRW_RE deobf_unichr)
    with (Re.sub_raising (pattern Chrw) (callback Chrw)).
  rewrite (pass_pieces Chrw _ ps) by (auto; cbn; intuition discriminate).
  destruct (existsb (raises Chrw) ps) eqn:R6;
    [rewrite (raises_too_long _ _ R6); reflexivity|]. cbn [bind app].
  fold all_passes. rewrite (stage_all ps Hwf).
  rewrite (nothing_raises ps Hwf) by (intros []; assumption). reflexivity.
Qed.

Lemma deobfuscator_pieces ps :
  Forall well_formed ps -> has_call (between ps) = false ->
  _deobfuscator (flat_map source ps)
  = if existsb too_long ps then flat_map source ps
    else Re.sub CONCAT_RE (fun _ => []) (flat_map replaced ps).
Proof.
  intros Hwf Hb. unfold _deobfuscator. rewrite (passes_pieces ps Hwf Hb).
  destruct (existsb too_long ps); reflexivity.
Qed.

(** *** A match anywhere in a text *)

(** The callback at a match: [ValueError] when a group has more digits
    than [int] converts, and otherwise the text its rule gives. *)
Definition long_group (m : re_match) : bool :=
  (INT_MAX_STR_DIGITS <? len (group1 m)) || (INT_MAX_STR_DIGITS <? len (group2 m)).

Lemma split_at_match k pre s m n :
  pattern k s = Some (m, n) ->
  Re.sub_raising (pattern k) (callback k) (pre ++ s)
  = bind (Re.sub_raising (pattern k) (callback k) pre) (fun a =>
    bind (callback k m) (fun r =>
    bind (Re.sub_raising (pattern k) (callback k) (drop n s)) (fun b =>
    Returned (a ++ r ++ b)))).
Proof.
  intros H. destruct (pattern_head k s m n H) as (Hb & Hn & _).
  rewrite (Re.sub_raising_split (pattern k) (callback k) pre s).
  - rewrite (Re.sub_raising_hit _ _ s m n H Hn).
    destruct (Re.sub_raising _ _ pre); [|reflexivity]. cbn [bind].
    destruct (callback k m); [|reflexivity]. cbn [bind].
    destruct (Re.sub_raising _ _ (drop n s)); reflexivity.
  - intros a Ha. apply match_call_cut; assumption.
  - intros a m' n' H'. apply (pattern_head k a m' n' H').
Qed.

Lemma pattern_truthy k s m n : pattern k s = Some (m, n) -> truthy (group0 m) = true.
Proof. rewrite pattern_match_call. apply match_call_truthy. Qed.

Ltac callback_rule k H :=
  let H1 := fresh in let H2 := fresh in
  match type of H with
  | ?find ?s = Some (?m, ?n) =>
    destruct (pattern_head k s m n H) as (_ & _ & _ & H1 & H2);
    specialize (H2 ltac:(discriminate));
    rewrite (pattern_truthy k s m n H);
    rewrite (py_int_digits _ H1), (py_int_digits _ H2);
    unfold long_group;
    destruct (_ <? len (group1 m)); [reflexivity|]; cbn [bind orb];
    destruct (_ <? len (group2 m)); [reflexivity|]; cbn [bind]; cbv zeta
  end.

Lemma callback_chr_add s m n :
  CHR_ADD_RE s = Some (m, n) ->
  let i := digits_value (group1 m) + digits_value (group2 m) in
  deobf_chrs_add m
  = if long_group m then Raised ValueError
    else Returned (if i <=? 255 then quoted_chr i else []).
Proof.
  intros H i. unfold deobf_chrs_add. callback_rule ChrAdd H. fold i.
  pose proof (digits_value_nonneg (group1 m)). pose proof (digits_value_nonneg (group2 m)).
  replace (i >=? 0) with true by (unfold i; lia). cbn [andb].
  destruct (i <=? 255); reflexivity.
Qed.

Lemma callback_chrw_add s m n :
  CHRW_ADD_RE s = Some (m, n) ->
  let i := digits_value (group1 m) + digits_value (group2 m) in
  deobf_unichrs_add m
  = if long_group m then Raised ValueError
    else Returned (if i <=? 0x10FFFF then quoted_chr i else take n s).
Proof.
  intros H i. unfold deobf_unichrs_add.
  destruct (pattern_head ChrwAdd s m n H) as (_ & _ & Hg & _).
  callback_rule ChrwAdd H. fold i.
  pose proof (digits_value_nonneg (group1 m)). pose proof (digits_value_nonneg (group2 m)).
  rewrite wide_range by (unfold i; lia).
  replace (0 <=? i) with true by (unfold i; lia). cbn [andb]. rewrite Hg.
  destruct (i <=? _); reflexivity.
Qed.

Lemma callback_chr_sub s m n :
  CHR_SUB_RE s = Some (m, n) ->
  let i := digits_value (group1 m) - digits_value (group2 m) in
  deobf_chrs_sub m
  = if long_group m then Raised ValueError
    else Returned (if (0 <=? i) && (i <=? 255) then quoted_chr i else []).
Proof.
  intros H i. unfold deobf_chrs_sub. callback_rule ChrSub H. fold i.
  rewrite Z.geb_leb. destruct (_ && _); reflexivity.
Qed.

Lemma callback_chrw_sub s m n :
  CHRW_SUB_RE s = Some (m, n) ->
  let i := digits_value (group1 m) - digits_value (group2 m) in
  deobf_unichrs_sub m
  = if long_group m then Raised ValueError
    else Returned (if (0 <=? i) && (i <=? 0x10FFFF) then quoted_chr i else []).
Proof.
  intros H i. unfold deobf_unichrs_sub. callback_rule ChrwSub H. fold i.
  rewrite wide_range_sub. destruct (_ && _); reflexivity.
Qed.

(** *** A call in any text *)

(** The six passes with a callback, which come before the last step. *)
Fixpoint run (ks : list pass) (text : pystr) : outcome exn pystr :=
  match ks with
  | [] => Returned text
  | k :: ks' => bind (Re.sub_raising (pattern k) (callback k) text) (run ks')
  end.

Definition chr_passes (text : pystr) : outcome exn pystr := run all_passes text.

Lemma passes_chr text :
  passes text
  = bind (chr_passes text) (fun deobf => Returned (Re.sub CONCAT_RE (fun _ => []) deobf)).
Proof.
  unfold passes, chr_passes, all_passes. cbn [run pattern callback].
  repeat match goal with
         | |- context [Re.sub_raising ?f ?r ?t] =>
           destruct (Re.sub_raising f r t); cbn [bind]; try reflexivity
         end.
Qed.

Lemma exn_one (e e' : exn) : e = e'.
Proof. destruct e, e'. reflexivity. Qed.

Lemma pattern_span k a m n : pattern k a = Some (m, n) -> (n <= length a)%nat.
Proof. intros H. apply (pattern_head k a m n H). Qed.

(** A pass around a text that starts with a breaking character and in
    which its pattern does not match. *)
Lemma pass_around k pre t post :
  t <> [] -> break_led t -> Re.misses (pattern k) t post ->
  Re.sub_raising (pattern k) (callback k) (pre ++ t ++ post)
  = bind (Re.sub_raising (pattern k) (callback k) pre) (fun a =>
    bind (Re.sub_raising (pattern k) (callback k) post) (fun b =>
    Returned (a ++ t ++ b))).
Proof.
  intros Hne Hb Hm.
  rewrite (Re.sub_raising_split (pattern k) (callback k) pre (t ++ post)).
  - rewrite (Re.sub_raising_skip _ _ t post Hm).
    destruct (Re.sub_raising _ _ pre); [|reflexivity]. cbn [bind].
    destruct (Re.sub_raising _ _ post); reflexivity.
  - intros a Ha. apply match_call_cut; [exact Ha|].
    destruct t; [contradiction|exact Hb].
  - apply pattern_span.
Qed.

(** The pass that matches a call, around the call. *)
Lemma pass_at_call k pre name dollar dx more post :
  well_formed_call name dx more -> handles k name more = true ->
  Re.sub_raising (pattern k) (callback k) (pre ++ call_text name dollar dx more ++ post)
  = bind (Re.sub_raising (pattern k) (callback k) pre) (fun a =>
    if over_limit dx more then Raised ValueError else
    bind (Re.sub_raising (pattern k) (callback k) post) (fun b =>
    Returned (a ++ replacement name dollar dx more ++ b))).
Proof.
  intros Hwf Hk. pose proof (pattern_at k name dollar dx more post Hwf) as Hp.
  rewrite Hk in Hp. rewrite (split_at_match k pre _ _ _ Hp).
  rewrite drop_app_length, (callback_at k name dollar dx more Hwf Hk).
  destruct (Re.sub_raising _ _ pre); [|reflexivity]. cbn [bind].
  destruct (over_limit dx more); reflexivity.
Qed.

Lemma run_around ks pre t post :
  t <> [] -> break_led t ->
  (forall k r, In k ks -> Re.misses (pattern k) t r) ->
  run ks (pre ++ t ++ post)
  = bind (run ks pre) (fun a => bind (run ks post) (fun b => Returned (a ++ t ++ b))).
Proof.
  intros Hne Hb. revert pre post.
  induction ks as [|k ks IH]; intros pre post Hm; [reflexivity|].
  cbn [run]. rewrite (pass_around k pre t post Hne Hb (Hm k post (or_introl eq_refl))).
  destruct (Re.sub_raising _ _ pre) as [a1|e]; [|reflexivity]. cbn [bind].
  destruct (Re.sub_raising _ _ post) as [b1|e]; cbn [bind].
  - apply IH. intros k' r Hin. apply Hm. right. exact Hin.
  - destruct (run ks a1) as [a|e']; [reflexivity|]. cbn [bind].
    f_equal. apply exn_one.
Qed.

(** The text a call has become is not matched again. *)
Lemma replacement_settled ks name dollar dx more :
  well_formed_call name dx more ->
  replacement name dollar dx more <> [] ->
  (forall k, In k ks -> handles k name more = false) ->
  break_led (replacement name dollar dx more)
  /\ (forall k r, In k ks -> Re.misses (pattern k) (replacement name dollar dx more) r).
Proof.
  intros Hwf Hne Hks.
  destruct (replacement_cases name dollar dx more) as [E|[E|E]]; [| |contradiction].
  - rewrite E. split; [right; reflexivity|]. intros k r _. apply misses_quoted.
  - rewrite E. split.
    + destruct (call_text_shape name dollar dx more Hwf) as (c0 & t & -> & Hc & _).
      left. exact Hc.
    + intros k r Hin. apply misses_call; [exact Hwf|exact (Hks k Hin)].
Qed.

Lemma call_text_around ks name dollar dx more :
  well_formed_call name dx more ->
  (forall k, In k ks -> handles k name more = false) ->
  call_text name dollar dx more <> []
  /\ break_led (call_text name dollar dx more)
  /\ (forall k r, In k ks -> Re.misses (pattern k) (call_text name dollar dx more) r).
Proof.
  intros Hwf Hks.
  destruct (call_text_shape name dollar dx more Hwf) as (c0 & t & E & Hc & _).
  split; [rewrite E; discriminate|]. split; [rewrite E; left; exact Hc|].
  intros k r Hin. apply misses_call; [exact Hwf|exact (Hks k Hin)].
Qed.

(** The passes [ks] around a call whose replacement is not empty. *)
Lemma run_call ks pre name dollar dx more post :
  NoDup ks -> well_formed_call name dx more ->
  replacement name dollar dx more <> [] ->
  run ks (pre ++ call_text name dollar dx more ++ post)
  = bind (run ks pre) (fun a =>
    if existsb (fun k => handles k name more) ks && over_limit dx more
    then Raised ValueError
    else bind (run ks post) (fun b =>
         Returned (a ++ (if existsb (fun k => handles k name more) ks
                         then replacement name dollar dx more
                         else call_text name dollar dx more) ++ b))).
Proof.
  intros Hnd Hwf Hne. revert pre post.
  induction Hnd as [|k ks Hk Hnd IH]; intros pre post; [reflexivity|].
  cbn [run existsb]. destruct (handles k name more) eqn:Hh; cbn [orb andb].
  - assert (Hrest : forall k', In k' ks -> handles k' name more = false).
    { intros k' Hin. destruct (handles k' name more) eqn:E; [|reflexivity].
      rewrite (handles_unique k k' name more Hh E) in Hk.
      exfalso. apply Hk, list_elem_of_In, Hin. }
    rewrite (pass_at_call k pre name dollar dx more post Hwf Hh).
    destruct (Re.sub_raising _ _ pre) as [a1|e]; [|reflexivity]. cbn [bind].
    destruct (over_limit dx more).
    + destruct (run ks a1) as [a|e]; [reflexivity|]. cbn [bind]. f_equal. apply exn_one.
    + destruct (Re.sub_raising _ _ post) as [b1|e]; cbn [bind].
      * destruct (replacement_settled ks name dollar dx more Hwf Hne Hrest) as [Hb Hm].
        apply (run_around ks a1 _ b1 Hne Hb Hm).
      * destruct (run ks a1) as [a|e']; [reflexivity|]. cbn [bind].
        f_equal. apply exn_one.
  - destruct (call_text_around [k] name dollar dx more Hwf) as (Hc1 & Hc2 & Hc3).
    { intros k' [<-|[]]. exact Hh. }
    rewrite (pass_around k pre _ post Hc1 Hc2 (Hc3 k post (or_introl eq_refl))).
    destruct (Re.sub_raising _ _ pre) as [a1|e]; [|reflexivity]. cbn [bind].
    destruct (Re.sub_raising _ _ post) as [b1|e]; cbn [bind].
    + apply IH.
    + destruct (run ks a1) as [a|e']; cbn [bind].
      * destruct (_ && _); [f_equal; apply exn_one|reflexivity].
      * f_equal. apply exn_one.
Qed.

Lemma all_passes_NoDup : NoDup all_passes.
Proof.
  unfold all_passes.
  repeat (constructor; [rewrite ?elem_of_cons, elem_of_nil; intuition discriminate|]).
  constructor.
Qed.

(** The six passes in any text, around a call that is not deleted. *)
Lemma chr_passes_call pre name dollar dx more post :
  well_formed_call name dx more ->
  replacement name dollar dx more <> [] ->
  chr_passes (pre ++ call_text name dollar dx more ++ post)
  = bind (chr_passes pre) (fun before =>
    if over_limit dx more then Raised ValueError
    else bind (chr_passes post) (fun after =>
         Returned (before ++ replacement name dollar dx more ++ after))).
Proof.
  intros Hwf Hne. unfold chr_passes.
  rewrite (run_call all_passes pre name dollar dx more post all_passes_NoDup Hwf Hne).
  rewrite (handles_some name more (proj1 Hwf)). reflexivity.
Qed.

(** *** Texts without a call, and the last step *)

(** The five characters of the concatenation idiom. *)
Definition idiom : pystr := dq :: u " & " ++ [dq].

Lemma passes_never text :
  (forall k, Re.never (pattern k) text) ->
  passes text = Returned (Re.sub CONCAT_RE (fun _ => []) text).
Proof.
  intros H. unfold passes.
  rewrite (Re.sub_raising_never CHR_ADD_RE _ text (H ChrAdd)). cbn [bind].
  rewrite (Re.sub_raising_never CHRW_ADD_RE _ text (H ChrwAdd)). cbn [bind].
  rewrite (Re.sub_raising_never CHR_SUB_RE _ text (H ChrSub)). cbn [bind].
  rewrite (Re.sub_raising_never CHRW_SUB_RE _ text (H ChrwSub)). cbn [bind].
  rewrite (Re.sub_raising_never CHR_RE _ text (H Chr)). cbn [bind].
  rewrite (Re.sub_raising_never CHRW_RE _ text (H Chrw)). reflexivity.
Qed.

Lemma deobfuscator_never text :
  (forall k, Re.never (pattern k) text) ->
  _deobfuscator text = Re.sub CONCAT_RE (fun _ => []) text.
Proof. intros H. unfold _deobfuscator. rewrite (passes_never text H). reflexivity. Qed.

Lemma never_concat_absent s : contains idiom s = false -> Re.never CONCAT_RE s.
Proof.
  induction s as [|c s IH]; [intros _; exact I|]. cbn [contains].
  rewrite orb_false_iff. intros [H1 H2]. split; [|exact (IH H2)].
  unfold CONCAT_RE. fold idiom. rewrite H1. reflexivity.
Qed.

Lemma startswith_app_le p x z :
  (length p <= length x)%nat -> startswith p (x ++ z) = startswith p x.
Proof.
  revert x. induction p as [|a p IH]; intros [|c x] H; cbn [app startswith length] in *;
    try reflexivity; try lia.
  rewrite IH by lia. reflexivity.
Qed.

(** The last step at the leftmost occurrence of the idiom. *)
Lemma concat_scan before after :
  contains idiom (before ++ take 4 idiom) = false ->
  Re.sub CONCAT_RE (fun _ => []) (before ++ idiom ++ after)
  = before ++ Re.sub CONCAT_RE (fun _ => []) after.
Proof.
  induction before as [|c before IH]; cbn [app].
  - intros _. rewrite (Re.sub_head_hit CONCAT_RE _ (idiom ++ after) tt 5).
    + reflexivity.
    + reflexivity.
    + cbn. lia.
  - cbn [contains]. rewrite orb_false_iff. intros [H0 H].
    rewrite Re.sub_head_miss; [rewrite (IH H); reflexivity|].
    unfold CONCAT_RE. fold idiom.
    replace (c :: before ++ idiom ++ after)
      with ((c :: before ++ take 4 idiom) ++ dq :: after)
      by (cbn [app]; f_equal; rewrite <- app_assoc; reflexivity).
    rewrite startswith_app_le, H0; [reflexivity|].
    cbn [length]. rewrite length_app. cbn. lia.
Qed.

(** ["a" & "b"] as it stands in the macro source. *)
Definition concat_of (a b : pystr) : pystr :=
  dq :: a ++ dq :: u " & " ++ dq :: b ++ [dq].

Lemma concat_of_split pre a b post :
  pre ++ concat_of a b ++ post = (pre ++ dq :: a) ++ idiom ++ (b ++ dq :: post).
Proof.
  unfold concat_of, idiom. change (u " & ") with [32; 38; 32]%N.
  repeat (rewrite <- ?app_assoc; cbn [app]). reflexivity.
Qed.

Lemma deobf_concat pre a b post :
  has_call (pre ++ concat_of a b ++ post) = false ->
  contains idiom (pre ++ dq :: a ++ take 4 idiom) = false ->
  contains idiom (b ++ dq :: post) = false ->
  _deobfuscator (pre ++ concat_of a b ++ post) = pre ++ dq :: a ++ b ++ dq :: post.
Proof.
  intros Hc Hbefore Hafter.
  rewrite (deobfuscator_never _ (fun k => has_call_never k _ Hc)).
  rewrite concat_of_split, concat_scan.
  - rewrite (Re.sub_never _ _ _ (never_concat_absent _ Hafter)).
    rewrite <- app_assoc. reflexivity.
  - rewrite <- app_assoc. exact Hbefore.
Qed.

(** C3 (amended).  A [chr]/[chrw] call on a sum or difference of two
    literals of at most 4300 digits each, in any casing and with or
    without [$], becomes the double-quoted character of that code point
    exactly when the code point is within [0, 255] (narrow) or
    [0, 0x10FFFF] (wide); out of range, the narrow forms and the wide
    difference leave nothing, and the wide sum leaves the call as
    written.  When a literal of a matched call has more than 4300
    digits, [int] raises and the text is returned as it came.  This is
    stated (1) for the deobfuscator on every text made of calls and of
    text that has no call of its own: every call is replaced, and the
    last step deletes the concatenation idiom from the outcome; (2) for
    the six passes on every text, around every call in it whose
    replacement is not empty: what stands before and after the call is
    deobfuscated on its own; (3) for each of the four passes on a sum
    or a difference, at every match in every text; (4) for every text,
    the deobfuscator returns the last step applied to what the six
    passes give, or the text itself when one of them raises.
    [chr(104 + 1)] gives the quoted [i], and [chr(300)] gives the empty
    text. *)
Theorem chr_arithmetic_deobfuscated :
  (forall ps,
     Forall well_formed ps -> has_call (between ps) = false ->
     _deobfuscator (flat_map source ps)
     = if existsb too_long ps then flat_map source ps
       else Re.sub CONCAT_RE (fun _ => []) (flat_map replaced ps))
  /\ (forall pre post name dollar dx more,
        well_formed_call name dx more ->
        replacement name dollar dx more <> [] ->
        chr_passes (pre ++ call_text name dollar dx more ++ post)
        = bind (chr_passes pre) (fun before =>
          if over_limit dx more then Raised ValueError
          else bind (chr_passes post) (fun after =>
               Returned (before ++ replacement name dollar dx more ++ after))))
  /\ (forall pre text m n,
        let add := digits_value (group1 m) + digits_value (group2 m) in
        let sub := digits_value (group1 m) - digits_value (group2 m) in
        (CHR_ADD_RE text = Some (m, n) ->
         Re.sub_raising CHR_ADD_RE deobf_chrs_add (pre ++ text)
         = bind (Re.sub_raising CHR_ADD_RE deobf_chrs_add pre) (fun before =>
           if long_group m then Raised ValueError else
           bind (Re.sub_raising CHR_ADD_RE deobf_chrs_add (drop n text)) (fun after =>
           Returned (before ++ (if add <=? 255 then quoted_chr add else []) ++ after))))
        /\ (CHRW_ADD_RE text = Some (m, n) ->
            Re.sub_raising CHRW_ADD_RE deobf_unichrs_add (pre ++ text)
            = bind (Re.sub_raising CHRW_ADD_RE deobf_unichrs_add pre) (fun before =>
              if long_group m then Raised ValueError else
              bind (Re.sub_raising CHRW_ADD_RE deobf_unichrs_add (drop n text)) (fun after =>
              Returned (before
                        ++ (if add <=? 0x10FFFF then quoted_chr add else take n text)
                        ++ after))))
        /\ (CHR_SUB_RE text = Some (m, n) ->
            Re.sub_raising CHR_SUB_RE deobf_chrs_sub (pre ++ text)
            = bind (Re.sub_raising CHR_SUB_RE deobf_chrs_sub pre) (fun before =>
              if long_group m then Raised ValueError else
              bind (Re.sub_raising CHR_SUB_RE deobf_chrs_sub (drop n text)) (fun after =>
              Returned (before
                        ++ (if (0 <=? sub) && (sub <=? 255) then quoted_chr sub else [])
                        ++ after))))
        /\ (CHRW_SUB_RE text = Some (m, n) ->
            Re.sub_raising CHRW_SUB_RE deobf_unichrs_sub (pre ++ text)
            = bind (Re.sub_raising CHRW_SUB_RE deobf_unichrs_sub pre) (fun before =>
              if long_group m then Raised ValueError else
              bind (Re.sub_raising CHRW_SUB_RE deobf_unichrs_sub (drop n text)) (fun after =>
              Returned (before
                        ++ (if (0 <=? sub) && (sub <=? 0x10FFFF) then quoted_chr sub else [])
                        ++ after)))))
  /\ (forall text,
        _deobfuscator text
        = match chr_passes text with
          | Returned deobf => Re.sub CONCAT_RE (fun _ => []) deobf
          | Raised _ => text
          end)
  /\ _deobfuscator (u "chr(104 + 1)") = [dq; 105%N; dq]
  /\ _deobfuscator (u "chr(300)") = [].
Proof.
  split; [|split; [|split; [|split; [|split; reflexivity]]]].
  - intros ps Hwf Hb. unfold _deobfuscator. rewrite (passes_pieces ps Hwf Hb).
    destruct (existsb too_long ps); reflexivity.
  - intros pre post name dollar dx more Hwf Hne.
    apply chr_passes_call; assumption.
  - intros pre text m n add sub. split; [|split; [|split]]; intros H.
    + pose proof (split_at_match ChrAdd pre text m n H) as Hs.
      cbn [pattern callback] in Hs. rewrite Hs.
      rewrite (callback_chr_add text m n H). fold add.
      destruct (Re.sub_raising _ _ pre); [|reflexivity]. cbn [bind].
      destruct (long_group m); reflexivity.
    + pose proof (split_at_match ChrwAdd pre text m n H) as Hs.
      cbn [pattern callback] in Hs. rewrite Hs.
      rewrite (callback_chrw_add text m n H). fold add.
      destruct (Re.sub_raising _ _ pre); [|reflexivity]. cbn [bind].
      destruct (long_group m); reflexivity.
    + pose proof (split_at_match ChrSub pre text m n H) as Hs.
      cbn [pattern callback] in Hs. rewrite Hs.
      rewrite (callback_chr_sub text m n H). fold sub.
      destruct (Re.sub_raising _ _ pre); [|reflexivity]. cbn [bind].
      destruct (long_group m); reflexivity.
    + pose proof (split_at_match ChrwSub pre text m n H) as Hs.
      cbn [pattern callback] in Hs. rewrite Hs.
      rewrite (callback_chrw_sub text m n H). fold sub.
      destruct (Re.sub_raising _ _ pre); [|reflexivity]. cbn [bind].
      destruct (long_group m); reflexivity.
  - intros text. unfold _deobfuscator. rewrite passes_chr.
    destruct (chr_passes text); reflexivity.
Qed.

(** C4 (amended).  The last step works on the text the six passes
    leave, and deletes the five characters of the idiom wherever they
    occur, the leftmost occurrence first.  In a text without a [chr]
    call whose one occurrence of the five characters joins two adjacent
    literals, the two become one literal: ["a" & "b"] becomes ["ab"].
    The text ["abc" & "def"] becomes ["abcdef"]. *)
Theorem concat_idiom_collapsed :
  (forall ps,
     Forall well_formed ps -> has_call (between ps) = false ->
     existsb too_long ps = false ->
     _deobfuscator (flat_map source ps)
     = Re.sub CONCAT_RE (fun _ => []) (flat_map replaced ps))
  /\ (forall before after,
        contains idiom (before ++ take 4 idiom) = false ->
        Re.sub CONCAT_RE (fun _ => []) (before ++ idiom ++ after)
        = before ++ Re.sub CONCAT_RE (fun _ => []) after)
  /\ (forall after,
        contains idiom after = false ->
        Re.sub CONCAT_RE (fun _ => []) after = after)
  /\ (forall pre a b post,
        has_call (pre ++ concat_of a b ++ post) = false ->
        contains idiom (pre ++ dq :: a ++ take 4 idiom) = false ->
        contains idiom (b ++ dq :: post) = false ->
        _deobfuscator (pre ++ concat_of a b ++ post) = pre ++ dq :: a ++ b ++ dq :: post)
  /\ _deobfuscator (concat_of (u "abc") (u "def")) = dq :: u "abcdef" ++ [dq].
Proof.
  split; [|split; [|split; [|split; [|reflexivity]]]].
  - intros ps Hwf Hb Hl. rewrite (deobfuscator_pieces ps Hwf Hb), Hl. reflexivity.
  - exact concat_scan.
  - intros after H. apply Re.sub_never, never_concat_absent, H.
  - exact deobf_concat.
Qed.

End WithUnicode.

(** A digit table without entries: ASCII text never consults it. *)
Definition ascii_digits_only : N -> option N := fun _ => None.

Lemma digits_of_forallb ud s :
  s <> [] -> forallb (is_digit ud) s = true -> digits ud s.
Proof.
  intros Hs H. split; [exact Hs|]. apply Forall_forall. intros c Hc.
  rewrite forallb_forall in H. apply H. apply list_elem_of_In. exact Hc.
Qed.

Lemma sample_digits s :
  s <> [] -> forallb (is_digit ascii_digits_only) s = true -> digits ascii_digits_only s.
Proof. apply digits_of_forallb. Qed.

(** [x = cHr$(104 + 1) & ChrW(1114111 + 1) & Chr(300 - 45)] *)
Definition sample_pieces : list piece :=
  [Text (u "x = ");
   Call (u "cHr") true (u "104") (Plus (u "1"));
   Text (u " & ");
   Call (u "ChrW") false (u "1114111") (Plus (u "1"));
   Text (u " & ");
   Call (u "Chr") false (u "300") (Minus (u "45"))].

Ltac sample_well_formed :=
  repeat (constructor;
    [first [ exact I
           | split; [first [left; reflexivity | right; reflexivity]|];
             split; [apply sample_digits; [discriminate|reflexivity]|];
             first [exact I | apply sample_digits; [discriminate|reflexivity]] ]|]);
  constructor.

Lemma sample_pieces_well_formed : Forall (well_formed ascii_digits_only) sample_pieces.
Proof. unfold sample_pieces. sample_well_formed. Qed.

Lemma chr_arithmetic_deobfuscated_witness :
  flat_map source sample_pieces = u "x = cHr$(104 + 1) & ChrW(1114111 + 1) & Chr(300 - 45)"
  /\ _deobfuscator ascii_digits_only (flat_map source sample_pieces)
     = u "x = " ++ [dq; 105%N; dq] ++ u " & ChrW(1114111 + 1) & " ++ [dq; 255%N; dq]
  /\ chr_passes ascii_digits_only
       (u "y = chr(1" ++ call_text (u "cHr") true (u "104") (Plus (u "1")) ++ u " : chr(66)")
     = Returned (u "y = chr(1" ++ [dq; 105%N; dq] ++ u " : " ++ [dq; 66%N; dq]).
Proof.
  split; [reflexivity|]. split.
  - exact (proj1 (chr_arithmetic_deobfuscated ascii_digits_only) sample_pieces
             sample_pieces_well_formed eq_refl).
  - refine (eq_trans
              (proj1 (proj2 (chr_arithmetic_deobfuscated ascii_digits_only))
                 (u "y = chr(1") (u " : chr(66)") (u "cHr") true (u "104") (Plus (u "1"))
                 _ _)
              eq_refl).
    + split; [left; reflexivity|].
      split; apply sample_digits; first [discriminate|reflexivity].
    + vm_compute. discriminate.
Defined.

(** C3, as stated: a sum within the range would always become the
    quoted character.  Here the first literal is 104 written with 4301
    digits: the text comes back unchanged. *)
Lemma chr_sum_with_long_literal_kept :
  let text := call (u "chr") false (repeat 48%N 4298 ++ u "104") (u " + ") (u "1") in
  digits_value ascii_digits_only (repeat 48%N 4298 ++ u "104") + digits_value ascii_digits_only (u "1") = 105
  /\ CHR_ADD_RE ascii_digits_only text
     = Some ({| group0 := text; group1 := repeat 48%N 4298 ++ u "104"; group2 := u "1" |},
             length text)
  /\ _deobfuscator ascii_digits_only text = text
  /\ text <> [dq; 105%N; dq].
Proof.
  intros text. split; [vm_compute; reflexivity|].
  split; [vm_compute; reflexivity|].
  split; [vm_compute; reflexivity|]. discriminate.
Qed.

Lemma concat_idiom_collapsed_witness :
  _deobfuscator ascii_digits_only (u "s = " ++ concat_of (u "cmd.exe /c ") (u "WScript.Shell") ++ u " : t = 1")
  = u "s = " ++ dq :: u "cmd.exe /c WScript.Shell" ++ dq :: u " : t = 1"
  /\ _deobfuscator ascii_digits_only (u "x = Chr(65 + 1) & ChrW$(67)")
     = u "x = " ++ [dq; 66%N; 67%N; dq].
Proof.
  destruct (concat_idiom_collapsed ascii_digits_only) as (Hps & _ & _ & Hlit & _).
  split.
  - exact (Hlit (u "s = ") (u "cmd.exe /c ") (u "WScript.Shell") (u " : t = 1")
             eq_refl eq_refl eq_refl).
  - refine (Hps [Text (u "x = "); Call (u "Chr") false (u "65") (Plus (u "1"));
                 Text (u " & "); Call (u "ChrW") true (u "67") Alone] _ eq_refl eq_refl).
    sample_well_formed.
Defined.

(** C4, as stated: the two literals would stay apart, with their quotes
    doubled.  The code merges them.  The merge is of literals whose
    joint is the one occurrence of the idiom in a text without call: a
    first literal that is the idiom's own middle loses its quotes to the
    leftmost match, and a call inside a literal is replaced before the
    last step. *)
Lemma concat_example_refuted :
  _deobfuscator ascii_digits_only (concat_of (u "abc") (u "def")) = dq :: u "abcdef" ++ [dq]
  /\ dq :: u "abcdef" ++ [dq] <> dq :: u "abc" ++ [dq; dq] ++ u "def" ++ [dq]
  /\ _deobfuscator ascii_digits_only (concat_of (u " & ") (u "b")) = u " & " ++ dq :: u "b" ++ [dq]
  /\ _deobfuscator ascii_digits_only (concat_of (u "chr(65)") (u "b"))
     = [dq; dq] ++ u "A" ++ dq :: u "b" ++ [dq].
Proof. split; [reflexivity|]. split; [discriminate|]. split; reflexivity. Qed.

End Deobfuscator.

(** ** Stomping detector (the tail of [Oletools._create_macro_sections]) *)

Module Stomping.

(** What [_mraptor_check] returns: MacroRaptor's verdict and the lines
    it matched. *)
Record mraptor_result := { suspicious : bool; matches : list pystr }.

(** *** [_mraptor_check]

    The value returned is [(rawr_combined.suspicious,
    rawr_combined.matches)] of a [mraptor.MacroRaptor] built on the
    joined macros, after its [scan()].  [scan] (oletools) searches the
    text for its three patterns in turn, appends each match it finds to
    [matches], and sets [suspicious] when the auto-execution pattern
    and one of the other two were found.  The three searches are
    parameters; what the constructor does to the text before the
    searches is part of them. *)
Section WithMacroRaptor.
Variable re_autoexec : pystr -> option pystr.
Variable re_write : pystr -> option pystr.
Variable re_execute : pystr -> option pystr.

Definition scan (vba_code : pystr) : mraptor_result :=
  let found (m : option pystr) := match m with Some g => [g] | None => [] end in
  let autoexec := re_autoexec vba_code in
  let write := re_write vba_code in
  let execute := re_execute vba_code in
  {| suspicious := bool_decide (is_Some autoexec)
                   && (bool_decide (is_Some execute) || bool_decide (is_Some write));
     matches := found autoexec ++ found write ++ found execute |}.

(** The extraction of the joined text and the passwords kept in the
    submission data do not bear on the value returned. *)
Definition _mraptor_check (macros : list pystr) : mraptor_result :=
  let combined := join [nl] macros in
  scan combined.

End WithMacroRaptor.

(** What the detector relies on in a scan result: a suspicious scan
    matched a line. *)
Definition scan_result (r : mraptor_result) : Prop :=
  suspicious r = true -> matches r <> [].

(** The "VBA Stomping" section.  [pcode_lines] are the items of the
    generator that is joined into [pcode_results]; the subsection with
    that body is attached only when the body is not empty. *)
Record stomp_sec := {
  pcode_lines : list pystr;
  pcode_results : pystr;
  shows_diff : bool
}.

(** [if self.vba_stomping or pcode_matches and pcode_sus and not vba_sus:] *)
Definition stomping_condition (vba_stomping : bool) (vba pcode : mraptor_result) : bool :=
  vba_stomping
  || (truthy (matches pcode) && (suspicious pcode && negb (suspicious vba))).

Definition detect_stomping (vba_stomping : bool) (vba pcode : mraptor_result)
  : option stomp_sec :=
  if stomping_condition vba_stomping vba pcode then
    let lines := filter (fun m => m ∉ matches vba) (matches pcode) in
    let pcode_results := join [nl] lines in
    Some {| pcode_lines := lines;
            pcode_results := pcode_results;
            shows_diff := truthy pcode_results |}
  else None.

Lemma mraptor_check_scan_result re_autoexec re_write re_execute macros :
  scan_result (_mraptor_check re_autoexec re_write re_execute macros).
Proof.
  unfold scan_result, _mraptor_check, scan. cbn [suspicious matches].
  intros [Ha _]%andb_prop. apply bool_decide_eq_true in Ha as [g ->].
  discriminate.
Qed.

Lemma stomping_condition_iff vba_stomping vba pcode :
  scan_result pcode ->
  stomping_condition vba_stomping vba pcode = true <->
  vba_stomping = true \/ (suspicious pcode = true /\ suspicious vba = false).
Proof.
  unfold scan_result, stomping_condition. intros Hscan.
  rewrite orb_true_iff, !andb_true_iff, negb_true_iff.
  split.
  - intros [H|(_ & H1 & H2)]; [left|right]; auto.
  - intros [H|[H1 H2]]; [left; exact H|right].
    split; [|split; assumption].
    destruct (matches pcode); [exfalso; apply (Hscan H1); reflexivity|reflexivity].
Qed.

Lemma detect_stomping_iff vba_stomping vba pcode :
  scan_result pcode ->
  is_Some (detect_stomping vba_stomping vba pcode) <->
  vba_stomping = true \/ (suspicious pcode = true /\ suspicious vba = false).
Proof.
  intros Hscan.
  pose proof (stomping_condition_iff vba_stomping vba pcode Hscan) as Hc.
  unfold detect_stomping. destruct (stomping_condition _ _ _); split.
  - intros _. apply Hc. reflexivity.
  - intros _. eexists. reflexivity.
  - intros [? H]. discriminate H.
  - intros H. apply Hc in H. discriminate H.
Qed.

(** C2.  For every value of the structural flag and every pair of scan
    results, stomping is reported exactly when the flag is set, or the
    p-code scan is suspicious while the macro-source scan is not.  This
    holds for every p-code result in which a suspicious scan has a
    matched line, and so for every pair of results of [_mraptor_check].
    When stomping is reported, the diff lists the p-code matched lines
    that are not among the macro-source matched lines; its text is
    those lines joined by line feeds, shown when not empty.  With no
    macro-source evidence, the p-code line [Shell(...)] from a
    suspicious scan and the flag unset, stomping is reported with that
    line as the diff. *)
Theorem stomping_reported vba_stomping vba pcode :
  (scan_result pcode ->
   (is_Some (detect_stomping vba_stomping vba pcode) <->
    vba_stomping = true \/ (suspicious pcode = true /\ suspicious vba = false)))
  /\ (forall re_autoexec re_write re_execute macros pcodes,
        let vba_scan := _mraptor_check re_autoexec re_write re_execute macros in
        let pcode_scan := _mraptor_check re_autoexec re_write re_execute pcodes in
        is_Some (detect_stomping vba_stomping vba_scan pcode_scan) <->
        vba_stomping = true
        \/ (suspicious pcode_scan = true /\ suspicious vba_scan = false))
  /\ match detect_stomping vba_stomping vba pcode with
     | Some sec =>
       (forall m, m ∈ pcode_lines sec <-> m ∈ matches pcode /\ m ∉ matches vba)
       /\ pcode_results sec = join [nl] (pcode_lines sec)
       /\ shows_diff sec = truthy (pcode_results sec)
     | None => True
     end
  /\ detect_stomping false {| suspicious := false; matches := [] |}
       {| suspicious := true; matches := [u "Shell(...)"] |}
     = Some {| pcode_lines := [u "Shell(...)"];
               pcode_results := u "Shell(...)";
               shows_diff := true |}.
Proof.
  split; [|split; [|split; [|reflexivity]]].
  - apply detect_stomping_iff.
  - intros re_autoexec re_write re_execute macros pcodes vba_scan pcode_scan.
    apply detect_stomping_iff, mraptor_check_scan_result.
  - unfold detect_stomping. destruct (stomping_condition _ _ _); [|exact I].
    cbn. split; [|split; reflexivity].
    intros m. rewrite list_elem_of_filter. tauto.
Qed.

(** Sample searches: the auto-execution pattern finds [AutoOpen], the
    execution pattern [Shell]; nothing writes. *)
Definition sample_autoexec (code : pystr) : option pystr :=
  if contains (u "AutoOpen") code then Some (u "AutoOpen") else None.
Definition sample_write (code : pystr) : option pystr := None.
Definition sample_execute (code : pystr) : option pystr :=
  if contains (u "Shell") code then Some (u "Shell") else None.
Definition sample_check : list pystr -> mraptor_result :=
  _mraptor_check sample_autoexec sample_write sample_execute.

Lemma stomping_reported_witness :
  let vba := sample_check [u "Sub AutoOpen()"; u "End Sub"] in
  let pcode := sample_check [u "Sub AutoOpen()"; u "Shell cmd"; u "End Sub"] in
  scan_result pcode
  /\ suspicious pcode = true /\ suspicious vba = false
  /\ is_Some (detect_stomping false vba pcode)
  /\ detect_stomping false vba pcode
     = Some {| pcode_lines := [u "Shell"]; pcode_results := u "Shell"; shows_diff := true |}.
Proof.
  intros vba pcode.
  assert (Hscan : scan_result pcode) by (intros _; discriminate).
  split; [exact Hscan|]. split; [reflexivity|]. split; [reflexivity|].
  split; [|reflexivity].
  apply (proj1 (stomping_reported false vba pcode) Hscan). right. split; reflexivity.
Defined.

End Stomping.

(** ** Link verdict tiering (the tail of [Oletools._check_xml_strings]) *)

Module Verdict.

Inductive verdict := Malicious | Suspicious | Informative.

#[global] Instance verdict_eq_dec : EqDecision verdict.
Proof. solve_decision. Defined.

(** One element of the generator that is sorted and grouped: the
    external link [(type, target)] and the score of the heuristic that
    [_process_link] built for it. *)
Record processed := { link_type : pystr; link : pystr; score : Z }.

Definition get_verdict (score : Z) : verdict :=
  if score >=? 1000 then Malicious
  else if score >=? 500 then Suspicious
  else Informative.

(** [sorted(..., key=lambda x: x[1].score, reverse=True)].  The sort is
    stable, also with [reverse=True]: among equal scores the earlier
    element stays first. *)
Fixpoint insert_desc (x : processed) (l : list processed) : list processed :=
  match l with
  | [] => [x]
  | y :: t => if score y >? score x then y :: insert_desc x t else x :: l
  end.

Definition sorted_desc (l : list processed) : list processed :=
  foldr insert_desc [] l.

(** [itertools.groupby]: maximal runs of neighbours with the same key,
    each run given by its first element and the rest. *)
Fixpoint groupby {K} `{EqDecision K} (key : processed -> K) (l : list processed)
  : list (K * (processed * list processed)) :=
  match l with
  | [] => []
  | x :: t =>
    match groupby key t with
    | (k, (y, r)) :: rest =>
      if decide (key x = k) then (k, (x, y :: r)) :: rest
      else (key x, (x, [])) :: (k, (y, r)) :: rest
    | [] => [(key x, (x, []))]
    end
  end.

(** [max(heuristics, key=lambda h: h.score)]: the first of the maximal
    elements. *)
Definition py_max (x : processed) (t : list processed) : processed :=
  fold_left (fun best h => if score h >? score best then h else best) t x.

(** One "External Relationship Targets" section. *)
Record link_section := {
  title : verdict;
  grouped_links : list processed;
  heuristic : processed
}.

Definition verdict_of (p : processed) : verdict := get_verdict (score p).

Definition link_sections (external_links : list processed) : list link_section :=
  map (fun '(v, (x, r)) =>
         {| title := v; grouped_links := x :: r; heuristic := py_max x r |})
      (groupby verdict_of (sorted_desc external_links)).

(** *** Sorting and grouping *)

Lemma insert_desc_elem x a l : x ∈ insert_desc a l <-> x = a \/ x ∈ l.
Proof.
  induction l as [|y t IH]; simpl.
  - rewrite list_elem_of_singleton, elem_of_nil. tauto.
  - destruct (score y >? score a); rewrite !elem_of_cons; [rewrite IH|]; tauto.
Qed.

Lemma sorted_desc_elem x l : x ∈ sorted_desc l <-> x ∈ l.
Proof.
  induction l as [|a l IH]; simpl; [reflexivity|].
  rewrite insert_desc_elem, elem_of_cons, IH. reflexivity.
Qed.

Lemma insert_desc_sorted x l :
  StronglySorted (fun a b => score b <= score a) l ->
  StronglySorted (fun a b => score b <= score a) (insert_desc x l).
Proof.
  induction 1 as [|y t Ht IH Hy]; simpl; [repeat constructor|].
  destruct (Z.gtb_spec (score y) (score x)).
  - constructor; [exact IH|]. apply Forall_forall. intros z [->|Hz]%insert_desc_elem; [lia|].
    rewrite Forall_forall in Hy. auto.
  - constructor; [constructor; assumption|]. constructor; [lia|].
    eapply Forall_impl; [exact Hy|]. simpl. intros z Hz. lia.
Qed.

Lemma sorted_desc_sorted l :
  StronglySorted (fun a b => score b <= score a) (sorted_desc l).
Proof.
  induction l as [|a l IH]; simpl; [constructor|]. apply insert_desc_sorted, IH.
Qed.

Lemma elem_of_concat {A} (x : A) (ls : list (list A)) :
  x ∈ concat ls <-> exists l, x ∈ l /\ l ∈ ls.
Proof.
  induction ls as [|l ls IH]; simpl.
  - split; [intros H; apply elem_of_nil in H; contradiction|].
    intros (l & _ & H). apply elem_of_nil in H. contradiction.
  - rewrite elem_of_app, IH. split.
    + intros [H|(l' & H1 & H2)]; [exists l; split; [exact H|left]|].
      exists l'. split; [exact H1|right; exact H2].
    + intros (l' & H1 & [->|H2]%elem_of_cons); [left; exact H1|].
      right. exists l'. split; assumption.
Qed.

Section Groupby.
Context {K : Type} `{EqDecision K} (key : processed -> K).

Lemma groupby_key l k x r :
  (k, (x, r)) ∈ groupby key l -> forall y, y ∈ x :: r -> key y = k.
Proof.
  revert k x r. induction l as [|a t IH]; simpl; intros k x r.
  - intros H. apply elem_of_nil in H. contradiction.
  - destruct (groupby key t) as [|[k' [y' r']] rest] eqn:E.
    + intros [= -> -> ->]%list_elem_of_singleton y ->%list_elem_of_singleton. reflexivity.
    + destruct (decide (key a = k')) as [Hk|Hk].
      * intros [[= -> -> ->]|H]%elem_of_cons y Hy.
        -- apply elem_of_cons in Hy as [->|Hy]; [exact Hk|].
           apply (IH k' y' r'); [left|exact Hy].
        -- apply (IH k x r); [right; exact H|exact Hy].
      * intros [[= -> -> ->]|H]%elem_of_cons y Hy.
        -- apply list_elem_of_singleton in Hy as ->. reflexivity.
        -- apply (IH k x r); assumption.
Qed.

Lemma groupby_concat l :
  concat (map (fun g => g.2.1 :: g.2.2) (groupby key l)) = l.
Proof.
  induction l as [|a t IH]; simpl; [reflexivity|].
  destruct (groupby key t) as [|[k' [y' r']] rest] eqn:E.
  - simpl in *. rewrite <- IH. reflexivity.
  - destruct (decide (key a = k')); simpl in *; rewrite <- IH; reflexivity.
Qed.

Lemma groupby_head l k x r rest :
  groupby key l = (k, (x, r)) :: rest -> exists t, l = x :: t /\ key x = k.
Proof.
  destruct l as [|a t]; simpl; [discriminate|].
  destruct (groupby key t) as [|[k' [y' r']] rest'].
  - intros [= <- <- <- <-]. eauto.
  - destruct (decide (key a = k')) as [Hk|Hk]; intros [= <- <- <- <-]; eauto.
Qed.

End Groupby.

Lemma py_max_spec x t :
  py_max x t ∈ x :: t /\ forall y, y ∈ x :: t -> score y <= score (py_max x t).
Proof.
  unfold py_max. revert x. induction t as [|h t IH]; intros x; simpl.
  - split; [left|]. intros y ->%list_elem_of_singleton. lia.
  - destruct (IH (if score h >? score x then h else x)) as [Hin Hmax]. split.
    + apply elem_of_cons in Hin as [Hin|Hin]; [|do 2 right; exact Hin].
      rewrite Hin. destruct (score h >? score x); [right; left|left].
    + intros y Hy. assert (Hx := Hmax _ (list_elem_of_here _ _)).
      apply elem_of_cons in Hy as [->|Hy].
      * destruct (Z.gtb_spec (score h) (score x)); lia.
      * apply elem_of_cons in Hy as [->|Hy]; [|apply Hmax; right; exact Hy].
        destruct (Z.gtb_spec (score h) (score x)); lia.
Qed.

(** *** One group per verdict *)

Definition rank (v : verdict) : Z :=
  match v with Malicious => 2 | Suspicious => 1 | Informative => 0 end.

Lemma get_verdict_spec s :
  (get_verdict s = Malicious <-> 1000 <= s)
  /\ (get_verdict s = Suspicious <-> 500 <= s < 1000)
  /\ (get_verdict s = Informative <-> s < 500).
Proof.
  unfold get_verdict. rewrite !Z.geb_leb.
  destruct (Z.leb_spec 1000 s), (Z.leb_spec 500 s);
    repeat split; intros; try discriminate; try reflexivity; lia.
Qed.

Lemma get_verdict_mono a b : a <= b -> rank (get_verdict a) <= rank (get_verdict b).
Proof.
  unfold get_verdict. rewrite !Z.geb_leb. intros H.
  destruct (Z.leb_spec 1000 a), (Z.leb_spec 500 a), (Z.leb_spec 1000 b), (Z.leb_spec 500 b);
    simpl; lia.
Qed.

Lemma rank_inj v w : rank v = rank w -> v = w.
Proof. destruct v, w; simpl; intros H; try reflexivity; lia. Qed.

Lemma groupby_titles_sorted l :
  StronglySorted (fun a b => score b <= score a) l ->
  StronglySorted (fun g1 g2 => rank g2.1 < rank g1.1) (groupby verdict_of l).
Proof.
  induction 1 as [|a t Ht IH Ha]; simpl; [constructor|].
  destruct (groupby verdict_of t) as [|[k [y r]] rest] eqn:E; [repeat constructor|].
  inversion IH as [|? ? Hrest Hk]; subst.
  destruct (decide (verdict_of a = k)) as [Hak|Hak].
  - constructor; assumption.
  - constructor; [exact IH|].
    destruct (groupby_head _ _ _ _ _ _ E) as (t' & -> & Hy).
    assert (Hlt : rank k < rank (verdict_of a)).
    { inversion Ha as [|? ? Hya _]; subst.
      pose proof (get_verdict_mono _ _ Hya) as Hm. fold (verdict_of y) in Hm.
      fold (verdict_of a) in Hm.
      destruct (Z.eq_dec (rank (verdict_of y)) (rank (verdict_of a))) as [Heq|Hne].
      - apply rank_inj in Heq. congruence.
      - simpl. lia. }
    constructor; [exact Hlt|].
    eapply Forall_impl; [exact Hk|]. simpl. intros g Hg. lia.
Qed.

Lemma strictly_sorted_NoDup (gs : list (verdict * (processed * list processed))) :
  StronglySorted (fun g1 g2 => rank g2.1 < rank g1.1) gs -> NoDup (map fst gs).
Proof.
  induction 1 as [|g gs Hs IH Hg]; simpl; constructor; [|exact IH].
  intros (g' & Heq & Hin)%list_elem_of_fmap.
  rewrite Forall_forall in Hg. specialize (Hg _ Hin). rewrite Heq in Hg. lia.
Qed.

(** C8.  The verdict of a link follows its score through the two
    thresholds 1000 and 500; every link lands in the section of its
    verdict, there is one section per verdict, and the heuristic a
    section reports is a member whose score no other member exceeds. *)
Theorem link_verdict_tiering links :
  (forall s,
     (get_verdict s = Malicious <-> 1000 <= s)
     /\ (get_verdict s = Suspicious <-> 500 <= s < 1000)
     /\ (get_verdict s = Informative <-> s < 500))
  /\ get_verdict 1000 = Malicious
  /\ get_verdict 500 = Suspicious
  /\ get_verdict 0 = Informative
  /\ (forall x, x ∈ links <->
        exists sec, sec ∈ link_sections links /\ x ∈ grouped_links sec)
  /\ (forall sec, sec ∈ link_sections links ->
        heuristic sec ∈ grouped_links sec
        /\ forall x, x ∈ grouped_links sec ->
             get_verdict (score x) = title sec /\ score x <= score (heuristic sec))
  /\ NoDup (map title (link_sections links)).
Proof.
  split; [exact get_verdict_spec|]. do 3 (split; [reflexivity|]).
  unfold link_sections. split; [|split].
  - intros x. rewrite <- (sorted_desc_elem x links).
    rewrite <- (groupby_concat verdict_of (sorted_desc links)) at 1.
    rewrite elem_of_concat. split.
    + intros (g & Hx & (grp & -> & Hgrp)%list_elem_of_fmap).
      destruct grp as [k [y r]]. eexists. split.
      * apply list_elem_of_fmap. exists (k, (y, r)). split; [reflexivity|exact Hgrp].
      * exact Hx.
    + intros (sec & (grp & -> & Hgrp)%list_elem_of_fmap & Hx).
      destruct grp as [k [y r]]. exists (y :: r). split; [exact Hx|].
      apply list_elem_of_fmap. exists (k, (y, r)). split; [reflexivity|exact Hgrp].
  - intros sec (grp & -> & Hgrp)%list_elem_of_fmap. destruct grp as [k [y r]]. simpl.
    destruct (py_max_spec y r) as [Hin Hmax]. split; [exact Hin|].
    intros x Hx. split; [|apply Hmax, Hx].
    exact (groupby_key verdict_of _ _ _ _ Hgrp x Hx).
  - rewrite <- list_fmap_compose.
    erewrite list_fmap_ext; [apply strictly_sorted_NoDup, groupby_titles_sorted, sorted_desc_sorted|].
    intros i [k [y r]] _. reflexivity.
Qed.

Example link_sections_sample :
  let at_score n := {| link_type := u "oleobject"; link := u "x"; score := n |} in
  map (fun sec => (title sec, map score (grouped_links sec), score (heuristic sec)))
      (link_sections [at_score 0; at_score 1000; at_score 500; at_score 1200])
  = [(Malicious, [1200; 1000], 1200); (Suspicious, [500], 500); (Informative, [0], 0)].
Proof. reflexivity. Qed.

End Verdict.

(** ** Base64 recovery ([Oletools._check_for_b64]) *)

Module Base64.

Definition MAX_STRINGDUMP_CHARS : Z := 500.
Definition MAX_BASE64_CHARS : Z := 8000000.

(** [31 < i < 127] *)
Definition printable (i : N) : bool := ((31 <? i) && (i <? 127))%N.

(** [bytes(i for i in base64data if 31 < i < 127)] *)
Definition ascii_filter (b : pybytes) : pybytes :=
  filter (fun i => printable i = true) b.

(** A byte that [rb"\s"] matches: space, [\t], [\n], [\r], [\f], [\v]. *)
Definition is_space (i : N) : bool :=
  bool_decide (i ∈ [32; 9; 10; 13; 12; 11]%N).

(** [len(set(asc_b64))] *)
Definition distinct (b : pybytes) : Z := len (remove_dups b).

(** [len(re.sub(rb"\s", b"", asc_b64))] *)
Definition non_space (b : pybytes) : Z := len (filter (fun i => is_space i = false) b).

(** One "Result <sha256>" subsection: the decoded payload it reports,
    the offsets of the run, the ASCII dump when there is one, and the
    tags of the pattern match on the payload. *)
Record sub_b64_res := {
  decoded : pybytes;
  run : Z * Z;
  dump_section : option pybytes;
  tags : list (string * list pybytes)
}.

Record b64_state := {
  seen_base64 : gset (list N);
  b64_ascii_content : list pybytes;
  subsections : list sub_b64_res;
  extracted : list (pybytes * string)
}.

Section WithCollaborators.
(** [find_base64]: the decoded payload and the offsets of each run. *)
Variable find_base64 : pybytes -> list (pybytes * (Z * Z)).
(** [magic.Magic(mime=True).from_buffer] *)
Variable from_buffer : pybytes -> pystr.
(** [self.patterns.ioc_match(_, bogon_ip=True)] *)
Variable ioc_match : pybytes -> list (string * list pybytes).

Definition report (st : b64_state) (base64data : pybytes) (se : Z * Z)
    (dump : option pybytes) : b64_state :=
  {| seen_base64 := seen_base64 st;
     b64_ascii_content := b64_ascii_content st;
     subsections := subsections st ++
       [{| decoded := base64data; run := se; dump_section := dump;
           tags := ioc_match base64data |}];
     extracted := extracted st |}.

(** The body of the loop over [find_base64(data)].  The UTF-16 decode of
    the text branch is overwritten by the printable filter before any
    use, and leaves no trace here. *)
Definition visit (st : b64_state) (cand : pybytes * (Z * Z)) : b64_state :=
  let '(base64data, se) := cand in
  if bool_decide (base64data ∈ seen_base64 st)
     || negb ((len base64data <? MAX_BASE64_CHARS) && (30 <? len base64data))
  then st
  else
    let st := {| seen_base64 := {[base64data]} ∪ seen_base64 st;
                 b64_ascii_content := b64_ascii_content st;
                 subsections := subsections st;
                 extracted := extracted st |} in
    if len base64data >? MAX_STRINGDUMP_CHARS then
      let ftype := from_buffer base64data in
      if negb (contains (u "octet-stream") ftype) then st
      else
        let st := {| seen_base64 := seen_base64 st;
                     b64_ascii_content := b64_ascii_content st;
                     subsections := subsections st;
                     extracted := extracted st ++ [(base64data, "_b64_decoded"%string)] |} in
        report st base64data se None
    else
      let asc_b64 := ascii_filter base64data in
      if (distinct asc_b64 <=? 6) || (non_space asc_b64 <=? 14) then st
      else
        let st := {| seen_base64 := seen_base64 st;
                     b64_ascii_content := b64_ascii_content st ++ [asc_b64];
                     subsections := subsections st;
                     extracted := extracted st |} in
        report st base64data se (Some asc_b64).

Definition initial : b64_state :=
  {| seen_base64 := ∅; b64_ascii_content := []; subsections := []; extracted := [] |}.

(** The loop, then the dump of all accepted text under [_b64.txt]. *)
Definition _check_for_b64 (data : pybytes) : b64_state :=
  let st := fold_left visit (find_base64 data) initial in
  if truthy (b64_ascii_content st) then
    {| seen_base64 := seen_base64 st;
       b64_ascii_content := b64_ascii_content st;
       subsections := subsections st;
       extracted := extracted st ++ [(join [nl] (b64_ascii_content st), "_b64.txt"%string)] |}
  else st.

(** *** What the loop keeps *)

Definition size_ok (d : pybytes) : Prop := 30 < len d < 8000000.

(** The branch a payload of admissible size takes it through. *)
Definition worth_reporting (d : pybytes) : Prop :=
  if 500 <? len d
  then contains (u "octet-stream") (from_buffer d) = true
  else 7 <= distinct (ascii_filter d)
       /\ 15 <= non_space (ascii_filter d).

Definition well_reported (st : b64_state) (r : sub_b64_res) : Prop :=
  size_ok (decoded r)
  /\ (500 < len (decoded r) ->
        contains (u "octet-stream") (from_buffer (decoded r)) = true
        /\ dump_section r = None
        /\ (decoded r, "_b64_decoded"%string) ∈ extracted st)
  /\ (len (decoded r) <= 500 ->
        dump_section r = Some (ascii_filter (decoded r))
        /\ 7 <= distinct (ascii_filter (decoded r))
        /\ 15 <= non_space (ascii_filter (decoded r))).

Record loop_inv (done : list (pybytes * (Z * Z))) (st : b64_state) : Prop := {
  inv_reported : forall r, r ∈ subsections st -> well_reported st r;
  inv_seen : forall d, d ∈ seen_base64 st <-> (exists se, (d, se) ∈ done) /\ size_ok d;
  inv_decoded : forall d, d ∈ map decoded (subsections st) <->
                  (exists se, (d, se) ∈ done) /\ size_ok d /\ worth_reporting d;
  inv_nodup : NoDup (map decoded (subsections st));
  inv_extracted : forall x, x ∈ extracted st ->
                    x.2 = "_b64_decoded"%string /\ 500 < len x.1
                    /\ x.1 ∈ map decoded (subsections st)
}.

Lemma fold_left_inv {A B} (f : A -> B -> A) (Inv : list B -> A -> Prop) a0 :
  Inv [] a0 ->
  (forall done a b, Inv done a -> Inv (done ++ [b]) (f a b)) ->
  forall l, Inv l (fold_left f l a0).
Proof.
  intros H0 Hstep l. induction l as [|b l IH] using rev_ind; [exact H0|].
  rewrite fold_left_app. simpl. apply Hstep, IH.
Qed.

Lemma size_ok_test d :
  negb ((len d <? MAX_BASE64_CHARS) && (30 <? len d)) = false <-> size_ok d.
Proof.
  unfold size_ok, MAX_BASE64_CHARS. rewrite negb_false_iff, andb_true_iff.
  rewrite !Z.ltb_lt. tauto.
Qed.

Lemma well_reported_mono st st' r :
  (forall x, x ∈ extracted st -> x ∈ extracted st') ->
  well_reported st r -> well_reported st' r.
Proof.
  intros He (H1 & H2 & H3). split; [exact H1|]. split; [|exact H3].
  intros H. destruct (H2 H) as (? & ? & ?). auto.
Qed.

Lemma done_snoc (done : list (pybytes * (Z * Z))) d0 se0 d :
  (exists se, (d, se) ∈ done ++ [(d0, se0)]) <-> (exists se, (d, se) ∈ done) \/ d = d0.
Proof.
  split.
  - intros (se & [H|H]%elem_of_app); [left; eauto|].
    apply list_elem_of_singleton in H. right. congruence.
  - intros [(se & H)| ->]; [exists se|exists se0]; apply elem_of_app; [left; exact H|].
    right. apply list_elem_of_singleton. reflexivity.
Qed.

Lemma worth_binary d :
  500 < len d -> (worth_reporting d <-> contains (u "octet-stream") (from_buffer d) = true).
Proof. unfold worth_reporting. intros H. destruct (Z.ltb_spec 500 (len d)); [reflexivity|lia]. Qed.

Lemma worth_text d :
  len d <= 500 ->
  (worth_reporting d <->
   7 <= distinct (ascii_filter d)
   /\ 15 <= non_space (ascii_filter d)).
Proof. unfold worth_reporting. intros H. destruct (Z.ltb_spec 500 (len d)); [lia|reflexivity]. Qed.

(** A candidate that is skipped, or remembered without a report. *)
Lemma inv_unreported done st d se seen' :
  loop_inv done st ->
  (forall x, x ∈ seen' <-> x ∈ seen_base64 st \/ (x = d /\ size_ok d)) ->
  (size_ok d -> worth_reporting d -> d ∈ seen_base64 st) ->
  loop_inv (done ++ [(d, se)])
    {| seen_base64 := seen'; b64_ascii_content := b64_ascii_content st;
       subsections := subsections st; extracted := extracted st |}.
Proof.
  intros [I1 I2 I3 I4 I5] Hseen Hworth. split; simpl.
  - intros r Hr. eapply well_reported_mono; [|apply I1, Hr]. auto.
  - intros x. rewrite Hseen, I2, done_snoc. split.
    + intros [[H1 H2]|[-> H]]; auto.
    + intros [[H| ->] H2]; auto.
  - intros x. rewrite I3, done_snoc. split.
    + intros (H1 & H2 & H3). auto.
    + intros ([H| ->] & H2 & H3); [auto|].
      apply I2 in Hworth as [Hd _]; auto.
  - exact I4.
  - exact I5.
Qed.

(** A candidate that is reported. *)
Lemma inv_reported_new done st d se dump content' extracted' :
  loop_inv done st ->
  d ∉ seen_base64 st -> size_ok d -> worth_reporting d ->
  (forall x, x ∈ extracted st -> x ∈ extracted') ->
  (forall x, x ∈ extracted' ->
     x ∈ extracted st \/ (x = (d, "_b64_decoded"%string) /\ 500 < len d)) ->
  (forall st', extracted st' = extracted' ->
     well_reported st' {| decoded := d; run := se; dump_section := dump;
                          tags := ioc_match d |}) ->
  loop_inv (done ++ [(d, se)])
    {| seen_base64 := {[d]} ∪ seen_base64 st; b64_ascii_content := content';
       subsections := subsections st ++
         [{| decoded := d; run := se; dump_section := dump; tags := ioc_match d |}];
       extracted := extracted' |}.
Proof.
  intros [I1 I2 I3 I4 I5] Hnew Hsize Hworth Hext Hext' Hrep. split; simpl.
  - intros r [Hr|Hr]%elem_of_app.
    + eapply well_reported_mono; [|apply I1, Hr]. exact Hext.
    + apply list_elem_of_singleton in Hr as ->. apply Hrep. reflexivity.
  - intros x. rewrite elem_of_union, elem_of_singleton, I2, done_snoc. split.
    + intros [->|[H1 H2]]; auto.
    + intros [[H| ->] H2]; auto.
  - intros x. rewrite map_app, elem_of_app, I3, done_snoc. simpl.
    rewrite list_elem_of_singleton. split.
    + intros [(H1 & H2 & H3)| ->]; auto.
    + intros ([H| ->] & H2 & H3); auto.
  - rewrite map_app. simpl. apply NoDup_app. split; [exact I4|]. split.
    + intros x Hx ->%list_elem_of_singleton. apply Hnew, I2.
      apply I3 in Hx as (H1 & H2 & _). auto.
    + apply NoDup_singleton.
  - intros x Hx. rewrite map_app, elem_of_app.
    apply Hext' in Hx as [Hx|[-> Hbig]].
    + destruct (I5 x Hx) as (H1 & H2 & H3). auto.
    + simpl. repeat split; [exact Hbig|]. right. apply list_elem_of_singleton. reflexivity.
Qed.

Lemma visit_inv done st cand :
  loop_inv done st -> loop_inv (done ++ [cand]) (visit st cand).
Proof.
  intros Hinv. destruct cand as [d se]. unfold visit.
  destruct (bool_decide (d ∈ seen_base64 st)) eqn:Hseen; cbn [orb].
  { apply bool_decide_eq_true in Hseen. destruct st. apply (inv_unreported _ _ _ _ _ Hinv); simpl.
    - intros x. split; [auto|]. intros [H|[-> _]]; assumption.
    - auto. }
  apply bool_decide_eq_false in Hseen.
  destruct (negb _) eqn:Hsz.
  { assert (Hn : ~ size_ok d) by (rewrite <- size_ok_test, Hsz; discriminate).
    destruct st. apply (inv_unreported _ _ _ _ _ Hinv); simpl.
    - intros x. split; [auto|]. intros [H|[_ H]]; [assumption|contradiction].
    - contradiction. }
  apply size_ok_test in Hsz. unfold MAX_STRINGDUMP_CHARS.
  destruct (Z.gtb_spec (len d) 500) as [Hbig|Hsmall].
  - destruct (contains _ _) eqn:Hmime; cbn [negb].
    + apply (inv_reported_new _ _ _ _ _ _ _ Hinv); auto.
      * apply worth_binary; [lia|assumption].
      * intros x Hx. apply elem_of_app. left. exact Hx.
      * intros x [Hx|Hx]%elem_of_app; [left; exact Hx|].
        apply list_elem_of_singleton in Hx. right. split; [exact Hx|lia].
      * intros st' Hst'. split; [exact Hsz|]. simpl. split; [|lia].
        intros _. rewrite Hst'. repeat split; [assumption|].
        apply elem_of_app. right. apply list_elem_of_singleton. reflexivity.
    + apply (inv_unreported _ _ _ _ _ Hinv); simpl.
      * intros x. rewrite elem_of_union, elem_of_singleton. tauto.
      * intros _ Hw. apply worth_binary in Hw; [|lia].
        assert (E : contains (u "octet-stream") (from_buffer d) = false) by exact Hmime.
        congruence.
  - destruct (_ || _) eqn:Hlow.
    + apply (inv_unreported _ _ _ _ _ Hinv); simpl.
      * intros x. rewrite elem_of_union, elem_of_singleton. tauto.
      * intros _ Hw. apply worth_text in Hw; [|lia]. exfalso.
        apply orb_true_iff in Hlow as [H|H]; apply Z.leb_le in H; lia.
    + apply orb_false_iff in Hlow as [H1 H2]. apply Z.leb_gt in H1, H2.
      apply (inv_reported_new _ _ _ _ _ _ _ Hinv); auto.
      * apply worth_text; lia.
      * intros st' _. split; [exact Hsz|]. simpl. split; [lia|].
        intros _. repeat split; lia.
Qed.

Lemma loop_inv_final data :
  loop_inv (find_base64 data) (fold_left visit (find_base64 data) initial).
Proof.
  apply (fold_left_inv visit loop_inv).
  - split; simpl.
    + intros r Hr. apply elem_of_nil in Hr. contradiction.
    + intros d. split; [intros H; apply not_elem_of_empty in H; contradiction|].
      intros [[se H] _]. apply elem_of_nil in H. contradiction.
    + intros d. split; [intros H; apply elem_of_nil in H; contradiction|].
      intros [[se H] _]. apply elem_of_nil in H. contradiction.
    + constructor.
    + intros x H. apply elem_of_nil in H. contradiction.
  - intros done a b. apply visit_inv.
Qed.

(** C7.  A decoded payload gets a result subsection only if its size is
    strictly between 30 and 8,000,000 bytes.  Above 500 bytes it is a
    binary candidate, reported and offered for extraction only when its
    MIME type names octet-stream; up to 500 bytes it is reported with
    its printable-ASCII dump only when the dump has at least 7 distinct
    bytes and at least 15 bytes that are not whitespace.  Each payload
    is reported at most once, every candidate that meets the conditions
    is reported, and nothing else is offered as a decoded file. *)
Theorem base64_candidates_filtered data :
  let st := _check_for_b64 data in
  (forall r, r ∈ subsections st ->
     30 < len (decoded r) < 8000000
     /\ (500 < len (decoded r) ->
           contains (u "octet-stream") (from_buffer (decoded r)) = true
           /\ dump_section r = None
           /\ (decoded r, "_b64_decoded"%string) ∈ extracted st)
     /\ (len (decoded r) <= 500 ->
           dump_section r = Some (ascii_filter (decoded r))
           /\ 7 <= distinct (ascii_filter (decoded r))
           /\ 15 <= non_space (ascii_filter (decoded r))))
  /\ (forall d, d ∈ map decoded (subsections st) <->
        (exists se, (d, se) ∈ find_base64 data)
        /\ 30 < len d < 8000000
        /\ (if 500 <? len d
            then contains (u "octet-stream") (from_buffer d) = true
            else 7 <= distinct (ascii_filter d) /\ 15 <= non_space (ascii_filter d)))
  /\ NoDup (map decoded (subsections st))
  /\ (forall d, (d, "_b64_decoded"%string) ∈ extracted st ->
        500 < len d /\ contains (u "octet-stream") (from_buffer d) = true).
Proof.
  intros st. destruct (loop_inv_final data) as [I1 I2 I3 I4 I5].
  assert (Hsub : subsections st = subsections (fold_left visit (find_base64 data) initial)).
  { unfold st, _check_for_b64. destruct (truthy _); reflexivity. }
  rewrite Hsub. split; [|split; [exact I3|split; [exact I4|]]].
  - intros r Hr. apply I1 in Hr. revert Hr. apply well_reported_mono.
    intros x Hx. unfold st, _check_for_b64. destruct (truthy _); [|exact Hx].
    simpl. apply elem_of_app. left. exact Hx.
  - intros d Hd.
    assert (Hloop : (d, "_b64_decoded"%string)
                    ∈ extracted (fold_left visit (find_base64 data) initial)).
    { revert Hd. unfold st, _check_for_b64. destruct (truthy _); [|auto].
      simpl. intros [H|H]%elem_of_app; [exact H|].
      apply list_elem_of_singleton in H. discriminate H. }
    destruct (I5 _ Hloop) as (_ & Hbig & Hin). simpl in Hbig, Hin.
    split; [exact Hbig|]. apply I3 in Hin as (_ & _ & Hw).
    apply worth_binary in Hw; assumption.
Qed.

End WithCollaborators.

(** A run that decodes to a sentence, a run of one repeated letter, the
    sentence again, and a run that is too short: one report. *)
Example check_for_b64_sample :
  let runs (_ : pybytes) :=
    [(u "The quick brown fox jumps over the lazy dog", (0, 60));
     (u "aaaaaaaaaaaaaaaaaaaaaaaaaaaaaaaaaaaaaaaaaaaaaaaa", (70, 134));
     (u "The quick brown fox jumps over the lazy dog", (200, 260));
     (u "short", (300, 308))] in
  let st := _check_for_b64 runs (fun _ => u "text/plain") (fun _ => []) [] in
  map decoded (subsections st) = [u "The quick brown fox jumps over the lazy dog"]
  /\ extracted st = [(u "The quick brown fox jumps over the lazy dog", "_b64.txt"%string)].
Proof. split; reflexivity. Qed.

End Base64.

(** ** Compiled patterns and [re.match]

    The safelist and the Excel part filter hand pattern strings to
    [re.match].  A pattern is represented here by its compiled form, for
    the fragment of [re] without anchors, look-around and
    back-references; parsing the pattern string is the library's work.
    [re.match] succeeds when some prefix of the text is in the language
    of the pattern: the match is anchored at the start of the text and
    free at its end. *)

Module Regex.

Inductive regex :=
| Void
| Eps
| Lit (c : N)
| Class (p : N -> bool)
| Cat (r1 r2 : regex)
| Alt (r1 r2 : regex)
| Star (r : regex).

Section Matching.
(** How a pattern character compares with a text character: equality,
    or equality up to case under [re.IGNORECASE]. *)
Variable same : N -> N -> bool.

Inductive matches : regex -> pystr -> Prop :=
| M_eps : matches Eps []
| M_lit c x : same c x = true -> matches (Lit c) [x]
| M_class p x : p x = true -> matches (Class p) [x]
| M_cat r1 r2 s1 s2 :
    matches r1 s1 -> matches r2 s2 -> matches (Cat r1 r2) (s1 ++ s2)
| M_alt_l r1 r2 s : matches r1 s -> matches (Alt r1 r2) s
| M_alt_r r1 r2 s : matches r2 s -> matches (Alt r1 r2) s
| M_star_nil r : matches (Star r) []
| M_star_app r s1 s2 :
    matches r s1 -> matches (Star r) s2 -> matches (Star r) (s1 ++ s2).

Fixpoint nullable (r : regex) : bool :=
  match r with
  | Void | Lit _ | Class _ => false
  | Eps | Star _ => true
  | Cat r1 r2 => nullable r1 && nullable r2
  | Alt r1 r2 => nullable r1 || nullable r2
  end.

Fixpoint deriv (x : N) (r : regex) : regex :=
  match r with
  | Void | Eps => Void
  | Lit c => if same c x then Eps else Void
  | Class p => if p x then Eps else Void
  | Cat r1 r2 =>
    if nullable r1
    then Alt (Cat (deriv x r1) r2) (deriv x r2)
    else Cat (deriv x r1) r2
  | Alt r1 r2 => Alt (deriv x r1) (deriv x r2)
  | Star r => Cat (deriv x r) (Star r)
  end.

(** [re.match(r, s)] as a truth value. *)
Fixpoint match_prefix (r : regex) (s : pystr) : bool :=
  nullable r ||
  match s with
  | [] => false
  | x :: t => match_prefix (deriv x r) t
  end.

(** [re.search(r, s)] as a truth value: a match may start anywhere. *)
Fixpoint search (r : regex) (s : pystr) : bool :=
  match_prefix r s ||
  match s with
  | [] => false
  | _ :: t => search r t
  end.

Lemma cat_inv r1 r2 s :
  matches (Cat r1 r2) s ->
  exists s1 s2, s = s1 ++ s2 /\ matches r1 s1 /\ matches r2 s2.
Proof. intros H. inversion H; subst. eauto. Qed.

Lemma alt_inv r1 r2 s : matches (Alt r1 r2) s -> matches r1 s \/ matches r2 s.
Proof. intros H. inversion H; subst; auto. Qed.

Lemma nullable_spec r : nullable r = true <-> matches r [].
Proof.
  induction r as [| | c | p | r1 IH1 r2 IH2 | r1 IH1 r2 IH2 | r IH]; simpl.
  - split; [discriminate|]. intros H. inversion H.
  - split; [constructor|reflexivity].
  - split; [discriminate|]. intros H. inversion H.
  - split; [discriminate|]. intros H. inversion H.
  - rewrite andb_true_iff, IH1, IH2. split.
    + intros [H1 H2]. apply (M_cat _ _ [] [] H1 H2).
    + intros (s1 & s2 & E & H1 & H2)%cat_inv. symmetry in E.
      apply app_eq_nil in E as [-> ->]. auto.
  - rewrite orb_true_iff, IH1, IH2. split.
    + intros [H|H]; [apply M_alt_l|apply M_alt_r]; exact H.
    + apply alt_inv.
  - split; [constructor|reflexivity].
Qed.

Lemma star_cons r x s :
  matches (Star r) (x :: s) ->
  exists s1 s2, s = s1 ++ s2 /\ matches r (x :: s1) /\ matches (Star r) s2.
Proof.
  intros H. remember (Star r) as r' eqn:Er. remember (x :: s) as t eqn:Et.
  revert s Et. induction H as [| | | | | | |r0 s1 s2 H1 _ H2 IH2]; try discriminate.
  injection Er as ->. intros s Et. destruct s1 as [|y s1].
  - simpl in Et. apply IH2; [reflexivity|exact Et].
  - injection Et as -> <-. exists s1, s2. auto.
Qed.

Lemma deriv_spec x r s : matches (deriv x r) s <-> matches r (x :: s).
Proof.
  revert s. induction r as [| | c | p | r1 IH1 r2 IH2 | r1 IH1 r2 IH2 | r IH]; intros s; simpl.
  - split; intros H; inversion H.
  - split; intros H; inversion H.
  - destruct (same c x) eqn:E; split; intros H; inversion H; subst.
    + constructor. exact E.
    + constructor.
    + congruence.
  - destruct (p x) eqn:E; split; intros H; inversion H; subst.
    + constructor. exact E.
    + constructor.
    + congruence.
  - assert (Hcat : matches (Cat (deriv x r1) r2) s ->  matches (Cat r1 r2) (x :: s)).
    { intros (s1 & s2 & -> & H1 & H2)%cat_inv.
      apply IH1 in H1. apply (M_cat _ _ (x :: s1) s2 H1 H2). }
    assert (Hinv : matches (Cat r1 r2) (x :: s) ->
                   matches (Cat (deriv x r1) r2) s
                   \/ (matches r1 [] /\ matches r2 (x :: s))).
    { intros (s1 & s2 & E & H1 & H2)%cat_inv.
      destruct s1 as [|y s1]; simpl in E.
      - right. subst. auto.
      - injection E as <- ->. left. constructor; [apply IH1; exact H1|exact H2]. }
    destruct (nullable r1) eqn:En; split.
    + intros [H|H]%alt_inv; [auto|].
      apply nullable_spec in En. apply (M_cat _ _ [] (x :: s) En). apply IH2. assumption.
    + intros [H|[_ H]]%Hinv; [apply M_alt_l; exact H|apply M_alt_r, IH2, H].
    + exact Hcat.
    + intros [H|[H _]]%Hinv; [exact H|]. apply nullable_spec in H. congruence.
  - split.
    + intros [H|H]%alt_inv; [apply M_alt_l, IH1|apply M_alt_r, IH2]; exact H.
    + intros [H|H]%alt_inv; [apply M_alt_l, IH1|apply M_alt_r, IH2]; exact H.
  - split.
    + intros (s1 & s2 & -> & H1 & H2)%cat_inv.
      apply IH in H1. apply (M_star_app _ (x :: s1) s2 H1 H2).
    + intros (s1 & s2 & -> & H1 & H2)%star_cons. constructor; [apply IH; exact H1|exact H2].
Qed.

(** [re.match] finds a match exactly when a prefix of the text is in
    the language of the pattern. *)
Lemma match_prefix_spec r s :
  match_prefix r s = true <-> exists p q, s = p ++ q /\ matches r p.
Proof.
  revert r. induction s as [|x t IH]; intros r; simpl.
  - rewrite orb_false_r, nullable_spec. split.
    + intros H. exists [], []. auto.
    + intros (p & q & E & H). symmetry in E. apply app_eq_nil in E as [-> ->]. exact H.
  - rewrite orb_true_iff, nullable_spec, IH. split.
    + intros [H|(p & q & -> & H)].
      * exists [], (x :: t). auto.
      * exists (x :: p), q. split; [reflexivity|]. apply deriv_spec. exact H.
    + intros (p & q & E & H). destruct p as [|y p]; [left; exact H|].
      injection E as -> ->. right. exists p, q. split; [reflexivity|].
      apply deriv_spec. exact H.
Qed.

(** [re.search] finds a match exactly when some factor of the text is in
    the language of the pattern. *)
Lemma search_spec r s :
  search r s = true <-> exists a p q, s = a ++ p ++ q /\ matches r p.
Proof.
  induction s as [|x t IH]; cbn [search].
  - rewrite orb_false_r, match_prefix_spec. split.
    + intros (p & q & E & H). exists [], p, q. auto.
    + intros (a & p & q & E & H). symmetry in E.
      apply app_eq_nil in E as [-> [-> ->]%app_eq_nil]. exists [], []. auto.
  - rewrite orb_true_iff, IH, match_prefix_spec. split.
    + intros [(p & q & E & H)|(a & p & q & -> & H)].
      * exists [], p, q. auto.
      * exists (x :: a), p, q. auto.
    + intros (a & p & q & E & H). destruct a as [|y a].
      * left. exists p, q. auto.
      * injection E as -> ->. right. exists a, p, q. auto.
Qed.

End Matching.

End Regex.

(** ** Safelist filter (the module-level functions) *)

Module Safelist.

Section WithText.
(** [str.lower] *)
Variable str_lower : pystr -> pystr.
(** Comparison of a pattern character with a text character under
    [re.IGNORECASE]. *)
Variable same_ic : N -> N -> bool.

(** [any(match.lower() == tag.lower() for match in matches)] *)
Definition tag_contains_match (tag : pystr) (matches : list pystr) : bool :=
  existsb (fun m => bool_decide (str_lower m = str_lower tag)) matches.

(** [any(re.match(regex, tag, re.IGNORECASE) for regex in regexes)] *)
Definition regex_matches_tag (tag : pystr) (regexes : list Regex.regex) : bool :=
  existsb (fun regex => Regex.match_prefix same_ic regex tag) regexes.

Definition is_safelisted (tag_type : string) (tag : pystr)
    (safelist_matches : gmap string (list pystr))
    (safelist_regexes : gmap string (list Regex.regex)) : bool :=
  tag_contains_match tag (default [] (safelist_matches !! tag_type))
  || regex_matches_tag tag (default [] (safelist_regexes !! tag_type)).

(** The predicate as the specification words it: a pattern may match
    anywhere in the value ("unanchored at the start"). *)
Definition spec_is_safelisted (tag_type : string) (tag : pystr)
    (safelist_matches : gmap string (list pystr))
    (safelist_regexes : gmap string (list Regex.regex)) : bool :=
  tag_contains_match tag (default [] (safelist_matches !! tag_type))
  || existsb (fun regex => Regex.search same_ic regex tag)
       (default [] (safelist_regexes !! tag_type)).

Lemma existsb_elem {A} (f : A -> bool) l :
  existsb f l = true <-> exists x, x ∈ l /\ f x = true.
Proof.
  rewrite existsb_exists. split; intros (x & H1 & H2); exists x; split; auto;
    apply list_elem_of_In; exact H1.
Qed.

(** C5 (amended).  A value is safelisted exactly when it equals, up to
    case, one of the literal strings registered for its tag type, or some
    prefix of it matches, up to case, one of the patterns registered for
    its tag type: the pattern match is anchored at the start of the value
    and free at its end. *)
Theorem is_safelisted_iff tag_type tag safelist_matches safelist_regexes :
  is_safelisted tag_type tag safelist_matches safelist_regexes = true <->
  (exists m, m ∈ default [] (safelist_matches !! tag_type)
             /\ str_lower m = str_lower tag)
  \/ (exists regex, regex ∈ default [] (safelist_regexes !! tag_type)
        /\ exists p q, tag = p ++ q /\ Regex.matches same_ic regex p).
Proof.
  unfold is_safelisted, tag_contains_match, regex_matches_tag.
  rewrite orb_true_iff, !existsb_elem. split.
  - intros [(m & H1 & H2)|(r & H1 & H2)].
    + left. exists m. split; [exact H1|]. apply bool_decide_eq_true in H2. exact H2.
    + right. exists r. split; [exact H1|]. apply Regex.match_prefix_spec. exact H2.
  - intros [(m & H1 & H2)|(r & H1 & H2)].
    + left. exists m. split; [exact H1|]. apply bool_decide_eq_true. exact H2.
    + right. exists r. split; [exact H1|]. apply Regex.match_prefix_spec. exact H2.
Qed.

End WithText.

(** Case folding of ASCII text, for examples over ASCII values. *)
Definition ascii_same (a b : N) : bool :=
  (ascii_lower_chr a =? ascii_lower_chr b)%N.

(** C5, as stated: the pattern [b] occurs in the value [ab], after its
    first character, so a match that is free at the start would safelist
    the value.  [re.match] does not. *)
Lemma is_safelisted_anchored_at_start :
  let regexes : gmap string (list Regex.regex) :=
    {[ "network.static.domain"%string := [Regex.Lit 98%N] ]} in
  is_safelisted ascii_lower ascii_same "network.static.domain" (u "ab") ∅ regexes = false
  /\ spec_is_safelisted ascii_lower ascii_same "network.static.domain" (u "ab") ∅ regexes = true
  /\ u "ab" = u "a" ++ u "b" ++ []
  /\ Regex.matches ascii_same (Regex.Lit 98%N) (u "b").
Proof.
  repeat split; try reflexivity. apply Regex.M_lit. reflexivity.
Qed.

End Safelist.

(** ** IOC pattern filter ([Oletools._check_for_patterns]) *)

Module Patterns.

Definition TAG_SAFELIST : list pystr := [u "management"; u "manager"; u "microsoft.com"].

Definition URI_SAFELIST : list pystr :=
  [u "http://purl.org/"; u "http://xml.org/"; u ".openxmlformats.org";
   u ".oasis-open.org"; u ".xmlsoap.org"; u ".microsoft.com"; u ".w3.org";
   u ".gc.ca"; u ".mil.ca"; u "dublincore.org"].

Definition PAT_ENDS : list pybytes :=
  [u "themeManager.xml"; u "MSO.DLL"; u "stdole2.tlb"; u "vbaProject.bin";
   u "VBE6.DLL"; u "VBE7.DLL"].

Definition BLACKLIST_IGNORE : list pybytes :=
  [u "connect"; u "protect"; u "background"; u "enterprise"; u "account";
   u "waiting"; u "request"].

Definition FILES_OF_INTEREST : list pybytes :=
  [u ".APK"; u ".APP"; u ".BAT"; u ".BIN"; u ".CLASS"; u ".CMD"; u ".DAT";
   u ".DLL"; u ".EPS"; u ".EXE"; u ".JAR"; u ".JS"; u ".JSE"; u ".LNK";
   u ".MSI"; u ".OSX"; u ".PAF"; u ".PS1"; u ".RAR"; u ".SCR"; u ".SCT";
   u ".SWF"; u ".SYS"; u ".TMP"; u ".VBE"; u ".VBS"; u ".WSF"; u ".WSH";
   u ".ZIP"].

(** [rb"(sheet|printerSettings|queryTable|binaryIndex|table)\d{1,12}\.bin"] *)
Definition word (s : string) : Regex.regex :=
  foldr (fun c r => Regex.Cat (Regex.Lit c) r) Regex.Eps (u s).

Definition ascii_digit : Regex.regex :=
  Regex.Class (fun c => (48 <=? c) && (c <=? 57))%N.

Fixpoint up_to (n : nat) (r : Regex.regex) : Regex.regex :=
  match n with
  | O => Regex.Eps
  | S k => Regex.Alt (Regex.Cat r (up_to k r)) Regex.Eps
  end.

Definition EXCEL_BIN_RE : Regex.regex :=
  Regex.Cat
    (Regex.Alt (word "sheet")
       (Regex.Alt (word "printerSettings")
          (Regex.Alt (word "queryTable")
             (Regex.Alt (word "binaryIndex") (word "table")))))
    (Regex.Cat (Regex.Cat ascii_digit (up_to 11 ascii_digit)) (word ".bin")).

(** [bytes.upper] *)
Definition ascii_upper_chr (c : N) : N :=
  if ((97 <=? c) && (c <=? 122))%N then (c - 32)%N else c.

(** [p.rfind(c)]: the last index of [c], or [-1]. *)
Fixpoint rfind_from (c : N) (l : pybytes) (i acc : Z) : Z :=
  match l with
  | [] => acc
  | x :: t => rfind_from c t (i + 1) (if (x =? c)%N then i else acc)
  end.

Definition rfind (c : N) (l : pybytes) : Z := rfind_from c l 0 (-1).

(** [p[a:b]] for [0 <= a]. *)
Definition slice (a b : Z) (p : pybytes) : pybytes :=
  take (Z.to_nat (b - a)) (drop (Z.to_nat a) p).

(** [os.path.splitext] on a POSIX path: the extension starts at the last
    dot of the last component, unless that component has only leading
    dots before it. *)
Definition splitext (p : pybytes) : pybytes * pybytes :=
  let sepIndex := rfind 47%N p in
  let dotIndex := rfind 46%N p in
  if (dotIndex >? sepIndex)
     && existsb (fun x => negb (x =? 46)%N) (slice (sepIndex + 1) dotIndex p)
  then (take (Z.to_nat dotIndex) p, drop (Z.to_nat dotIndex) p)
  else (p, []).

Definition is_in (x : pybytes) (l : list pybytes) : bool := bool_decide (x ∈ l).

(** What [execute] assigns to [self.pat_safelist] and
    [self.tag_safelist]: the built-in lists, extended by the configured
    ones unless the request is a deep scan. *)
Definition scan_safelists (deep_scan : bool)
    (ioc_pattern_safelist ioc_exact_safelist : list pystr)
  : list pystr * list pystr :=
  if deep_scan then (URI_SAFELIST, TAG_SAFELIST)
  else (URI_SAFELIST ++ ioc_pattern_safelist, TAG_SAFELIST ++ ioc_exact_safelist).

Section Service.
Variable str_lower : pystr -> pystr.
Variable same_ic : N -> N -> bool.
(** [assemblyline.common.str_utils.safe_str] *)
Variable safe_str : pybytes -> pystr.
(** [self.patterns.ioc_match(data, bogon_ip=True)]: the items of the
    dictionary it returns. *)
Variable ioc_match : pybytes -> list (string * list pybytes).
(** [self.pat_safelist], [self.tag_safelist]: set by [execute] for each
    request, see [scan_safelists] below. *)
Variable pat_safelist : list pystr.
Variable tag_safelist : list pystr.
(** [self.match_safelist], [self.regex_safelist] *)
Variable match_safelist : gmap string (list pystr).
Variable regex_safelist : gmap string (list Regex.regex).

(** The method [Oletools.is_safelisted]. *)
Definition is_safelisted (tag_type : string) (tag : pystr) : bool :=
  existsb (fun s => contains s tag) pat_safelist
  || bool_decide (str_lower tag ∈ tag_safelist)
  || Safelist.is_safelisted str_lower same_ic tag_type tag match_safelist regex_safelist.

Definition _decide_extract (ty : string) (val : pybytes) (basic_only : bool) : bool :=
  if bool_decide (ty = "file.name.extracted"%string)
     && (startswith (u "oleObject") val
         || (let ext := (splitext val).2 in
             truthy ext && negb (is_in (map ascii_upper_chr ext) FILES_OF_INTEREST)))
  then false
  else
    negb
      ((bool_decide (ty = "file.string.blacklisted"%string) && bool_decide (val = u "http"))
       || (negb basic_only
           && (bool_decide (ty = "network.email.address"%string)
               || (bool_decide (ty = "file.string.api"%string)
                   && bool_decide (ascii_lower val = u "connect"))
               || (bool_decide (ty = "file.string.blacklisted"%string)
                   && is_in (ascii_lower val) BLACKLIST_IGNORE)))).

(** The two [continue] tests of the inner loop. *)
Definition skipped (include_fpos : bool) (tag_type : string) (ioc : pybytes) : bool :=
  (existsb (fun e => endswith e ioc) PAT_ENDS || is_safelisted tag_type (safe_str ioc))
  || (negb include_fpos
      && bool_decide (tag_type = "file.name.extracted"%string)
      && Regex.match_prefix N.eqb EXCEL_BIN_RE ioc).

Definition visit_ioc (include_fpos : bool) (tag_type : string)
    (acc : gmap string (gset (list N)) * bool) (ioc : pybytes)
  : gmap string (gset (list N)) * bool :=
  let '(found_tags, extract) := acc in
  if existsb (fun e => endswith e ioc) PAT_ENDS || is_safelisted tag_type (safe_str ioc)
  then acc
  else if negb include_fpos
          && bool_decide (tag_type = "file.name.extracted"%string)
          && Regex.match_prefix N.eqb EXCEL_BIN_RE ioc
  then acc
  else (<[tag_type := {[ioc]} ∪ found_tags !!! tag_type]> found_tags,
        extract || _decide_extract tag_type ioc include_fpos).

Definition _check_for_patterns (data : pybytes) (include_fpos : bool)
  : gmap string (gset (list N)) * bool :=
  fold_left
    (fun acc '(tag_type, iocs) => fold_left (visit_ioc include_fpos tag_type) iocs acc)
    (ioc_match data) (∅, false).

(** *** What the loops collect *)

Lemma visit_ioc_tags include_fpos tag_type acc ioc ty v :
  v ∈ (visit_ioc include_fpos tag_type acc ioc).1 !!! ty <->
  v ∈ acc.1 !!! ty
  \/ (ty = tag_type /\ v = ioc /\ skipped include_fpos tag_type ioc = false).
Proof.
  destruct acc as [found extract]. unfold visit_ioc, skipped.
  destruct (_ || is_safelisted tag_type (safe_str ioc)); cbn [orb fst].
  { split; [auto|]. intros [H|(_ & _ & H)]; [exact H|discriminate]. }
  destruct (negb include_fpos && _ && _); cbn [fst].
  { split; [auto|]. intros [H|(_ & _ & H)]; [exact H|discriminate]. }
  destruct (decide (ty = tag_type)) as [->|Hne].
  - rewrite lookup_total_insert_eq, elem_of_union, elem_of_singleton. split.
    + intros [->|H]; auto.
    + intros [H|(_ & -> & _)]; auto.
  - rewrite lookup_total_insert_ne by congruence. split; [auto|].
    intros [H|(H & _)]; [exact H|contradiction].
Qed.

Lemma inner_loop_tags include_fpos tag_type iocs acc ty v :
  v ∈ (fold_left (visit_ioc include_fpos tag_type) iocs acc).1 !!! ty <->
  v ∈ acc.1 !!! ty
  \/ (ty = tag_type /\ v ∈ iocs /\ skipped include_fpos tag_type v = false).
Proof.
  revert acc. induction iocs as [|ioc iocs IH]; intros acc; simpl.
  - split; [auto|]. intros [H|(_ & H & _)]; [exact H|]. apply elem_of_nil in H. contradiction.
  - rewrite IH, visit_ioc_tags, elem_of_cons. split.
    + intros [[H|(H1 & -> & H3)]|(H1 & H2 & H3)]; auto.
    + intros [H|(H1 & [->|H2] & H3)]; auto.
Qed.

Lemma outer_loop_tags include_fpos items acc ty v :
  v ∈ (fold_left
         (fun acc '(tag_type, iocs) => fold_left (visit_ioc include_fpos tag_type) iocs acc)
         items acc).1 !!! ty <->
  v ∈ acc.1 !!! ty
  \/ (exists iocs, (ty, iocs) ∈ items /\ v ∈ iocs /\ skipped include_fpos ty v = false).
Proof.
  revert acc. induction items as [|[tag_type iocs] items IH]; intros acc; simpl.
  - split; [auto|]. intros [H|(iocs & H & _)]; [exact H|]. apply elem_of_nil in H. contradiction.
  - rewrite IH, inner_loop_tags. split.
    + intros [[H|(-> & H2 & H3)]|(iocs' & H1 & H2 & H3)]; [auto| |].
      * right. exists iocs. split; [left|auto].
      * right. exists iocs'. split; [right; exact H1|auto].
    + intros [H|(iocs' & [[= <- <-]|H1]%elem_of_cons & H2 & H3)]; [auto| |].
      * left. right. auto.
      * right. exists iocs'. auto.
Qed.

(** A value is in the tag bag exactly when the pattern library found it
    and neither [continue] test skipped it. *)
Lemma check_for_patterns_tags data include_fpos ty v :
  v ∈ (_check_for_patterns data include_fpos).1 !!! ty <->
  exists iocs, (ty, iocs) ∈ ioc_match data /\ v ∈ iocs
               /\ skipped include_fpos ty v = false.
Proof.
  unfold _check_for_patterns. rewrite outer_loop_tags. cbn [fst].
  rewrite lookup_total_empty. split; [|auto].
  intros [H|H]; [|exact H]. apply not_elem_of_empty in H. contradiction.
Qed.

End Service.

(** [table.setdefault(tag_type, []).append(entry)] *)
Definition add_entry {A} (tag_type : string) (entry : A) (table : gmap string (list A))
  : gmap string (list A) :=
  <[tag_type := default [] (table !! tag_type) ++ [entry]]> table.

Lemma add_entry_grows {A} tag_type (entry : A) table ty x :
  x ∈ default [] (table !! ty) -> x ∈ default [] (add_entry tag_type entry table !! ty).
Proof.
  unfold add_entry. intros H. destruct (decide (tag_type = ty)) as [->|Hne].
  - rewrite lookup_insert_eq. simpl. apply elem_of_app. left. exact H.
  - rewrite lookup_insert_ne by exact Hne. exact H.
Qed.

Section Monotone.
Variable str_lower : pystr -> pystr.
Variable same_ic : N -> N -> bool.
Variable safe_str : pybytes -> pystr.
Variable ioc_match : pybytes -> list (string * list pybytes).
Variable pat_safelist : list pystr.
Variable tag_safelist : list pystr.

Lemma is_safelisted_grows (M M' : gmap string (list pystr))
    (R R' : gmap string (list Regex.regex)) tag_type tag :
  (forall ty x, x ∈ default [] (M !! ty) -> x ∈ default [] (M' !! ty)) ->
  (forall ty x, x ∈ default [] (R !! ty) -> x ∈ default [] (R' !! ty)) ->
  is_safelisted str_lower same_ic pat_safelist tag_safelist M R tag_type tag = true ->
  is_safelisted str_lower same_ic pat_safelist tag_safelist M' R' tag_type tag = true.
Proof.
  intros HM HR. unfold is_safelisted. rewrite !orb_true_iff.
  intros [H|H]; [left; exact H|right].
  revert H. unfold Safelist.is_safelisted, Safelist.tag_contains_match,
    Safelist.regex_matches_tag.
  rewrite !orb_true_iff, !Safelist.existsb_elem.
  intros [(m & H1 & H2)|(r & H1 & H2)]; [left; exists m|right; exists r]; auto.
Qed.

(** The tag bag of the pattern match under given safelist tables. *)
Definition tags_under (match_safelist : gmap string (list pystr))
    (regex_safelist : gmap string (list Regex.regex))
    (data : pybytes) (include_fpos : bool) : gmap string (gset (list N)) :=
  (_check_for_patterns str_lower same_ic safe_str ioc_match pat_safelist tag_safelist
     match_safelist regex_safelist data include_fpos).1.

Lemma tags_shrink (M M' : gmap string (list pystr))
    (R R' : gmap string (list Regex.regex)) data include_fpos ty v :
  (forall ty x, x ∈ default [] (M !! ty) -> x ∈ default [] (M' !! ty)) ->
  (forall ty x, x ∈ default [] (R !! ty) -> x ∈ default [] (R' !! ty)) ->
  v ∈ tags_under M' R' data include_fpos !!! ty ->
  v ∈ tags_under M R data include_fpos !!! ty.
Proof.
  intros HM HR. unfold tags_under. rewrite !check_for_patterns_tags.
  intros (iocs & H1 & H2 & H3). exists iocs. split; [exact H1|]. split; [exact H2|].
  unfold skipped in *.
  destruct (existsb (fun e => endswith e v) PAT_ENDS); [discriminate|]. cbn [orb] in *.
  apply orb_false_iff in H3 as [H3 H4]. apply orb_false_iff. split; [|exact H4].
  destruct (is_safelisted str_lower same_ic pat_safelist tag_safelist M R ty (safe_str v))
    eqn:E; [|reflexivity].
  rewrite (is_safelisted_grows _ _ _ _ _ _ HM HR E) in H3. discriminate.
Qed.

(** C6.  After one entry is added to the exact-match table or to the
    pattern table of the safelist, every value the pattern match returns
    for a tag type was already returned for that tag type before the
    addition. *)
Theorem safelisting_monotonic (match_safelist : gmap string (list pystr))
    (regex_safelist : gmap string (list Regex.regex))
    data include_fpos tag_type literal pattern ty v :
  (v ∈ tags_under (add_entry tag_type literal match_safelist) regex_safelist
         data include_fpos !!! ty
   -> v ∈ tags_under match_safelist regex_safelist data include_fpos !!! ty)
  /\ (v ∈ tags_under match_safelist (add_entry tag_type pattern regex_safelist)
            data include_fpos !!! ty
      -> v ∈ tags_under match_safelist regex_safelist data include_fpos !!! ty).
Proof.
  split; apply tags_shrink; auto using add_entry_grows.
Qed.

End Monotone.

(** A domain, a Microsoft host, a numbered Excel part, an executable
    and the VBA project: the domain and the executable are kept, and
    adding the domain to the exact-match table removes it. *)
Example check_for_patterns_sample :
  let found (_ : pybytes) :=
    [("network.static.domain"%string, [u "evil.example"; u "www.microsoft.com"]);
     ("file.name.extracted"%string, [u "sheet12.bin"; u "payload.exe"; u "vbaProject.bin"])] in
  let check M :=
    _check_for_patterns ascii_lower Safelist.ascii_same (fun b => b) found
      URI_SAFELIST TAG_SAFELIST M ∅ [] false in
  elements ((check ∅).1 !!! "network.static.domain"%string) = [u "evil.example"]
  /\ elements ((check ∅).1 !!! "file.name.extracted"%string) = [u "payload.exe"]
  /\ (check ∅).2 = true
  /\ elements ((check (add_entry "network.static.domain" (u "EVIL.example") ∅)).1
               !!! "network.static.domain"%string) = [].
Proof. repeat split; vm_compute; reflexivity. Qed.

End Patterns.

(** ** Macro randomness scorer ([Oletools._flag_macro]) *)

Module MacroScore.

Inductive exn := ZeroDivisionError | IndexError.

(** [a / b] with an integer divisor: the quotient, a float in the
    source and a rational here, or [ZeroDivisionError]. *)
Definition true_div (a : Q) (b : Z) : outcome exn Q :=
  if b =? 0 then Raised ZeroDivisionError else Returned (a / inject_Z b)%Q.

Definition MACRO_SKIP_WORDS : list pystr :=
  [u "var"; u "unescape"; u "exec"; u "for"; u "while"; u "array"; u "object";
   u "length"; u "len"; u "substr"; u "substring"; u "new"; u "unicode";
   u "name"; u "base"; u "dim"; u "set"; u "public"; u "end"; u "getobject";
   u "createobject"; u "content"; u "regexp"; u "date"; u "false"; u "true";
   u "break"; u "continue"; u "ubound"; u "none"; u "undefined";
   u "activexobject"; u "document"; u "attribute"; u "shell"; u "thisdocument";
   u "rem"; u "string"; u "byte"; u "integer"; u "int"; u "function"; u "text";
   u "next"; u "private"; u "click"; u "change"; u "createtextfile";
   u "savetofile"; u "responsebody"; u "opentextfile"; u "resume"; u "open";
   u "environment"; u "write"; u "close"; u "error"; u "else"; u "number";
   u "chr"; u "sub"; u "loop"].

(** [a-z] *)
Definition is_az (c : N) : bool := ((97 <=? c) && (c <=? 122))%N.

(** The run of letters read so far, when it ends. *)
Definition flush (cur : pystr) : list pystr :=
  if (3 <=? length cur)%nat then [rev cur] else [].

(** [re.finditer(r"[a-z]{3,}", text)]: the maximal runs of lower-case
    ASCII letters that are at least three long, in order.  [cur] holds
    the current run, last letter first. *)
Fixpoint words_from (cur : pystr) (s : pystr) : list pystr :=
  match s with
  | [] => flush cur
  | c :: t =>
    if is_az c then words_from (c :: cur) t
    else flush cur ++ words_from [] t
  end.

Definition finditer_words (text : pystr) : list pystr := words_from [] text.

Record totals := { score : Q; word_count : Z; byte_count : Z }.

Section WithConfig.
Variable str_lower : pystr -> pystr.
(** [self.word_chains]: the table loaded from [chains.json.gz]. *)
Variable word_chains : gmap (list N) (gset (list N)).
Variable macro_score_max_size : option Z.
Variable macro_score_min_alert : Q.

(** The loop [for i in range(1, len(word) - 1)], on [word[1:]]. *)
Fixpoint count_trigraphs (prefix : N) (w : pystr) : Z :=
  match w with
  | a :: (b :: _) as t =>
    (if bool_decide ([a; b] ∈ default ∅ (word_chains !! [prefix])) then 1 else 0)
    + count_trigraphs a t
  | _ => 0
  end.

(** The body of the loop over the words. *)
Definition visit_word (acc : totals) (word : pystr) : outcome exn totals :=
  let word_count := word_count acc + 1 in
  let byte_count := byte_count acc + len word in
  if bool_decide (word ∈ MACRO_SKIP_WORDS) then
    Returned {| score := score acc; word_count := word_count; byte_count := byte_count |}
  else
    match word with
    | [] => Raised IndexError
    | prefix :: rest =>
      let tri_count := count_trigraphs prefix rest in
      bind (true_div (inject_Z tri_count) (len word - 2)) (fun q =>
      Returned {| score := (score acc + q)%Q; word_count := word_count;
                  byte_count := byte_count |})
    end.

Fixpoint visit_words (acc : totals) (words : list pystr) : outcome exn totals :=
  match words with
  | [] => Returned acc
  | w :: rest => bind (visit_word acc w) (fun acc' => visit_words acc' rest)
  end.

Definition too_large (macro_text : pystr) : bool :=
  match macro_score_max_size with
  | Some m => len macro_text >? m
  | None => false
  end.

Definition _flag_macro (macro_text : pystr) : outcome exn bool :=
  if too_large macro_text then Returned false
  else
    let macro_text := str_lower macro_text in
    bind (visit_words {| score := 0; word_count := 0; byte_count := 0 |}
            (finditer_words macro_text)) (fun t =>
    if (byte_count t <? 128) || (word_count t <? 32) then Returned false
    else
      bind (true_div (score t) (word_count t)) (fun r =>
      Returned (negb (Qle_bool macro_score_min_alert r)))).

(** *** The divisors *)

Lemma flush_long cur w : w ∈ flush cur -> (3 <= length w)%nat.
Proof.
  unfold flush. destruct (Nat.leb_spec 3 (length cur)) as [H|H].
  - intros ->%list_elem_of_singleton. rewrite length_rev. exact H.
  - intros Hw. apply elem_of_nil in Hw. contradiction.
Qed.

Lemma words_from_long cur s w : w ∈ words_from cur s -> (3 <= length w)%nat.
Proof.
  revert cur. induction s as [|c t IH]; intros cur; simpl.
  - apply flush_long.
  - destruct (is_az c); [apply IH|].
    intros [H|H]%elem_of_app; [exact (flush_long _ _ H)|exact (IH _ H)].
Qed.

Lemma true_div_returns a b : b <> 0 -> true_div a b = Returned (a / inject_Z b)%Q.
Proof. intros H. unfold true_div. destruct (Z.eqb_spec b 0); [contradiction|reflexivity]. Qed.

Lemma visit_word_returns acc w :
  (3 <= length w)%nat ->
  exists acc', visit_word acc w = Returned acc'
               /\ word_count acc' = word_count acc + 1.
Proof.
  intros H. unfold visit_word. destruct (bool_decide _); [eexists; split; reflexivity|].
  destruct w as [|prefix rest]; [simpl in H; lia|].
  rewrite true_div_returns by (unfold len; lia). simpl. eexists; split; reflexivity.
Qed.

Lemma visit_words_returns acc ws :
  (forall w, w ∈ ws -> (3 <= length w)%nat) ->
  exists t, visit_words acc ws = Returned t
            /\ word_count t = word_count acc + len ws.
Proof.
  revert acc. induction ws as [|w ws IH]; intros acc H; simpl.
  - exists acc. split; [reflexivity|]. unfold len. simpl. lia.
  - destruct (visit_word_returns acc w) as (acc' & -> & Hc); [apply H; left|].
    simpl. destruct (IH acc') as (t & -> & Ht); [intros w' Hw'; apply H; right; exact Hw'|].
    exists t. split; [reflexivity|]. rewrite Ht, Hc. unfold len. simpl. lia.
Qed.

(** C10.  [_flag_macro] returns on every text: no division in it has a
    zero divisor.  Every word that is scored has at least three letters,
    so [len(word) - 2] is at least 1; and the loop over the words ends
    with totals for which either the guard returns [False] before the
    last division, or the word count that divides is at least 32. *)
Theorem flag_macro_never_divides_by_zero macro_text :
  (exists flagged, _flag_macro macro_text = Returned flagged)
  /\ (forall word, word ∈ finditer_words (str_lower macro_text) -> 1 <= len word - 2)
  /\ (exists t,
        visit_words {| score := 0; word_count := 0; byte_count := 0 |}
          (finditer_words (str_lower macro_text)) = Returned t
        /\ (_flag_macro macro_text = Returned false \/ 32 <= word_count t)).
Proof.
  assert (Hlong : forall w, w ∈ finditer_words (str_lower macro_text) -> (3 <= length w)%nat).
  { intros w. apply words_from_long. }
  destruct (visit_words_returns {| score := 0; word_count := 0; byte_count := 0 |}
              _ Hlong) as (t & Ht & Hc).
  assert (Hflag : (exists flagged, _flag_macro macro_text = Returned flagged)
                  /\ (_flag_macro macro_text = Returned false \/ 32 <= word_count t)).
  { unfold _flag_macro. destruct (too_large macro_text); [split; eauto|].
    rewrite Ht. cbn [bind].
    destruct (byte_count t <? 128); [split; eauto|]. cbn [orb].
    destruct (Z.ltb_spec (word_count t) 32); [split; eauto|].
    rewrite true_div_returns by lia. cbn [bind]. split; eauto. }
  destruct Hflag as [H1 H2]. split; [exact H1|]. split.
  - intros w Hw. apply Hlong in Hw. unfold len. lia.
  - exists t. auto.
Qed.

End WithConfig.

Example finditer_words_sample :
  finditer_words (u "sub autoopen() qzxv = shell(jk) ab abc1abcd")
  = [u "sub"; u "autoopen"; u "qzxv"; u "shell"; u "abc"; u "abcd"].
Proof. reflexivity. Qed.

(** A text below the word and byte thresholds is not flagged. *)
Example flag_macro_short_text :
  _flag_macro ascii_lower ∅ None (6 # 10)%Q (u "Sub AutoOpen() qzxv = Shell(jkqw) End Sub")
  = Returned false.
Proof. reflexivity. Qed.

End MacroScore.

(** ** [urllib.parse.urlsplit], as CPython has it, on [str] *)

Module Urllib.

Record SplitResult := {
  scheme : pystr;
  netloc : pystr;
  path : pystr;
  query : pystr;
  fragment : pystr
}.

Definition has (c : N) (s : pystr) : bool := existsb (fun x => (x =? c)%N) s.

(** [s.partition(c)]: the text before the first [c], and the text after
    it when there is one. *)
Fixpoint partition (c : N) (s : pystr) : pystr * option pystr :=
  match s with
  | [] => ([], None)
  | x :: t =>
    if (x =? c)%N then ([], Some t)
    else let '(a, b) := partition c t in (x :: a, b)
  end.

(** [s.rpartition(c)[2]]: the text after the last [c], or all of it. *)
Fixpoint after_last (c : N) (s : pystr) : pystr :=
  match s with
  | [] => []
  | x :: t => if has c t then after_last c t else if (x =? c)%N then t else s
  end.

Fixpoint drop_while (f : N -> bool) (s : pystr) : pystr :=
  match s with
  | [] => []
  | x :: t => if f x then drop_while f t else s
  end.

Fixpoint take_while (f : N -> bool) (s : pystr) : pystr :=
  match s with
  | [] => []
  | x :: t => if f x then x :: take_while f t else []
  end.

Definition is_ascii_alpha (c : N) : bool :=
  (((65 <=? c) && (c <=? 90)) || ((97 <=? c) && (c <=? 122)))%N.

Definition is_ascii_digit (c : N) : bool := ((48 <=? c) && (c <=? 57))%N.

(** [scheme_chars]: letters, digits, [+], [-], [.]. *)
Definition scheme_char (c : N) : bool :=
  is_ascii_alpha c || is_ascii_digit c || bool_decide (c ∈ [43; 45; 46]%N).

(** The scheme, lower-cased, and the rest of the URL after its colon;
    no scheme when the text before the first colon is empty, does not
    start with an ASCII letter, or has a character outside
    [scheme_chars]. *)
Definition split_scheme (url : pystr) : pystr * pystr :=
  match partition 58%N url with
  | (c0 :: before, Some rest) =>
    if is_ascii_alpha c0 && forallb scheme_char (c0 :: before)
    then (ascii_lower (c0 :: before), rest)
    else ([], url)
  | _ => ([], url)
  end.

(** [/], [?], [#]: where the network location ends. *)
Definition ends_netloc (c : N) : bool := bool_decide (c ∈ [47; 63; 35]%N).

Section WithTables.
(** [str.lower] beyond ASCII, and NFKC normalisation. *)
Variable unicode_lower : pystr -> pystr.
Variable unicode_nfkc : pystr -> pystr.
(** [_check_bracketed_host]: the message of the [ValueError] it raises
    for a host in brackets that is neither an IPv6 nor an IPvFuture
    address. *)
Variable check_bracketed_host : pystr -> option pystr.

Definition lower (s : pystr) : pystr :=
  if is_ascii s then ascii_lower s else unicode_lower s.

(** [_checknetloc] *)
Definition _checknetloc (netloc : pystr) : outcome pystr unit :=
  if negb (truthy netloc) || is_ascii netloc then Returned tt
  else
    let n := filter (fun c => c ∉ [64; 58; 35; 63]%N) netloc in
    let netloc2 := unicode_nfkc n in
    if bool_decide (n = netloc2) then Returned tt
    else if existsb (fun c => has c netloc2) [47; 63; 35; 64; 58]%N
    then Raised (u "netloc '" ++ netloc
                 ++ u "' contains invalid characters under NFKC normalization")
    else Returned tt.

(** [urlsplit(url)]; a [ValueError] is given by its message. *)
Definition urlsplit (url : pystr) : outcome pystr SplitResult :=
  let url := drop_while (fun c => (c <=? 32)%N) url in
  let url := filter (fun c => c ∉ [9; 10; 13]%N) url in
  let '(scheme, url) := split_scheme url in
  bind
    (match url with
     | 47%N :: 47%N :: rest =>
       let netloc := take_while (fun c => negb (ends_netloc c)) rest in
       let url := drop_while (fun c => negb (ends_netloc c)) rest in
       if (has 91%N netloc && negb (has 93%N netloc))
          || (has 93%N netloc && negb (has 91%N netloc))
       then Raised (u "Invalid IPv6 URL")
       else if has 91%N netloc && has 93%N netloc
       then
         let bracketed_host :=
           (partition 93%N (default [] (partition 91%N netloc).2)).1 in
         match check_bracketed_host bracketed_host with
         | Some msg => Raised msg
         | None => Returned (netloc, url)
         end
       else Returned (netloc, url)
     | _ => Returned ([], url)
     end)
    (fun '(netloc, url) =>
       let '(url, fragment) :=
         match partition 35%N url with
         | (a, Some b) => (a, b)
         | (a, None) => (a, [])
         end in
       let '(url, query) :=
         match partition 63%N url with
         | (a, Some b) => (a, b)
         | (a, None) => (a, [])
         end in
       bind (_checknetloc netloc) (fun _ =>
       Returned {| scheme := scheme; netloc := netloc; path := url;
                   query := query; fragment := fragment |})).

(** [SplitResult.hostname] *)
Definition hostname (r : SplitResult) : option pystr :=
  let hostinfo := after_last 64%N (netloc r) in
  let host :=
    match partition 91%N hostinfo with
    | (_, Some bracketed) => (partition 93%N bracketed).1
    | (_, None) => (partition 58%N hostinfo).1
    end in
  if truthy host then
    match partition 37%N host with
    | (h, Some zone) => Some (lower h ++ 37%N :: zone)
    | (h, None) => Some (lower h)
    end
  else None.

Definition uses_netloc : list pystr :=
  [[]; u "ftp"; u "http"; u "gopher"; u "nntp"; u "telnet"; u "imap"; u "wais";
   u "file"; u "mms"; u "https"; u "shttp"; u "snews"; u "prospero"; u "rtsp";
   u "rtspu"; u "rsync"; u "svn"; u "svn+ssh"; u "sftp"; u "nfs"; u "git";
   u "git+ssh"; u "ws"; u "wss"].

(** [SplitResult.geturl()], that is [urlunsplit]. *)
Definition geturl (r : SplitResult) : pystr :=
  let url := path r in
  let url :=
    if truthy (netloc r)
       || (truthy (scheme r) && bool_decide (scheme r ∈ uses_netloc)
           && negb (startswith (u "//") url))
    then u "//" ++ netloc r
         ++ (if truthy url && negb (startswith (u "/") url) then u "/" ++ url else url)
    else url in
  let url := if truthy (scheme r) then scheme r ++ u ":" ++ url else url in
  let url := if truthy (query r) then url ++ u "?" ++ query r else url in
  if truthy (fragment r) then url ++ u "#" ++ fragment r else url.

End WithTables.

End Urllib.

(** ** URI classifier ([Oletools.parse_uri]) *)

Module Uri.

Import Urllib.

(** The argument: [bytes | str]. *)
Inductive uri_input :=
| InBytes (b : pybytes)
| InStr (s : pystr).

(** Whitespace for [bytes.split()] and for [str.split()]. *)
Definition is_space_bytes (c : N) : bool :=
  bool_decide (c ∈ [9; 10; 11; 12; 13; 32]%N).

Definition is_space_str (c : N) : bool :=
  is_space_bytes c
  || bool_decide (c ∈ [28; 29; 30; 31; 133; 160; 5760; 8232; 8233; 8239; 8287; 12288]%N)
  || ((8192 <=? c) && (c <=? 8202))%N.

(** [s.split(maxsplit=1)], reduced to its first item when there is one. *)
Definition first_token (is_space : N -> bool) (s : pystr) : option pystr :=
  match drop_while is_space s with
  | [] => None
  | t => Some (take_while (fun c => negb (is_space c)) t)
  end.

(** Decimal text of an octet, and [IPv4Address(packed).compressed]. *)
Definition digit_chr (n : N) : N := (48 + n)%N.

Definition octet (n : N) : pystr :=
  if (n <? 10)%N then [digit_chr n]
  else if (n <? 100)%N then [digit_chr (n / 10); digit_chr (n mod 10)]
  else [digit_chr (n / 100); digit_chr ((n / 10) mod 10); digit_chr (n mod 10)].

Definition compressed (packed : N * N * N * N) : pystr :=
  let '(a, b, c, d) := packed in
  octet a ++ u "." ++ octet b ++ u "." ++ octet c ++ u "." ++ octet d.

Definition EMPTY : pystr * string * pystr := ([], ""%string, []).

(** What [socket.inet_aton] does with a [str]: the four packed octets;
    [OSError] for a string that is not an IPv4 address; and, before it
    looks at the address at all, [ValueError] for a string with a NUL
    character ("embedded null character") or [UnicodeEncodeError], a
    [ValueError] too, for one with a lone surrogate.  The last two are
    given by their message. *)
Inductive aton :=
| Packed (packed : N * N * N * N)
| OSError
| ValueError (msg : pystr).

Section WithCollaborators.
Variable unicode_lower : pystr -> pystr.
Variable unicode_nfkc : pystr -> pystr.
Variable check_bracketed_host : pystr -> option pystr.
(** Whether a non-ASCII code point matches [[a-z0-9.-]] under
    [re.IGNORECASE]. *)
Variable unicode_host_char : N -> bool.
(** [assemblyline.common.net.is_valid_domain], [is_valid_ip] and
    [assemblyline.common.iprange.is_ip_reserved]. *)
Variable is_valid_domain : pystr -> bool.
Variable is_valid_ip : pystr -> bool.
Variable is_ip_reserved : pystr -> bool.
(** [socket.inet_aton]. *)
Variable inet_aton : pystr -> aton.

(** [(?i)[a-z0-9.-]+] *)
Definition host_char (c : N) : bool :=
  if is_ascii_chr c
  then is_ascii_alpha c || is_ascii_digit c || bool_decide (c ∈ [46; 45]%N)
  else unicode_host_char c.

Definition HOSTNAME_RE : Regex.regex :=
  Regex.Cat (Regex.Class host_char) (Regex.Star (Regex.Class host_char)).

(** [truncated.decode("ascii")]: [None] is [UnicodeDecodeError]. *)
Definition decode_ascii (b : pybytes) : option pystr :=
  if is_ascii b then Some b else None.

(** The first whitespace-delimited item, decoded: [None] when there is
    none, or when it is [bytes] that are not ASCII. *)
Definition decoded_token (check_uri : uri_input) : option pystr :=
  match check_uri with
  | InBytes b => truncated ← first_token is_space_bytes b; decode_ascii truncated
  | InStr s => first_token is_space_str s
  end.

Definition url_text (url : SplitResult) : pystr :=
  if has 58%N (path url)
  then scheme url ++ u "://" ++ netloc url ++ (partition 58%N (path url)).1
  else geturl url.

(** [Raised msg] is a [ValueError] with that message.  The handler
    around [inet_aton] names [OSError], [AddressValueError] and
    [UnicodeDecodeError]: a [ValueError] of [inet_aton] passes it. *)
Definition parse_uri (check_uri : uri_input)
  : outcome pystr (pystr * string * pystr) :=
  match decoded_token check_uri with
  | None => Returned EMPTY
  | Some decoded =>
    match urlsplit unicode_nfkc check_bracketed_host decoded with
    | Raised msg =>
      if bool_decide (msg = u "Invalid IPv6 URL") then Returned EMPTY else Raised msg
    | Returned url =>
      match hostname unicode_lower url with
      | None => Returned EMPTY
      | Some host =>
        if negb (truthy (scheme url))
           || negb (Regex.match_prefix N.eqb HOSTNAME_RE host)
        then Returned EMPTY
        else
          if is_valid_domain host
          then Returned (url_text url, "network.static.domain"%string, host)
          else
            match inet_aton host with
            | Packed packed =>
              let parsed_ip := compressed packed in
              if is_valid_ip parsed_ip && negb (is_ip_reserved parsed_ip)
              then Returned (url_text url, "network.static.ip"%string, parsed_ip)
              else Returned (url_text url, ""%string, [])
            | OSError => Returned (url_text url, ""%string, [])
            | ValueError msg => Raised msg
            end
      end
    end
  end.

(** *** Classification and failures *)



End WithCollaborators.

(** *** Sample collaborators

    Tables and predicates that answer as the specification says on the
    few values the examples below use, and refuse everything else. *)

(** NFKC on U+2100 ACCOUNT OF, which decomposes to [a/c]. *)
Definition nfkc_account_of (s : pystr) : pystr :=
  flat_map (fun c => if (c =? 8448)%N then u "a/c" else [c]) s.

Definition lower_unchanged (s : pystr) : pystr := s.
Definition brackets_accepted (host : pystr) : option pystr := None.
Definition no_unicode_host_char (c : N) : bool := false.

Definition sample_is_valid_domain (host : pystr) : bool :=
  bool_decide (host = u "example.com").

Definition sample_inet_aton (host : pystr) : aton :=
  if has 0%N host then ValueError (u "embedded null character")
  else if bool_decide (host = u "192.0.2.1") then Packed (192, 0, 2, 1)%N
  else if bool_decide (host = u "127.0.0.1") then Packed (127, 0, 0, 1)%N
  else OSError.

Definition sample_is_valid_ip (ip : pystr) : bool :=
  bool_decide (ip ∈ [u "192.0.2.1"; u "127.0.0.1"]).

Definition sample_is_ip_reserved (ip : pystr) : bool := startswith (u "127.") ip.

Definition sample_parse_uri : uri_input -> outcome pystr (pystr * string * pystr) :=
  parse_uri lower_unchanged nfkc_account_of brackets_accepted no_unicode_host_char
    sample_is_valid_domain sample_is_valid_ip sample_is_ip_reserved sample_inet_aton.





End Uri.

(** * Further properties of the service code

    The modules below extend the embedding to functions the sections
    above do not reach, and state what the code of each guarantees. *)

(** ** More on the IOC pattern filter ([_check_for_patterns],
    [_decide_extract]) *)

Module PatternsMore.

Import Patterns.

Section Service.
Variable str_lower : pystr -> pystr.
Variable same_ic : N -> N -> bool.
Variable safe_str : pybytes -> pystr.
Variable ioc_match : pybytes -> list (string * list pybytes).
Variable pat_safelist : list pystr.
Variable tag_safelist : list pystr.
Variable match_safelist : gmap string (list pystr).
Variable regex_safelist : gmap string (list Regex.regex).

(** The call [self._check_for_patterns(data, include_fpos)] and the two
    tests of its loop, for the service state above. *)
Definition check (data : pybytes) (include_fpos : bool)
  : gmap string (gset (list N)) * bool :=
  _check_for_patterns str_lower same_ic safe_str ioc_match pat_safelist tag_safelist
    match_safelist regex_safelist data include_fpos.

Definition skips (include_fpos : bool) (tag_type : string) (ioc : pybytes) : bool :=
  skipped str_lower same_ic safe_str pat_safelist tag_safelist match_safelist
    regex_safelist include_fpos tag_type ioc.

Definition visits (include_fpos : bool) (tag_type : string) :=
  visit_ioc str_lower same_ic safe_str pat_safelist tag_safelist match_safelist
    regex_safelist include_fpos tag_type.

(** A value the pattern library found and the loop kept. *)
Definition kept (data : pybytes) (include_fpos : bool) (ty : string) (v : pybytes) : Prop :=
  exists iocs, (ty, iocs) ∈ ioc_match data /\ v ∈ iocs /\ skips include_fpos ty v = false.

Lemma visit_ioc_cases include_fpos tag_type acc ioc :
  visits include_fpos tag_type acc ioc
  = if skips include_fpos tag_type ioc then acc
    else (<[tag_type := {[ioc]} ∪ acc.1 !!! tag_type]> acc.1,
          acc.2 || _decide_extract tag_type ioc include_fpos).
Proof.
  destruct acc as [found extract]. unfold visits, visit_ioc, skips, skipped.
  destruct (_ || is_safelisted _ _ _ _ _ _ _ _); [reflexivity|]. cbn [orb].
  destruct (negb include_fpos && _ && _); reflexivity.
Qed.

(** *** The extraction flag *)

Lemma inner_loop_flag include_fpos tag_type iocs acc :
  (fold_left (visits include_fpos tag_type) iocs acc).2 = true <->
  acc.2 = true
  \/ exists v, v ∈ iocs /\ skips include_fpos tag_type v = false
               /\ _decide_extract tag_type v include_fpos = true.
Proof.
  revert acc. induction iocs as [|ioc iocs IH]; intros acc; simpl.
  - split; [auto|]. intros [H|(v & H & _)]; [exact H|]. apply elem_of_nil in H. contradiction.
  - rewrite IH, visit_ioc_cases. destruct (skips include_fpos tag_type ioc) eqn:Hs.
    + split.
      * intros [H|(v & H1 & H2)]; [auto|]. right. exists v. split; [right; exact H1|exact H2].
      * intros [H|(v & [->|H1]%elem_of_cons & H2 & H3)]; [auto|congruence|].
        right. exists v. auto.
    + cbn [snd]. rewrite orb_true_iff. split.
      * intros [[H|H]|(v & H1 & H2)]; [auto| |].
        -- right. exists ioc. split; [left|auto].
        -- right. exists v. split; [right; exact H1|exact H2].
      * intros [H|(v & [->|H1]%elem_of_cons & H2 & H3)]; [auto|auto|].
        right. exists v. auto.
Qed.

Lemma outer_loop_flag include_fpos items acc :
  (fold_left
     (fun acc '(tag_type, iocs) => fold_left (visits include_fpos tag_type) iocs acc)
     items acc).2 = true <->
  acc.2 = true
  \/ exists ty iocs v, (ty, iocs) ∈ items /\ v ∈ iocs /\ skips include_fpos ty v = false
                       /\ _decide_extract ty v include_fpos = true.
Proof.
  revert acc. induction items as [|[tag_type iocs] items IH]; intros acc; simpl.
  - split; [auto|]. intros [H|(ty & iocs & v & H & _)]; [exact H|].
    apply elem_of_nil in H. contradiction.
  - rewrite IH, inner_loop_flag. split.
    + intros [[H|(v & H1 & H2)]|(ty & iocs' & v & H1 & H2)]; [auto| |].
      * right. exists tag_type, iocs, v. split; [left|auto].
      * right. exists ty, iocs', v. split; [right; exact H1|exact H2].
    + intros [H|(ty & iocs' & v & [[= <- <-]|H1]%elem_of_cons & H2)]; [auto| |].
      * left. right. exists v. exact H2.
      * right. exists ty, iocs', v. auto.
Qed.

Lemma check_tags data include_fpos ty v :
  v ∈ (check data include_fpos).1 !!! ty <-> kept data include_fpos ty v.
Proof. apply check_for_patterns_tags. Qed.

Lemma check_flag data include_fpos :
  (check data include_fpos).2 = true <->
  exists ty iocs v, (ty, iocs) ∈ ioc_match data /\ v ∈ iocs
                    /\ skips include_fpos ty v = false
                    /\ _decide_extract ty v include_fpos = true.
Proof.
  unfold check, _check_for_patterns.
  rewrite (outer_loop_flag include_fpos (ioc_match data) (∅, false)). cbn [snd].
  split; [intros [H|H]; [discriminate|exact H]|auto].
Qed.

(** X1.  The extraction flag of [_check_for_patterns] is set exactly
    when one of the tag values it returns is worth extracting by
    [_decide_extract]; with the flag set the tag bag is not empty. *)
Theorem extract_flag_iff data include_fpos :
  (check data include_fpos).2 = true <->
  exists ty v, v ∈ (check data include_fpos).1 !!! ty
               /\ _decide_extract ty v include_fpos = true.
Proof.
  rewrite check_flag. split.
  - intros (ty & iocs & v & H1 & H2 & H3 & H4).
    exists ty, v. split; [|exact H4]. apply check_tags. exists iocs. auto.
  - intros (ty & v & (iocs & H1 & H2 & H3)%check_tags & H4).
    exists ty, iocs, v. auto.
Qed.

(** *** No empty entry *)

Definition inhabited_entries (found : gmap string (gset (list N))) : Prop :=
  forall ty s, found !! ty = Some s -> exists v, v ∈ s.

Lemma visit_ioc_inhabited include_fpos tag_type acc ioc :
  inhabited_entries acc.1 ->
  inhabited_entries (visits include_fpos tag_type acc ioc).1.
Proof.
  intros H. rewrite visit_ioc_cases. destruct (skips _ _ _); [exact H|]. cbn [fst].
  intros ty s. destruct (decide (tag_type = ty)) as [->|Hne].
  - rewrite lookup_insert_eq. intros [= <-]. exists ioc.
    apply elem_of_union. left. apply elem_of_singleton. reflexivity.
  - rewrite lookup_insert_ne by exact Hne. apply H.
Qed.

Lemma loops_inhabited include_fpos items acc :
  inhabited_entries acc.1 ->
  inhabited_entries
    (fold_left
       (fun acc '(tag_type, iocs) => fold_left (visits include_fpos tag_type) iocs acc)
       items acc).1.
Proof.
  revert acc. induction items as [|[tag_type iocs] items IH]; intros acc H; simpl; [exact H|].
  apply IH. clear IH. revert acc H.
  induction iocs as [|ioc iocs IH]; intros acc H; simpl; [exact H|].
  apply IH, visit_ioc_inhabited, H.
Qed.

(** X2.  The dictionary [_check_for_patterns] returns has a key for a
    tag type exactly when it returns at least one value of that type:
    no key maps to an empty set, so the callers' test [if iocs:] sees an
    empty dictionary exactly when nothing was kept. *)
Theorem tag_bag_has_no_empty_entry data include_fpos ty :
  is_Some ((check data include_fpos).1 !! ty) <->
  exists v, v ∈ (check data include_fpos).1 !!! ty.
Proof.
  assert (H : inhabited_entries (check data include_fpos).1).
  { apply (loops_inhabited include_fpos (ioc_match data) (∅, false)).
    intros ty' s Hs. cbn [fst] in Hs. rewrite lookup_empty in Hs. discriminate. }
  rewrite lookup_total_alt. split.
  - intros [s Hs]. rewrite Hs. simpl. exact (H _ _ Hs).
  - intros [v Hv]. destruct ((check data include_fpos).1 !! ty) as [s|]; [eauto|].
    simpl in Hv. apply not_elem_of_empty in Hv. contradiction.
Qed.

(** *** Deep scans keep more *)

Lemma decide_extract_basic ty val :
  _decide_extract ty val false = true -> _decide_extract ty val true = true.
Proof.
  unfold _decide_extract. destruct (_ && (startswith _ _ || _)); [auto|].
  cbn [negb andb]. rewrite !negb_true_iff, !orb_false_iff.
  intros [H _]. split; [exact H|reflexivity].
Qed.

Lemma skips_deep tag_type ioc :
  skips false tag_type ioc = false -> skips true tag_type ioc = false.
Proof.
  unfold skips, skipped. rewrite !orb_false_iff. cbn [negb andb]. tauto.
Qed.

(** X3.  Asking for possible false positives ([include_fpos], the deep
    scan) never loses anything: every tag value returned without it is
    returned with it, a set extraction flag stays set, and a value that
    [_decide_extract] accepts with the full checks it accepts with the
    basic checks. *)
Theorem deep_scan_keeps_more data :
  (forall ty v, v ∈ (check data false).1 !!! ty -> v ∈ (check data true).1 !!! ty)
  /\ ((check data false).2 = true -> (check data true).2 = true)
  /\ (forall ty val, _decide_extract ty val false = true ->
                     _decide_extract ty val true = true).
Proof.
  assert (Htags : forall ty v, v ∈ (check data false).1 !!! ty ->
                               v ∈ (check data true).1 !!! ty).
  { intros ty v (iocs & H1 & H2 & H3)%check_tags. apply check_tags.
    exists iocs. auto using skips_deep. }
  split; [exact Htags|]. split; [|exact decide_extract_basic].
  rewrite !check_flag. intros (ty & iocs & v & H1 & H2 & H3 & H4).
  exists ty, iocs, v. auto using skips_deep, decide_extract_basic.
Qed.

End Service.

End PatternsMore.

(** ** [collate_tags]

    [Tags] is a dictionary from a tag type to the list of its values.
    The function merges a sequence of them through a [defaultdict] of
    sets; the order in which a Python set is listed is not specified, so
    the result lists each set with [elements]. *)

Module Collate.

Abbreviation Tags := (gmap string (list pystr)).

Definition update (collated : gmap string (gset pystr)) (item : string * list pystr)
  : gmap string (gset pystr) :=
  let '(_type, values) := item in
  <[_type := collated !!! _type ∪ list_to_set values]> collated.

Definition collated_of (tags_list : list Tags) : gmap string (gset pystr) :=
  fold_left (fun collated tags => fold_left update (map_to_list tags) collated)
            tags_list ∅.

Definition collate_tags (tags_list : list Tags) : Tags :=
  elements <$> collated_of tags_list.

Lemma update_values items collated ty v :
  v ∈ fold_left update items collated !!! ty <->
  v ∈ collated !!! ty \/ exists ws, (ty, ws) ∈ items /\ v ∈ ws.
Proof.
  revert collated. induction items as [|[ty' ws'] items IH]; intros collated; simpl.
  - split; [auto|]. intros [H|(ws & H & _)]; [exact H|]. inversion H.
  - rewrite IH. clear IH. destruct (decide (ty' = ty)) as [->|Hne].
    + rewrite lookup_total_insert_eq, elem_of_union, elem_of_list_to_set. split.
      * intros [[H|H]|(ws & H1 & H2)]; [auto| |].
        -- right. exists ws'. split; [left|exact H].
        -- right. exists ws. split; [right; exact H1|exact H2].
      * intros [H|(ws & H1 & H2)]; [auto|].
        apply elem_of_cons in H1 as [[= <-]|H1]; [auto|]. right. eauto.
    + rewrite lookup_total_insert_ne by exact Hne. split.
      * intros [H|(ws & H1 & H2)]; [auto|]. right. exists ws. split; [right; exact H1|exact H2].
      * intros [H|(ws & H1 & H2)]; [auto|].
        apply elem_of_cons in H1 as [[= ? _]|H1]; [congruence|]. right. eauto.
Qed.

Lemma update_keys items collated ty :
  is_Some (fold_left update items collated !! ty) <->
  is_Some (collated !! ty) \/ exists ws, (ty, ws) ∈ items.
Proof.
  revert collated. induction items as [|[ty' ws'] items IH]; intros collated; simpl.
  - split; [auto|]. intros [H|(ws & H)]; [exact H|]. inversion H.
  - rewrite IH. clear IH. destruct (decide (ty' = ty)) as [->|Hne].
    + rewrite lookup_insert_eq. split.
      * intros _. right. exists ws'. left.
      * intros _. left. eauto.
    + rewrite lookup_insert_ne by exact Hne. split.
      * intros [H|(ws & H)]; [auto|]. right. exists ws. right. exact H.
      * intros [H|(ws & H)]; [auto|].
        apply elem_of_cons in H as [[= ? _]|H]; [congruence|]. right. eauto.
Qed.

Lemma collated_values tags_list collated ty v :
  v ∈ fold_left (fun collated (tags : Tags) => fold_left update (map_to_list tags) collated)
                tags_list collated !!! ty <->
  v ∈ collated !!! ty
  \/ exists tags ws, tags ∈ tags_list /\ tags !! ty = Some ws /\ v ∈ ws.
Proof.
  revert collated. induction tags_list as [|tags tags_list IH]; intros collated; simpl.
  - split; [auto|]. intros [H|(tags & ws & H & _)]; [exact H|]. inversion H.
  - rewrite IH, update_values. clear IH. split.
    + intros [[H|(ws & H1 & H2)]|(tags' & ws & H1 & H2 & H3)]; [auto| |].
      * right. exists tags, ws. apply elem_of_map_to_list in H1. split; [left|auto].
      * right. exists tags', ws. split; [right; exact H1|auto].
    + intros [H|(tags' & ws & H1 & H2 & H3)]; [auto|].
      apply elem_of_cons in H1 as [->|H1].
      * left. right. exists ws. split; [apply elem_of_map_to_list; exact H2|exact H3].
      * right. eauto.
Qed.

Lemma collated_keys tags_list collated ty :
  is_Some (fold_left (fun collated (tags : Tags) => fold_left update (map_to_list tags) collated)
                     tags_list collated !! ty) <->
  is_Some (collated !! ty) \/ exists tags, tags ∈ tags_list /\ is_Some (tags !! ty).
Proof.
  revert collated. induction tags_list as [|tags tags_list IH]; intros collated; simpl.
  - split; [auto|]. intros [H|(tags & H & _)]; [exact H|]. inversion H.
  - rewrite IH, update_keys. clear IH. split.
    + intros [[H|(ws & H)]|(tags' & H1 & H2)]; [auto| |].
      * right. exists tags. apply elem_of_map_to_list in H. split; [left|eauto].
      * right. exists tags'. split; [right; exact H1|exact H2].
    + intros [H|(tags' & H1 & [ws H2])]; [auto|].
      apply elem_of_cons in H1 as [->|H1].
      * left. right. exists ws. apply elem_of_map_to_list. exact H2.
      * right. eauto.
Qed.

(** X4.  [collate_tags] merges tag dictionaries: the result has a key
    for a tag type exactly when one of the inputs has it (also with an
    empty list), and the list under a key has no duplicate and holds
    exactly the values some input lists under that key. *)
Theorem collate_tags_merges tags_list ty :
  (is_Some (collate_tags tags_list !! ty) <->
   exists tags, tags ∈ tags_list /\ is_Some (tags !! ty))
  /\ forall vs, collate_tags tags_list !! ty = Some vs ->
       NoDup vs
       /\ forall v, v ∈ vs <->
            exists tags ws, tags ∈ tags_list /\ tags !! ty = Some ws /\ v ∈ ws.
Proof.
  unfold collate_tags. split.
  - rewrite lookup_fmap, fmap_is_Some. unfold collated_of.
    rewrite collated_keys, lookup_empty. split.
    + intros [[? [=]]|H]. exact H.
    + auto.
  - intros vs. rewrite lookup_fmap. intros H.
    destruct (collated_of tags_list !! ty) as [s|] eqn:Hs; [|discriminate].
    injection H as <-. split; [apply NoDup_elements|]. intros v.
    rewrite elem_of_elements.
    assert (Hv := collated_values tags_list ∅ ty v). fold (collated_of tags_list) in Hv.
    rewrite (lookup_total_alt (collated_of tags_list)), Hs in Hv. simpl in Hv.
    rewrite Hv, lookup_total_empty. split; [|auto].
    intros [H|H]; [|exact H]. apply not_elem_of_empty in H. contradiction.
Qed.

Example collate_tags_sample :
  collate_tags [ {[ "network.static.uri"%string := [Py.u "a"; Py.u "b"] ]};
                 {[ "network.static.uri"%string := [Py.u "b"];
                    "file.string.extracted"%string := [] ]} ]
    !! "file.string.extracted"%string = Some [].
Proof. vm_compute. reflexivity. Qed.

End Collate.

(** ** File names of extracted RTF packages ([Oletools._sanitize_filename]) *)

Module Sanitize.

(** [os.path.basename] of [posixpath]: what follows the last slash. *)
Definition basename (p : pystr) : pystr := Urllib.after_last 47%N p.

(** [str.strip()] *)
Definition strip (s : pystr) : pystr :=
  rev (Urllib.drop_while Uri.is_space_str
         (rev (Urllib.drop_while Uri.is_space_str s))).

(** [s.replace(old, new)] for a non-empty [old]: the occurrences are
    taken from the left and do not overlap. *)
Definition replace (old new : pystr) : pystr -> pystr :=
  Re.sub (fun s => if startswith old s then Some (tt, length old) else None)
         (fun _ => new).

(** [while c + c in s: s = s.replace(c + c, c)].  Each round shortens
    the text, so as many rounds as the text is long are enough
    ([squeeze_collapse] below). *)
Fixpoint squeeze (fuel : nat) (c : N) (s : pystr) : pystr :=
  match fuel with
  | O => s
  | S k => if contains [c; c] s then squeeze k c (replace [c; c] [c] s) else s
  end.

(** [s[:stop]] *)
Definition slice_to (stop : Z) (s : pystr) : pystr :=
  if 0 <=? stop then take (Z.to_nat stop) s
  else take (length s - Z.to_nat (- stop)) s.

(** What the loops compute: every run of [c] becomes one [c]. *)
Fixpoint collapse (c : N) (s : pystr) : pystr :=
  match s with
  | [] => []
  | x :: t =>
    match t with
    | y :: _ => if ((x =? c) && (y =? c))%N then collapse c t else x :: collapse c t
    | [] => [x]
    end
  end.

Section WithUnicode.
(** [str.isalnum] of a code point outside ASCII, which is what [\w]
    matches there besides the underscore. *)
Variable unicode_alnum : N -> bool.

Definition word (c : N) : bool :=
  if is_ascii_chr c
  then Urllib.is_ascii_alpha c || Urllib.is_ascii_digit c || (c =? 95)%N
  else unicode_alnum c.

(** The characters outside the class [[^\w.\- ]]. *)
Definition allowed (c : N) : bool := word c || bool_decide (c ∈ [46; 45; 32]%N).

Definition not_allowed (s : pystr) : option (N * nat) :=
  match s with
  | c :: _ => if allowed c then None else Some (c, 1%nat)
  | [] => None
  end.

(** [replacement] is inserted as it is: it holds no backslash in the
    service, which always calls with the defaults. *)
Definition _sanitize_filename (filename replacement : pystr) (max_length : Z) : pystr :=
  let basepath := strip (basename filename) in
  let sane_fname := Re.sub not_allowed (fun _ => replacement) basepath in
  let sane_fname := squeeze (length sane_fname) 46 sane_fname in
  let sane_fname := squeeze (length sane_fname) 32 sane_fname in
  let sane_fname := if bool_decide (filename = []) then u "NONAME" else sane_fname in
  if max_length =? 0 then sane_fname else slice_to max_length sane_fname.

(** The call of [_extract_rtf]. *)
Definition sanitized (filename : pystr) : pystr :=
  _sanitize_filename filename (u "_") 200.

End WithUnicode.

(** *** One round of replacement *)

Lemma replace_hit c t : replace [c; c] [c] (c :: c :: t) = c :: replace [c; c] [c] t.
Proof.
  unfold replace. rewrite (Re.sub_head_hit _ _ (c :: c :: t) tt 2).
  - reflexivity.
  - cbn [startswith]. rewrite N.eqb_refl. reflexivity.
  - simpl. lia.
Qed.

Lemma replace_miss c x t :
  startswith [c; c] (x :: t) = false ->
  replace [c; c] [c] (x :: t) = x :: replace [c; c] [c] t.
Proof.
  intros H. unfold replace. rewrite Re.sub_head_miss; [reflexivity|].
  rewrite H. reflexivity.
Qed.

Lemma pair_cases c x t :
  (exists t', x = c /\ t = c :: t') \/ startswith [c; c] (x :: t) = false.
Proof.
  cbn [startswith]. destruct (N.eqb_spec c x) as [<-|Hx]; [|right; reflexivity].
  destruct t as [|y t']; [right; reflexivity|].
  destruct (N.eqb_spec c y) as [<-|Hy]; [left; eauto|right; reflexivity].
Qed.

Lemma contains_miss p x t :
  startswith p (x :: t) = false -> contains p (x :: t) = contains p t.
Proof. intros H. cbn [contains]. rewrite H. reflexivity. Qed.

Lemma replace_length_bounded c n s :
  (length s <= n)%nat ->
  (length (replace [c; c] [c] s) <= length s)%nat
  /\ (contains [c; c] s = true -> (length (replace [c; c] [c] s) < length s)%nat).
Proof.
  revert s. induction n as [|n IH]; intros [|x t] Hn; simpl in Hn; try lia.
  - split; [reflexivity|discriminate].
  - split; [reflexivity|discriminate].
  - destruct (pair_cases c x t) as [(t' & -> & ->)|Hmiss].
    + rewrite replace_hit. destruct (IH t') as [Hle _]; [simpl in Hn; lia|].
      simpl. split; [lia|intros _; lia].
    + rewrite replace_miss, contains_miss by exact Hmiss.
      destruct (IH t) as [Hle Hlt]; [lia|]. simpl. split; [lia|].
      intros H. apply Hlt in H. lia.
Qed.

Lemma replace_shortens c s :
  contains [c; c] s = true -> (length (replace [c; c] [c] s) < length s)%nat.
Proof. apply (replace_length_bounded c (length s) s). reflexivity. Qed.

(** *** The loops collapse runs *)

Lemma collapse_cons c x y t :
  collapse c (x :: y :: t)
  = if ((x =? c) && (y =? c))%N then collapse c (y :: t) else x :: collapse c (y :: t).
Proof. reflexivity. Qed.

Lemma collapse_replace_bounded c n t :
  (length t <= n)%nat ->
  forall x, collapse c (x :: replace [c; c] [c] t) = collapse c (x :: t).
Proof.
  revert t. induction n as [|n IH]; intros [|y t] Hn x; simpl in Hn; try lia;
    try reflexivity.
  destruct (pair_cases c y t) as [(t' & -> & ->)|Hmiss].
  - rewrite replace_hit.
    rewrite (collapse_cons c x c (replace _ _ t')), (collapse_cons c x c (c :: t')).
    rewrite (IH t') by (simpl in Hn; lia).
    rewrite (collapse_cons c c c t'), N.eqb_refl. reflexivity.
  - rewrite replace_miss by exact Hmiss.
    rewrite (collapse_cons c x y (replace _ _ t)), (collapse_cons c x y t).
    rewrite (IH t) by lia. reflexivity.
Qed.

Lemma collapse_replace c s : collapse c (replace [c; c] [c] s) = collapse c s.
Proof.
  destruct s as [|x t]; [reflexivity|].
  destruct (pair_cases c x t) as [(t' & -> & ->)|Hmiss].
  - rewrite replace_hit, (collapse_replace_bounded c (length t')) by reflexivity.
    rewrite (collapse_cons c c c t'), N.eqb_refl. reflexivity.
  - rewrite replace_miss by exact Hmiss.
    apply (collapse_replace_bounded c (length t)). reflexivity.
Qed.

Lemma pair_eqb c x y t :
  startswith [c; c] (x :: y :: t) = ((x =? c) && (y =? c))%N.
Proof.
  cbn [startswith]. rewrite andb_true_r, (N.eqb_sym c x), (N.eqb_sym c y). reflexivity.
Qed.

Lemma collapse_fixed c s : contains [c; c] s = false -> collapse c s = s.
Proof.
  induction s as [|x t IH]; [reflexivity|]. cbn [contains].
  rewrite orb_false_iff. intros [H1 H2]. destruct t as [|y t]; [reflexivity|].
  rewrite collapse_cons, <- (pair_eqb c x y t), H1, IH by exact H2. reflexivity.
Qed.

Lemma collapse_head c x t :
  exists r, collapse c (x :: t) = x :: r.
Proof.
  revert x. induction t as [|y t IH]; intros x; [exists []; reflexivity|].
  rewrite collapse_cons. destruct ((x =? c) && (y =? c))%N eqn:E; [|eauto].
  apply andb_true_iff in E as [->%N.eqb_eq ->%N.eqb_eq]. apply IH.
Qed.

Lemma collapse_no_pair c s : contains [c; c] (collapse c s) = false.
Proof.
  induction s as [|x t IH]; [reflexivity|].
  destruct t as [|y t]; [simpl; now rewrite andb_false_r|].
  rewrite collapse_cons. destruct ((x =? c) && (y =? c))%N eqn:E; [exact IH|].
  destruct (collapse_head c y t) as [r Hr]. rewrite Hr in IH |- *.
  rewrite contains_miss; [exact IH|]. rewrite pair_eqb. exact E.
Qed.

Lemma squeeze_collapse c fuel s :
  (length s <= fuel)%nat -> squeeze fuel c s = collapse c s.
Proof.
  revert s. induction fuel as [|fuel IH]; intros s Hs.
  - destruct s; [reflexivity|simpl in Hs; lia].
  - cbn [squeeze]. destruct (contains [c; c] s) eqn:E.
    + rewrite IH, collapse_replace; [reflexivity|].
      apply replace_shortens in E. lia.
    + symmetry. apply collapse_fixed, E.
Qed.

Lemma collapse_nil_inv c s : collapse c s = [] -> s = [].
Proof.
  destruct s as [|x t]; [reflexivity|].
  destruct (collapse_head c x t) as [r ->]. discriminate.
Qed.

Lemma collapse_forallb f c s :
  forallb f s = true -> forallb f (collapse c s) = true.
Proof.
  induction s as [|x t IH]; [reflexivity|]. intros H.
  destruct t as [|y t]; [exact H|]. rewrite collapse_cons.
  cbn [forallb] in H. apply andb_true_iff in H as [Hx Ht].
  destruct ((x =? c) && (y =? c))%N; [exact (IH Ht)|].
  cbn [forallb]. rewrite Hx. exact (IH Ht).
Qed.

Lemma collapse_length c s : (length (collapse c s) <= length s)%nat.
Proof.
  induction s as [|x t IH]; [reflexivity|]. destruct t as [|y t]; [reflexivity|].
  rewrite collapse_cons. destruct ((x =? c) && (y =? c))%N; simpl in *; lia.
Qed.

(** Collapsing the runs of one character joins no two others. *)
Lemma collapse_keeps_no_pair c d s :
  contains [d; d] s = false -> contains [d; d] (collapse c s) = false.
Proof.
  induction s as [|x t IH]; [auto|]. intros H.
  destruct t as [|y t]; [exact H|]. rewrite collapse_cons.
  cbn [contains] in H. apply orb_false_iff in H as [H1 H2].
  destruct ((x =? c) && (y =? c))%N; [exact (IH H2)|].
  destruct (collapse_head c y t) as [r Hr]. specialize (IH H2). rewrite Hr in IH |- *.
  rewrite contains_miss; [exact IH|].
  rewrite pair_eqb. rewrite pair_eqb in H1. exact H1.
Qed.

Lemma startswith_take p n s :
  startswith p (take n s) = true -> startswith p s = true.
Proof.
  revert n s. induction p as [|a p IH]; intros n s; [reflexivity|].
  destruct s as [|x s]; [rewrite take_nil; auto|].
  destruct n as [|n]; [discriminate|]. cbn [take startswith].
  rewrite !andb_true_iff. intros [H1 H2]. eauto.
Qed.

Lemma contains_take p n s :
  contains p (take n s) = false \/ contains p s = true.
Proof.
  revert n. induction s as [|x s IH]; intros n.
  - rewrite take_nil. destruct (contains p []); auto.
  - destruct n as [|n].
    + destruct (contains p (take 0 (x :: s))) eqn:E; [|auto]. right.
      cbn [take contains] in E. rewrite orb_false_r in E.
      destruct p; [reflexivity|discriminate].
    + cbn [take contains].
      destruct (startswith p (x :: take n s)) eqn:E.
      * right. apply (startswith_take p (S n) (x :: s)) in E. rewrite E. reflexivity.
      * destruct (IH n) as [-> | ->]; [left; reflexivity|right; apply orb_true_r].
Qed.

Lemma slice_to_no_pair p stop s :
  contains p s = false -> contains p (slice_to stop s) = false.
Proof.
  intros H. unfold slice_to.
  destruct (0 <=? stop);
    match goal with |- contains _ (take ?n _) = _ =>
      destruct (contains_take p n s) as [E|E]; [exact E|congruence] end.
Qed.

Lemma forallb_take (f : N -> bool) n s :
  forallb f s = true -> forallb f (take n s) = true.
Proof.
  revert n. induction s as [|x s IH]; intros [|n]; try reflexivity.
  cbn [take forallb]. rewrite !andb_true_iff. intros [H1 H2]. auto.
Qed.

Lemma slice_to_forallb f stop s :
  forallb f s = true -> forallb f (slice_to stop s) = true.
Proof.
  intros H. unfold slice_to. destruct (0 <=? stop); apply forallb_take, H.
Qed.

Section Properties.
Variable unicode_alnum : N -> bool.

Local Abbreviation allowed := (allowed unicode_alnum).
Local Abbreviation not_allowed := (not_allowed unicode_alnum).

(** [re.sub] with a one-character class replaces character by
    character. *)
Lemma sub_not_allowed replacement s :
  Re.sub not_allowed (fun _ => replacement) s
  = flat_map (fun c => if allowed c then [c] else replacement) s.
Proof.
  induction s as [|c t IH]; [reflexivity|]. cbn [flat_map].
  destruct (allowed c) eqn:E.
  - rewrite Re.sub_head_miss, IH; [reflexivity|].
    unfold Sanitize.not_allowed. rewrite E. reflexivity.
  - rewrite (Re.sub_head_hit _ _ (c :: t) c 1); [|unfold Sanitize.not_allowed; rewrite E; reflexivity|simpl; lia].
    change (drop 1 (c :: t)) with t. rewrite IH. reflexivity.
Qed.

(** The name before the final cut. *)
Definition cleaned (filename replacement : pystr) : pystr :=
  collapse 32 (collapse 46
    (flat_map (fun c => if allowed c then [c] else replacement)
              (strip (basename filename)))).

Lemma sanitize_unfold filename replacement max_length :
  _sanitize_filename unicode_alnum filename replacement max_length
  = let name := if bool_decide (filename = []) then u "NONAME"
                else cleaned filename replacement in
    if max_length =? 0 then name else slice_to max_length name.
Proof.
  unfold _sanitize_filename, cleaned. cbv zeta.
  rewrite !squeeze_collapse, sub_not_allowed by reflexivity. reflexivity.
Qed.


Lemma cleaned_allowed filename :
  forallb allowed (cleaned filename (u "_")) = true.
Proof.
  unfold cleaned. do 2 apply collapse_forallb.
  apply forallb_forall. intros x (c & Hc & Hx)%in_flat_map.
  destruct (allowed c) eqn:E.
  - destruct Hx as [<- | []]. exact E.
  - destruct Hx as [<- | []]. reflexivity.
Qed.

(** X6.  The name [_extract_rtf] gets for a package (default
    replacement and length) is at most 200 characters long, has no two
    dots and no two spaces in a row, and is made of word characters,
    dots, hyphens and spaces only: no slash, backslash or control
    character survives. *)
Theorem sanitized_name_shape filename :
  let r := sanitized unicode_alnum filename in
  (length r <= 200)%nat
  /\ contains (u "..") r = false
  /\ contains (u "  ") r = false
  /\ forallb allowed r = true.
Proof.
  cbv zeta. unfold sanitized. rewrite sanitize_unfold. cbv zeta.
  change (200 =? 0) with false. cbv iota.
  change (u "..") with [46; 46]%N. change (u "  ") with [32; 32]%N.
  split; [|split; [|split]].
  - unfold slice_to. change (0 <=? 200) with true. cbv iota.
    rewrite length_take. lia.
  - apply slice_to_no_pair. case_bool_decide; [reflexivity|].
    unfold cleaned. apply collapse_keeps_no_pair, collapse_no_pair.
  - apply slice_to_no_pair. case_bool_decide; [reflexivity|].
    unfold cleaned. apply collapse_no_pair.
  - apply slice_to_forallb. case_bool_decide; [reflexivity|].
    apply cleaned_allowed.
Qed.

(** X7.  [NONAME] stands in for the empty file name only.  The
    sanitized name is empty exactly when the file name is not empty but
    nothing is left of its base name after stripping, as for a name
    that ends in a slash or is all spaces. *)
Theorem sanitized_name_empty_iff filename :
  sanitized unicode_alnum filename = []
  <-> filename <> [] /\ strip (basename filename) = [].
Proof.
  unfold sanitized. rewrite sanitize_unfold. cbv zeta.
  change (200 =? 0) with false. cbv iota.
  unfold slice_to. change (0 <=? 200) with true. cbv iota.
  case_bool_decide as Hf.
  - split; [discriminate|]. intros [H _]. contradiction.
  - unfold cleaned. split.
    + intros H. split; [exact Hf|].
      destruct (strip (basename filename)) as [|c t]; [reflexivity|exfalso].
      assert (Hne : exists x r,
                 collapse 32 (collapse 46
                   (flat_map (fun c => if allowed c then [c] else u "_") (c :: t)))
                 = x :: r).
      { cbn [flat_map].
        assert (exists x r, (if allowed c then [c] else u "_")
                            ++ flat_map (fun c => if allowed c then [c] else u "_") t
                            = x :: r) as (x & r & ->)
          by (destruct (allowed c); simpl; eauto).
        destruct (collapse_head 46 x r) as [r1 ->].
        destruct (collapse_head 32 x r1) as [r2 ->]. eauto. }
      destruct Hne as (x & r & Hne). rewrite Hne in H. discriminate.
    + intros [_ ->]. reflexivity.
Qed.

End Properties.

(** A name with a directory, a forbidden character, and runs. *)
Example sanitized_sample :
  sanitized (fun _ => false) (u "C:/tmp/../my  file<1>...doc ")
  = u "my file_1_.doc".
Proof. vm_compute. reflexivity. Qed.

End Sanitize.

(** ** Extracted files ([Oletools._extract_file]) *)

Module Extract.

(** [self._extracted_files]: description by file name. *)
Abbreviation files := (gmap pystr string).

(** [os.path.join] of [posixpath] for two components. *)
Definition path_join (a b : pystr) : pystr :=
  if startswith (u "/") b then b
  else if negb (truthy a) || endswith (u "/") a then a ++ b
  else a ++ u "/" ++ b.

Section WithCollaborators.
Variable working_directory : pystr.
(** [hashlib.sha256(data).hexdigest()] *)
Variable sha256_hexdigest : pybytes -> pystr.
(** The type [identify.fileinfo] reports for the data once it is
    written under the given name; [None] when creating the directory,
    writing the file or identifying it raised. *)
Variable stored_type : pystr -> pybytes -> option string.

Definition _extract_file (data : pybytes) (file_name : pystr) (description : string)
    (_extracted_files : files) : option pystr * files :=
  let file_name := take 8 (sha256_hexdigest data) ++ file_name in
  let file_path := path_join working_directory file_name in
  match stored_type file_name data with
  | Some ty =>
    if String.eqb ty "unknown" then (None, _extracted_files)
    else (Some file_path, <[file_name := description]> _extracted_files)
  | None => (None, _extracted_files)
  end.

End WithCollaborators.

End Extract.

(** ** Hex notation in OLE streams ([Oletools._extract_vb_hex]) *)

Module VbHex.

Definition hex_val (c : N) : option N :=
  if ((48 <=? c) && (c <=? 57))%N then Some (c - 48)%N
  else if ((65 <=? c) && (c <=? 70))%N then Some (c - 55)%N
  else if ((97 <=? c) && (c <=? 102))%N then Some (c - 87)%N
  else None.

(** [binascii.a2b_hex]: [None] for [binascii.Error] (odd length, or a
    character that is no hex digit). *)
Fixpoint a2b_hex (s : pybytes) : option pybytes :=
  match s with
  | [] => Some []
  | [_] => None
  | x :: y :: t =>
    hi ← hex_val x; lo ← hex_val y; rest ← a2b_hex t;
    Some ((16 * hi + lo)%N :: rest)
  end.

(** The [while] loop; [None] when [a2b_hex] raised.  The chunk loses
    four bytes a round, so as many rounds as it is long are enough. *)
Fixpoint hex_loop (fuel : nat) (decoded encodedchunk : pybytes) : option pybytes :=
  match fuel with
  | O => Some decoded
  | S k =>
    if bool_decide (encodedchunk = []) then Some decoded
    else
      d ← a2b_hex (Patterns.slice 2 4 encodedchunk);
      hex_loop k (decoded ++ d) (drop 4 encodedchunk)
  end.

Definition decode (encodedchunk : pybytes) : option pybytes :=
  hex_loop (length encodedchunk) [] encodedchunk.

Section WithCollaborators.
Variable working_directory : pystr.
Variable sha256_hexdigest : pybytes -> pystr.
Variable stored_type : pystr -> pybytes -> option string.

Definition _extract_vb_hex (encodedchunk : pybytes) (_extracted_files : Extract.files)
  : bool * Extract.files :=
  match decode encodedchunk with
  | None => (false, _extracted_files)
  | Some decoded =>
    (true,
     (Extract._extract_file working_directory sha256_hexdigest stored_type
        decoded (u ".hex.decoded")
        "Large hex encoded chunks detected during sample analysis"
        _extracted_files).2)
  end.

End WithCollaborators.

(** [VBS_HEX_RE]: [(?:&H[A-Fa-f0-9]{2}&H[A-Fa-f0-9]{2}){32,}] *)
Definition hex_digit : Regex.regex :=
  Regex.Class (fun c => ((65 <=? c) && (c <=? 70) || (97 <=? c) && (c <=? 102)
                         || (48 <=? c) && (c <=? 57))%N).

Definition amp_h : Regex.regex :=
  Regex.Cat (Regex.Lit 38) (Regex.Cat (Regex.Lit 72) (Regex.Cat hex_digit hex_digit)).

Fixpoint times (n : nat) (r : Regex.regex) : Regex.regex :=
  match n with
  | O => Regex.Eps
  | S k => Regex.Cat r (times k r)
  end.

Definition VBS_HEX_RE : Regex.regex :=
  Regex.Cat (times 32 (Regex.Cat amp_h amp_h)) (Regex.Star (Regex.Cat amp_h amp_h)).

(** *** The loop, group by group *)

(** A group of four bytes and the byte it stands for: only the last
    two bytes of the group are read. *)
Definition group_of (b : N) (g : pybytes) : Prop :=
  exists p q x y hi lo,
    g = [p; q; x; y] /\ hex_val x = Some hi /\ hex_val y = Some lo
    /\ b = (16 * hi + lo)%N.

Lemma hex_loop_nil fuel decoded : hex_loop fuel decoded [] = Some decoded.
Proof. destruct fuel; reflexivity. Qed.

Lemma hex_loop_step fuel decoded chunk :
  chunk <> [] ->
  hex_loop (S fuel) decoded chunk
  = d ← a2b_hex (Patterns.slice 2 4 chunk);
    hex_loop fuel (decoded ++ d) (drop 4 chunk).
Proof.
  intros H. cbn [hex_loop]. rewrite bool_decide_eq_false_2 by exact H. reflexivity.
Qed.

Lemma hex_loop_short fuel decoded tail :
  (length tail <= 2)%nat -> hex_loop fuel decoded tail = Some decoded.
Proof.
  destruct fuel as [|k]; [reflexivity|].
  destruct tail as [|a [|b [|c t]]]; intros H1; simpl in H1; try lia.
  - apply hex_loop_nil.
  - rewrite hex_loop_step by discriminate.
    change (Patterns.slice 2 4 [a]) with (@nil N). change (drop 4 [a]) with (@nil N).
    cbn [a2b_hex mbind option_bind]. rewrite hex_loop_nil, app_nil_r. reflexivity.
  - rewrite hex_loop_step by discriminate.
    change (Patterns.slice 2 4 [a; b]) with (@nil N). change (drop 4 [a; b]) with (@nil N).
    cbn [a2b_hex mbind option_bind]. rewrite hex_loop_nil, app_nil_r. reflexivity.
Qed.

Lemma hex_loop_three fuel decoded a b c : hex_loop (S fuel) decoded [a; b; c] = None.
Proof. rewrite hex_loop_step by discriminate. reflexivity. Qed.

Lemma hex_loop_group fuel decoded p q x y rest :
  hex_loop (S fuel) decoded (p :: q :: x :: y :: rest)
  = hi ← hex_val x; lo ← hex_val y;
    hex_loop fuel (decoded ++ [(16 * hi + lo)%N]) rest.
Proof.
  rewrite hex_loop_step by discriminate.
  change (Patterns.slice 2 4 (p :: q :: x :: y :: rest)) with [x; y].
  change (drop 4 (p :: q :: x :: y :: rest)) with rest.
  cbn [a2b_hex mbind option_bind].
  destruct (hex_val x); [|reflexivity]. destruct (hex_val y); reflexivity.
Qed.

Lemma hex_loop_acc fuel decoded chunk :
  hex_loop fuel decoded chunk = (fun d => decoded ++ d) <$> hex_loop fuel [] chunk.
Proof.
  revert decoded chunk. induction fuel as [|fuel IH]; intros decoded chunk.
  - simpl. rewrite app_nil_r. reflexivity.
  - destruct chunk as [|a [|b [|c [|d rest]]]].
    + simpl. rewrite app_nil_r. reflexivity.
    + rewrite !hex_loop_short by (cbn [length]; lia).
      simpl. rewrite app_nil_r. reflexivity.
    + rewrite !hex_loop_short by (cbn [length]; lia).
      simpl. rewrite app_nil_r. reflexivity.
    + rewrite !hex_loop_three. reflexivity.
    + rewrite !hex_loop_group. destruct (hex_val c) as [hi|]; [|reflexivity].
      destruct (hex_val d) as [lo|]; [|reflexivity]. cbn [mbind option_bind].
      rewrite (IH (decoded ++ _)), (IH ([] ++ _)).
      destruct (hex_loop fuel [] rest); [|reflexivity]. simpl.
      rewrite <- app_assoc. reflexivity.
Qed.

Lemma decode_groups_bounded fuel chunk :
  (length chunk <= fuel)%nat ->
  forall decoded,
    hex_loop fuel [] chunk = Some decoded <->
    exists groups tail,
      chunk = concat groups ++ tail /\ (length tail <= 2)%nat
      /\ Forall2 group_of decoded groups.
Proof.
  revert chunk. induction fuel as [|fuel IH]; intros chunk Hlen decoded.
  - destruct chunk; [|simpl in Hlen; lia]. simpl. split.
    + intros [= <-]. exists [], []. simpl. auto with lia.
    + intros (groups & tail & E & _ & HF). symmetry in E.
      apply app_eq_nil in E as [E _]. destruct HF as [|b g]; [reflexivity|].
      destruct H as (p & q & x & y & hi & lo & -> & _). discriminate.
  - destruct chunk as [|a [|b [|c [|d rest]]]].
    + rewrite hex_loop_nil. split.
      * intros [= <-]. exists [], []. simpl. auto with lia.
      * intros (groups & tail & E & _ & HF). symmetry in E.
        apply app_eq_nil in E as [E _]. destruct HF as [|b g]; [reflexivity|].
        destruct H as (p & q & x & y & hi & lo & -> & _). discriminate.
    + rewrite hex_loop_short by (cbn [length]; lia). split.
      * intros [= <-]. exists [], [a]. simpl. auto with lia.
      * intros (groups & tail & E & _ & HF). destruct HF as [|b g]; [reflexivity|].
        destruct H as (p & q & x & y & hi & lo & -> & _). discriminate.
    + rewrite hex_loop_short by (cbn [length]; lia). split.
      * intros [= <-]. exists [], [a; b]. simpl. auto with lia.
      * intros (groups & tail & E & _ & HF). destruct HF as [|b' g]; [reflexivity|].
        destruct H as (p & q & x & y & hi & lo & -> & _). discriminate.
    + rewrite hex_loop_three. split; [discriminate|].
      intros (groups & tail & E & Ht & HF). exfalso. destruct HF as [|b' g].
      * simpl in E. subst tail. simpl in Ht. lia.
      * destruct H as (p & q & x & y & hi & lo & -> & _). discriminate.
    + rewrite hex_loop_group. split.
      * destruct (hex_val c) as [hi|] eqn:Hc; [|discriminate].
        destruct (hex_val d) as [lo|] eqn:Hd; [|discriminate]. cbn [mbind option_bind].
        rewrite hex_loop_acc.
        destruct (hex_loop fuel [] rest) as [d'|] eqn:Hr; [|discriminate].
        intros [= <-]. apply IH in Hr as (groups & tail & -> & Ht & HF); [|simpl in Hlen; lia].
        exists ([a; b; c; d] :: groups), tail. split; [reflexivity|]. split; [exact Ht|].
        constructor; [|exact HF]. exists a, b, c, d, hi, lo. auto.
      * intros (groups & tail & E & Ht & HF). destruct HF as [|b' g bs gs Hg HF].
        { simpl in E. subst tail. simpl in Ht. lia. }
        destruct Hg as (p & q & x & y & hi & lo & -> & Hx & Hy & ->).
        injection E as <- <- <- <- ->. rewrite Hx, Hy. cbn [mbind option_bind].
        rewrite hex_loop_acc.
        assert (Hr : hex_loop fuel [] (concat gs ++ tail) = Some bs).
        { apply IH; [simpl in Hlen; lia|]. exists gs, tail. auto. }
        rewrite Hr. reflexivity.
Qed.

Lemma decode_groups chunk decoded :
  decode chunk = Some decoded <->
  exists groups tail,
    chunk = concat groups ++ tail /\ (length tail <= 2)%nat
    /\ Forall2 group_of decoded groups.
Proof. apply decode_groups_bounded. reflexivity. Qed.

(** X8.  What [_extract_vb_hex] decodes, for any chunk: it succeeds
    exactly when the chunk is a sequence of four-byte groups, each
    ending in two hex digits, followed by at most two more bytes; the
    decoded bytes are the values of those digit pairs.  The first two
    bytes of a group are never read, and a trailing rest of three bytes
    makes the conversion fail. *)
Theorem vb_hex_decode_iff chunk decoded :
  decode chunk = Some decoded <->
  exists groups tail,
    chunk = concat groups ++ tail /\ (length tail <= 2)%nat
    /\ Forall2 group_of decoded groups.
Proof.
  unfold decode. apply decode_groups_bounded. reflexivity.
Qed.

(** *** What [re.findall(VBS_HEX_RE, data)] hands over *)

Lemma lit_inv c s : Regex.matches N.eqb (Regex.Lit c) s -> s = [c].
Proof. intros H. inversion H as [|? x E| | | | | |]; subst. apply N.eqb_eq in E as ->. reflexivity. Qed.

Lemma hex_digit_inv s :
  Regex.matches N.eqb hex_digit s -> exists x v, s = [x] /\ hex_val x = Some v.
Proof.
  intros H. inversion H as [| |? x E| | | | |]; subst. exists x.
  unfold hex_val.
  destruct ((48 <=? x) && (x <=? 57))%N; [eauto|].
  destruct ((65 <=? x) && (x <=? 70))%N; [eauto|].
  destruct ((97 <=? x) && (x <=? 102))%N; [eauto|]. discriminate.
Qed.

Lemma amp_h_inv s : Regex.matches N.eqb amp_h s -> exists b, group_of b s.
Proof.
  unfold amp_h.
  intros (s1 & ? & -> & ->%lit_inv
          & (s2 & ? & -> & ->%lit_inv
             & (s3 & s4 & -> & (x & hi & -> & Hx)%hex_digit_inv
                & (y & lo & -> & Hy)%hex_digit_inv)%Regex.cat_inv)%Regex.cat_inv)%Regex.cat_inv.
  exists (16 * hi + lo)%N, 38%N, 72%N, x, y, hi, lo. auto.
Qed.

Lemma pair_inv s :
  Regex.matches N.eqb (Regex.Cat amp_h amp_h) s ->
  exists b1 b2 g1 g2, s = g1 ++ g2 /\ group_of b1 g1 /\ group_of b2 g2.
Proof.
  intros (g1 & g2 & -> & [b1 H1]%amp_h_inv & [b2 H2]%amp_h_inv)%Regex.cat_inv.
  exists b1, b2, g1, g2. auto.
Qed.

Lemma times_groups n s :
  Regex.matches N.eqb (times n (Regex.Cat amp_h amp_h)) s ->
  exists d groups,
    s = concat groups /\ Forall2 group_of d groups /\ length d = (2 * n)%nat.
Proof.
  revert s. induction n as [|n IH]; intros s H; cbn [times] in H.
  - inversion H; subst. exists [], []. auto.
  - apply Regex.cat_inv in H
      as (s1 & s2 & -> & (b1 & b2 & g1 & g2 & -> & H1 & H2)%pair_inv
          & (d & groups & -> & HF & Hd)%IH).
    exists (b1 :: b2 :: d), (g1 :: g2 :: groups). split; [|split].
    + simpl. rewrite <- app_assoc. reflexivity.
    + auto.
    + simpl. lia.
Qed.

Lemma star_groups s :
  Regex.matches N.eqb (Regex.Star (Regex.Cat amp_h amp_h)) s ->
  exists d groups, s = concat groups /\ Forall2 group_of d groups.
Proof.
  intros H. remember (Regex.Star (Regex.Cat amp_h amp_h)) as r eqn:Er.
  induction H as [| | | | | | |r0 s1 s2 H1 _ H2 IH2]; try discriminate.
  - exists [], []. auto.
  - injection Er as ->.
    destruct (pair_inv _ H1) as (b1 & b2 & g1 & g2 & -> & Hg1 & Hg2).
    destruct (IH2 eq_refl) as (d & groups & -> & HF).
    exists (b1 :: b2 :: d), (g1 :: g2 :: groups). split; [|auto].
    simpl. rewrite <- app_assoc. reflexivity.
Qed.

Lemma groups_length d groups :
  Forall2 group_of d groups -> length (concat groups) = (4 * length d)%nat.
Proof.
  induction 1 as [|b g d groups (p & q & x & y & hi & lo & -> & _) _ IH]; [reflexivity|].
  simpl in *. lia.
Qed.

Lemma language_groups chunk :
  Regex.matches N.eqb VBS_HEX_RE chunk ->
  exists d groups,
    chunk = concat groups /\ Forall2 group_of d groups /\ (64 <= length d)%nat.
Proof.
  unfold VBS_HEX_RE.
  intros (s1 & s2 & -> & (d1 & gs1 & -> & HF1 & Hd1)%times_groups
          & (d2 & gs2 & -> & HF2)%star_groups)%Regex.cat_inv.
  exists (d1 ++ d2), (gs1 ++ gs2). split; [|split].
  - rewrite concat_app. reflexivity.
  - apply Forall2_app; assumption.
  - rewrite length_app. lia.
Qed.

(** A full match, by derivatives. *)
Lemma full_match_sound s r :
  Regex.nullable (fold_left (fun r x => Regex.deriv N.eqb x r) s r) = true ->
  Regex.matches N.eqb r s.
Proof.
  revert r. induction s as [|x s IH]; intros r; cbn [fold_left].
  - apply Regex.nullable_spec.
  - intros H. apply Regex.deriv_spec, IH, H.
Qed.

Section Caller.
Variable working_directory : pystr.
Variable sha256_hexdigest : pybytes -> pystr.
Variable stored_type : pystr -> pybytes -> option string.

(** X9.  Every chunk [_process_ole_file] takes from
    [re.findall(VBS_HEX_RE, data)] converts: [_extract_vb_hex] returns
    [True] on it, so its [False] branch is never taken from there, and
    the decoded data has one byte for each four bytes of the chunk, at
    least 64. *)
Theorem hex_chunks_always_decode chunk _extracted_files :
  Regex.matches N.eqb VBS_HEX_RE chunk ->
  exists decoded,
    decode chunk = Some decoded
    /\ (_extract_vb_hex working_directory sha256_hexdigest stored_type
          chunk _extracted_files).1 = true
    /\ (64 <= length decoded)%nat
    /\ length chunk = (4 * length decoded)%nat.
Proof.
  intros (d & groups & -> & HF & Hd)%language_groups. exists d.
  assert (Hdec : decode (concat groups) = Some d).
  { apply decode_groups. exists groups, []. rewrite app_nil_r. simpl. auto with lia. }
  unfold _extract_vb_hex. rewrite Hdec. cbn [fst].
  split; [reflexivity|]. split; [reflexivity|]. split; [exact Hd|].
  apply groups_length, HF.
Qed.

End Caller.

(** Sixty-four groups [&H2a]. *)
Definition sample_chunk : pybytes := concat (replicate 64 (u "&H2a")).

Lemma hex_chunks_always_decode_witness :
  Regex.matches N.eqb VBS_HEX_RE sample_chunk
  /\ exists decoded,
       decode sample_chunk = Some decoded
       /\ (_extract_vb_hex (u "/tmp") (fun _ => u "0123456789abcdef")
             (fun _ _ => Some "text/plain"%string) sample_chunk ∅).1 = true
       /\ (64 <= length decoded)%nat
       /\ length sample_chunk = (4 * length decoded)%nat.
Proof.
  assert (H : Regex.matches N.eqb VBS_HEX_RE sample_chunk)
    by (apply full_match_sound; vm_compute; reflexivity).
  split; [exact H|].
  exact (hex_chunks_always_decode (u "/tmp") (fun _ => u "0123456789abcdef")
           (fun _ _ => Some "text/plain"%string) sample_chunk ∅ H).
Defined.

Example decode_sample :
  decode (u "&H4d&H5axx41\\") = Some (u "MZA").
Proof. vm_compute. reflexivity. Qed.

End VbHex.

(** ** DDE links ([Oletools._check_for_dde_links], [_process_dde_links]) *)

Module Dde.

Definition DDE_SUS_KEYWORDS : list pystr :=
  [u "powershell.exe"; u "cmd.exe"; u "webclient"; u "downloadstring";
   u "mshta.exe"; u "scrobj.dll"; u "bitstransfer"; u "cscript.exe";
   u "wscript.exe"].

(** The line boundaries of [str.splitlines]. *)
Definition is_linebreak (c : N) : bool :=
  bool_decide (c ∈ [10; 11; 12; 13; 28; 29; 30; 133; 8232; 8233]%N).

(** [s.splitlines()]: [cur] is the line being read, last character
    first; [after_cr] says that the last character was a carriage
    return, which takes a following line feed with it. *)
Fixpoint splitlines_from (after_cr : bool) (cur s : pystr) : list pystr :=
  match s with
  | [] => if truthy cur then [rev cur] else []
  | c :: t =>
    if after_cr && (c =? 10)%N then splitlines_from false cur t
    else if is_linebreak c then rev cur :: splitlines_from (c =? 13)%N [] t
    else splitlines_from false (c :: cur) t
  end.

Definition splitlines (s : pystr) : list pystr := splitlines_from false [] s.

(** The result section, as the calls that build it: [add_line],
    [add_tag] with the type [file.ole.dde_link], [set_heuristic]. *)
Record section := {
  lines : list pystr;
  tags : list pystr;
  heuristic : option Z
}.

(** A call of [_extract_file]: data and file name suffix. *)
Definition extract_call : Type := pybytes * pystr.

Inductive exn := ValueError | UnicodeEncodeError.

(** The variables of the loop, the calls of [_extract_file] so far, and
    the exception that ended the loop, if one did. *)
Record loop_state := {
  dde_lines : list pystr;
  dde_tags : list pystr;
  dde_extracted : bool;
  looksbad : bool;
  extract_calls : list extract_call;
  raised : option exn
}.

Definition clean (link_text : pystr) : pystr :=
  Sanitize.replace [92; 34]%N [34]%N
    (Sanitize.replace [92; 92]%N [92]%N (Sanitize.strip link_text)).

Section WithCollaborators.
(** [str.lower] *)
Variable str_lower : pystr -> pystr.
(** [str.encode()]: [None] for [UnicodeEncodeError]. *)
Variable encode : pystr -> option pybytes.
(** [msodde.process_file]: [None] when it raised. *)
Variable process_file : option pystr.

Definition suspicious (link_text : pystr) : bool :=
  existsb (fun x => contains x (str_lower link_text)) DDE_SUS_KEYWORDS.

Definition visit_line (links_text : pystr) (st : loop_state) (line : pystr) : loop_state :=
  if bool_decide (raised st <> None) then st
  else if Urllib.has 32 line then
    match Urllib.partition 32 (Sanitize.strip line) with
    | (_, None) =>
      {| dde_lines := dde_lines st; dde_tags := dde_tags st;
         dde_extracted := dde_extracted st; looksbad := looksbad st;
         extract_calls := extract_calls st; raised := Some ValueError |}
    | (link_type, Some link_text) =>
      let link_type := Sanitize.strip link_type in
      let link_text := clean link_text in
      match encode links_text with
      | None =>
        {| dde_lines := dde_lines st ++ [u "Type: " ++ link_type; u "Text: " ++ link_text;
                                        [nl; nl]];
           dde_tags := dde_tags st;
           dde_extracted := true; looksbad := looksbad st;
           extract_calls := extract_calls st; raised := Some UnicodeEncodeError |}
      | Some data =>
        {| dde_lines := dde_lines st ++ [u "Type: " ++ link_type; u "Text: " ++ link_text;
                                        [nl; nl]];
           dde_tags := dde_tags st ++ [link_text];
           dde_extracted := true;
           looksbad := looksbad st || suspicious link_text;
           extract_calls := extract_calls st ++ [(data, u ".ddelinks")];
           raised := None |}
      end
    end
  else st.

Definition run_loop (links_text : pystr) (data : pybytes) : loop_state :=
  fold_left (visit_line links_text) (splitlines links_text)
    {| dde_lines := []; dde_tags := []; dde_extracted := false; looksbad := false;
       extract_calls := [(data, u ".ddelinks.original")]; raised := None |}.

(** The calls of [_extract_file] made, and what the call does. *)
Definition _process_dde_links (links_text : pystr)
  : list extract_call * outcome exn (option section) :=
  match encode links_text with
  | None => ([], Raised UnicodeEncodeError)
  | Some data =>
    let st := run_loop links_text data in
    (extract_calls st,
     match raised st with
     | Some e => Raised e
     | None =>
       if dde_extracted st
       then Returned (Some {| lines := dde_lines st; tags := dde_tags st;
                              heuristic := Some (if looksbad st then 16 else 15) |})
       else Returned None
     end)
  end.

Definition _check_for_dde_links : option section :=
  match process_file with
  | None => None
  | Some links_text =>
    let links_text := Sanitize.strip links_text in
    if truthy links_text then
      match (_process_dde_links links_text).2 with
      | Returned r => r
      | Raised _ => None
      end
    else None
  end.

(** *** The loop in closed form *)

(** A line the loop reads as a link. *)
Definition is_link (line : pystr) : bool := Urllib.has 32 line.

(** A line with a space at its ends only: its split gives one item
    where the assignment wants two. *)
Definition unsplittable (line : pystr) : bool :=
  Urllib.has 32 line && negb (Urllib.has 32 (Sanitize.strip line)).

Definition link_text_of (line : pystr) : pystr :=
  match Urllib.partition 32 (Sanitize.strip line) with
  | (_, Some link_text) => clean link_text
  | (_, None) => []
  end.

Definition link_type_of (line : pystr) : pystr :=
  Sanitize.strip (Urllib.partition 32 (Sanitize.strip line)).1.

Lemma partition_has c s :
  Urllib.has c s = true <-> exists t, (Urllib.partition c s).2 = Some t.
Proof.
  induction s as [|x s IH]; simpl.
  - split; [discriminate|]. intros [t [=]].
  - destruct (N.eqb_spec x c) as [->|Hne]; simpl.
    + split; [eauto|reflexivity].
    + rewrite IH. destruct (Urllib.partition c s) as [a b]. reflexivity.
Qed.

Definition body_of (line : pystr) : list pystr :=
  [u "Type: " ++ link_type_of line; u "Text: " ++ link_text_of line; [nl; nl]].

(** The state after the lines [ls], none of which is unsplittable. *)
Definition after (data : pybytes) (ls : list pystr) (st : loop_state) : loop_state :=
  let links := filter (fun line => is_link line = true) ls in
  {| dde_lines := dde_lines st ++ flat_map body_of links;
     dde_tags := dde_tags st ++ map link_text_of links;
     dde_extracted := dde_extracted st || truthy links;
     looksbad := looksbad st || existsb suspicious (map link_text_of links);
     extract_calls := extract_calls st ++ map (fun _ => (data, u ".ddelinks")) links;
     raised := None |}.

Lemma visit_link links_text data st line :
  encode links_text = Some data -> raised st = None ->
  is_link line = true -> unsplittable line = false ->
  visit_line links_text st line
  = {| dde_lines := dde_lines st ++ body_of line;
       dde_tags := dde_tags st ++ [link_text_of line];
       dde_extracted := true;
       looksbad := looksbad st || suspicious (link_text_of line);
       extract_calls := extract_calls st ++ [(data, u ".ddelinks")];
       raised := None |}.
Proof.
  intros He Hr Hl Hu. unfold visit_line, unsplittable, is_link in *.
  rewrite Hr, Hl in *. cbn [andb] in Hu. apply negb_false_iff in Hu.
  rewrite bool_decide_eq_false_2 by (intros H; apply H; reflexivity).
  unfold body_of, link_type_of, link_text_of.
  apply partition_has in Hu as [t Ht].
  destruct (Urllib.partition 32 (Sanitize.strip line)) as [a b]. simpl in Ht. subst b.
  rewrite He. reflexivity.
Qed.

Lemma visit_other links_text st line :
  is_link line = false -> visit_line links_text st line = st.
Proof.
  intros Hl. unfold visit_line, is_link in *. rewrite Hl.
  destruct (bool_decide _); reflexivity.
Qed.

Lemma visit_raised links_text st line e :
  raised st = Some e -> visit_line links_text st line = st.
Proof.
  intros Hr. unfold visit_line. rewrite Hr.
  rewrite bool_decide_eq_true_2 by discriminate. reflexivity.
Qed.

Lemma loop_raised links_text ls st e :
  raised st = Some e -> fold_left (visit_line links_text) ls st = st.
Proof.
  intros Hr. induction ls as [|line ls IH]; [reflexivity|]. cbn [fold_left].
  rewrite (visit_raised _ _ _ e Hr). exact IH.
Qed.

Lemma visit_unsplittable links_text st line :
  raised st = None -> unsplittable line = true ->
  raised (visit_line links_text st line) = Some ValueError.
Proof.
  intros Hr Hu. unfold visit_line, unsplittable in *.
  apply andb_true_iff in Hu as [Hl Hu]. apply negb_true_iff in Hu.
  rewrite Hr, Hl. rewrite bool_decide_eq_false_2 by (intros H; apply H; reflexivity).
  destruct (Urllib.partition 32 (Sanitize.strip line)) as [a [t|]] eqn:E; [|reflexivity].
  assert (H : Urllib.has 32 (Sanitize.strip line) = true)
    by (apply partition_has; exists t; rewrite E; reflexivity).
  congruence.
Qed.

Lemma loop_after links_text data ls st :
  encode links_text = Some data -> raised st = None ->
  existsb unsplittable ls = false ->
  fold_left (visit_line links_text) ls st = after data ls st.
Proof.
  intros He. revert st. induction ls as [|line ls IH]; intros st Hr Hu.
  - unfold after. destruct st as [l t x b c r]. simpl in *. subst r.
    rewrite !app_nil_r, !orb_false_r. reflexivity.
  - cbn [existsb] in Hu. apply orb_false_iff in Hu as [Hu1 Hu2]. cbn [fold_left].
    destruct (is_link line) eqn:Hl.
    + rewrite (visit_link _ data) by assumption. rewrite IH by (try reflexivity; exact Hu2).
      unfold after. rewrite filter_cons_True by exact Hl.
      cbn [dde_lines dde_tags dde_extracted looksbad extract_calls raised
           flat_map map existsb truthy].
      f_equal.
      * rewrite <- app_assoc. reflexivity.
      * rewrite <- app_assoc. reflexivity.
      * rewrite orb_true_r. reflexivity.
      * rewrite orb_assoc. reflexivity.
      * rewrite <- app_assoc. reflexivity.
    + rewrite visit_other by exact Hl. rewrite IH by assumption.
      unfold after. rewrite filter_cons_False by congruence. reflexivity.
Qed.

Lemma loop_raises links_text data ls st :
  encode links_text = Some data -> raised st = None ->
  existsb unsplittable ls = true ->
  raised (fold_left (visit_line links_text) ls st) = Some ValueError.
Proof.
  intros He. revert st. induction ls as [|line ls IH]; intros st Hr Hu; [discriminate|].
  cbn [existsb] in Hu. cbn [fold_left]. destruct (unsplittable line) eqn:Hl.
  - rewrite (loop_raised _ _ _ ValueError); apply visit_unsplittable; assumption.
  - cbn [orb] in Hu. apply IH; [|exact Hu]. destruct (is_link line) eqn:Hk.
    + rewrite (visit_link _ data) by assumption. reflexivity.
    + rewrite visit_other by exact Hk. exact Hr.
Qed.

(** The section for the links of a text. *)
Definition section_of (links_text : pystr) : section :=
  let links := filter (fun line => is_link line = true) (splitlines links_text) in
  {| lines := flat_map body_of links;
     tags := map link_text_of links;
     heuristic :=
       Some (if existsb suspicious (map link_text_of links) then 16 else 15) |}.

Lemma truthy_filter_link ls :
  truthy (filter (fun line => is_link line = true) ls) = existsb is_link ls.
Proof.
  induction ls as [|line ls IH]; [reflexivity|]. cbn [existsb].
  destruct (is_link line) eqn:E.
  - rewrite filter_cons_True by exact E. reflexivity.
  - rewrite filter_cons_False by congruence. exact IH.
Qed.

Lemma process_dde_links_result links_text data :
  encode links_text = Some data ->
  (_process_dde_links links_text).2
  = if existsb unsplittable (splitlines links_text) then Raised ValueError
    else if existsb is_link (splitlines links_text)
         then Returned (Some (section_of links_text))
         else Returned None.
Proof.
  intros He. unfold _process_dde_links. rewrite He. cbn [snd]. unfold run_loop.
  destruct (existsb unsplittable (splitlines links_text)) eqn:Hu.
  - rewrite (loop_raises _ data) by (try reflexivity; assumption). reflexivity.
  - rewrite (loop_after _ data) by (try reflexivity; assumption).
    unfold after. cbn. rewrite truthy_filter_link.
    destruct (existsb is_link (splitlines links_text)); reflexivity.
Qed.

(** X10.  [_check_for_dde_links] gives a section exactly when
    [msodde] returned a text that, stripped, can be encoded, has a line
    with a space, and has no line whose only spaces are at its ends.
    The section then has one tag and three body lines for each line
    with a space, in order, and heuristic 16 when the lower-cased text
    of one of the links holds a suspicious keyword, 15 otherwise.  One
    line of the second kind ([line.strip().split(" ", 1)] gives a
    single item) loses the links of all the other lines. *)
Theorem dde_links_reported_iff sec :
  _check_for_dde_links = Some sec <->
  exists raw data,
    process_file = Some raw
    /\ encode (Sanitize.strip raw) = Some data
    /\ existsb is_link (splitlines (Sanitize.strip raw)) = true
    /\ existsb unsplittable (splitlines (Sanitize.strip raw)) = false
    /\ sec = section_of (Sanitize.strip raw).
Proof.
  unfold _check_for_dde_links. destruct process_file as [raw|].
  2: { split; [discriminate|]. intros (? & ? & [=] & _). }
  cbv zeta. set (t := Sanitize.strip raw). split.
  - destruct (truthy t) eqn:Ht; [|discriminate].
    destruct (encode t) as [data|] eqn:He.
    + rewrite (process_dde_links_result t data He).
      destruct (existsb unsplittable (splitlines t)) eqn:Hu; [discriminate|].
      destruct (existsb is_link (splitlines t)) eqn:Hl; [|discriminate].
      intros [= <-]. exists raw, data. fold t. auto.
    + unfold _process_dde_links. rewrite He. discriminate.
  - intros (raw' & data & [= <-] & He & Hl & Hu & ->). fold t in He, Hl, Hu |- *.
    assert (Ht : truthy t = true) by (destruct t; [discriminate|reflexivity]).
    rewrite Ht, (process_dde_links_result t data He), Hu, Hl. reflexivity.
Qed.

Lemma visit_calls links_text data st line :
  encode links_text = Some data ->
  Forall (fun call => call.1 = data) (extract_calls st) ->
  Forall (fun call => call.1 = data) (extract_calls (visit_line links_text st line)).
Proof.
  intros He H. unfold visit_line. destruct (bool_decide _); [exact H|].
  destruct (Urllib.has 32 line); [|exact H].
  destruct (Urllib.partition 32 (Sanitize.strip line)) as [a [t|]]; [|exact H].
  rewrite He. cbn. apply Forall_app. split; [exact H|]. constructor; [reflexivity|constructor].
Qed.

(** X11.  Every file [_process_dde_links] hands to [_extract_file],
    also the one described as the tweaked link, holds the encoded text
    it was given, unchanged: the cleaned link text goes to the section
    only. *)
Theorem dde_extracts_original_text links_text call :
  call ∈ (_process_dde_links links_text).1 ->
  encode links_text = Some call.1.
Proof.
  unfold _process_dde_links. destruct (encode links_text) as [data|] eqn:He.
  2: { intros H. inversion H. }
  cbn [fst]. unfold run_loop. intros H.
  assert (HF : Forall (fun call => call.1 = data)
                 (extract_calls
                    (fold_left (visit_line links_text) (splitlines links_text)
                       {| dde_lines := []; dde_tags := []; dde_extracted := false;
                          looksbad := false;
                          extract_calls := [(data, u ".ddelinks.original")];
                          raised := None |}))).
  { generalize (splitlines links_text). intros ls.
    set (st := {| dde_lines := [] |}).
    assert (H0 : Forall (fun call => call.1 = data) (extract_calls st))
      by (constructor; [reflexivity|constructor]).
    clearbody st. clear H. revert st H0.
    induction ls as [|line ls IH]; intros st H0; [exact H0|].
    cbn [fold_left]. apply IH, visit_calls; assumption. }
  rewrite Forall_forall in HF. rewrite (HF _ H). reflexivity.
Qed.

End WithCollaborators.

Lemma dde_extracts_original_text_witness :
  ((u "DDEAUTO cmd.exe /k calc", u ".ddelinks")
   ∈ (_process_dde_links ascii_lower Some (u "DDEAUTO cmd.exe /k calc")).1)
  /\ Some (u "DDEAUTO cmd.exe /k calc") = Some (u "DDEAUTO cmd.exe /k calc").
Proof.
  assert (H : (u "DDEAUTO cmd.exe /k calc", u ".ddelinks")
              ∈ (_process_dde_links ascii_lower Some (u "DDEAUTO cmd.exe /k calc")).1)
    by (vm_compute; apply list_elem_of_further, list_elem_of_here).
  split; [exact H|].
  exact (dde_extracts_original_text ascii_lower Some _ _ H).
Defined.

(** Two links and, between them, a line that cannot be split. *)
Example dde_sample_lost :
  _check_for_dde_links ascii_lower Some
    (Some (u "DDEAUTO cmd.exe /k calc" ++ [nl] ++ u "DDE " ++ [nl] ++ u "DDE a b"))
  = None.
Proof. vm_compute. reflexivity. Qed.

Example dde_sample_found :
  heuristic <$> _check_for_dde_links ascii_lower Some
                  (Some (u "DDEAUTO cmd.exe /k calc" ++ [nl] ++ u "DDE a b"))
  = Some (Some 16).
Proof. vm_compute. reflexivity. Qed.

End Dde.

(** ** ActiveMime parts of MHTML documents ([Oletools._rip_mhtml]) *)

Module Mhtml.

(** The two kinds of value the comparison of [_rip_mhtml] meets.  A
    [bytes] object and a [str] object are never equal. *)
Inductive pyobj :=
| PyBytes (b : pybytes)
| PyStr (s : pystr).

Definition py_eq (a b : pyobj) : bool :=
  match a, b with
  | PyBytes x, PyBytes y => bool_decide (x = y)
  | PyStr x, PyStr y => bool_decide (x = y)
  | _, _ => false
  end.

(** A part of the message: [get_content_type()],
    [get_payload(decode=True)], [get_filename(failobj="")]. *)
Record part := {
  content_type : pystr;
  payload : pybytes;
  filename : pystr
}.

(** The lines added to the section and the calls of [_extract_file]. *)
Record state := {
  body : list pystr;
  extract_calls : list (pybytes * pystr)
}.

Section WithCollaborators.
(** [email.message_from_bytes(data).walk()] *)
Variable walk : pybytes -> list part.
(** [zlib.decompress]: [None] when it raised. *)
Variable decompress : pybytes -> option pybytes.

Definition visit_part (st : state) (p : part) : state :=
  if bool_decide (content_type p = u "application/x-mso") then
    let part_data := payload p in
    if (0x32 <? len part_data)
       && py_eq (PyBytes (ascii_lower (take 10 part_data))) (PyStr (u "activemime"))
    then
      match decompress (drop 0x32 part_data) with
      | Some part_data =>
        {| body := body st ++ [filename p];
           extract_calls := extract_calls st ++ [(part_data, filename p)] |}
      | None => st
      end
    else st
  else st.

(** The calls of [_extract_file] and the lines of the section returned,
    if one is. *)
Definition _rip_mhtml (data : pybytes) : list (pybytes * pystr) * option (list pystr) :=
  let st := fold_left visit_part (walk data) {| body := []; extract_calls := [] |} in
  (extract_calls st, if existsb truthy (body st) then Some (body st) else None).

(** X12.  [_rip_mhtml] compares the first ten bytes of a part, a
    [bytes] object, with the [str] object ["activemime"]; the two are
    never equal, so for every document, whatever its parts hold, no
    part is decompressed or extracted and no section is returned. *)
Theorem rip_mhtml_extracts_nothing data : _rip_mhtml data = ([], None).
Proof.
  unfold _rip_mhtml.
  assert (H : forall parts st, fold_left visit_part parts st = st).
  { induction parts as [|p parts IH]; intros st; [reflexivity|].
    cbn [fold_left]. rewrite <- (IH st) at 2. f_equal.
    unfold visit_part. destruct (bool_decide _); [|reflexivity].
    cbn [py_eq]. rewrite andb_false_r. reflexivity. }
  rewrite H. reflexivity.
Qed.

End WithCollaborators.

End Mhtml.

(** ** Flash objects in OLE streams
    ([Oletools._verify_swf], [_extract_swf_objects], and the test of
    [_process_ole_file] that calls them) *)

Module Swf.

Definition CWS : pybytes := u "CWS".
Definition FWS : pybytes := u "FWS".

(** A binary file object: its content and the position of the next
    read. *)
Definition file : Type := pybytes * nat.

Definition seek (x : nat) (f : file) : file := (f.1, x).

(** [f.read(n)] for [0 <= n], and [f.read()]. *)
Definition read (n : nat) (f : file) : pybytes * file :=
  let r := take n (drop f.2 f.1) in (r, (f.1, (f.2 + length r)%nat)).

Definition read_all (f : file) : pybytes * file :=
  let r := drop f.2 f.1 in (r, (f.1, (f.2 + length r)%nat)).

(** [struct.unpack] with the formats [<b] and [<i]: [None] for
    [struct.error], raised when the buffer has not the size of the
    format. *)
Definition unpack_b (buf : pybytes) : option Z :=
  match buf with
  | [b] => Some (if (b <? 128)%N then Z.of_N b else Z.of_N b - 256)
  | _ => None
  end.

Definition unpack_i (buf : pybytes) : option Z :=
  match buf with
  | [a; b; c; d] =>
    let v := Z.of_N a + 256 * Z.of_N b + 65536 * Z.of_N c + 16777216 * Z.of_N d in
    Some (if v <? 2147483648 then v else v - 4294967296)
  | _ => None
  end.

Inductive exn := StructError.

Section WithCollaborators.
(** [zlib.decompress]: [None] when it raised. *)
Variable decompress : pybytes -> option pybytes.
(** [xxxswf.findSWF]: the offsets it reports. *)
Variable findSWF : pybytes -> list nat.

Definition _verify_swf (f : file) (x : nat) : outcome exn (option pybytes) :=
  let f := seek x f in
  let '(header, f) := read 3 f in
  let '(b, f) := read 1 f in
  match unpack_b b with
  | None => Raised StructError
  | Some version =>
    let '(i, f) := read 4 f in
    match unpack_i i with
    | None => Raised StructError
    | Some size =>
      let f := seek x f in
      if (version >? 40) || negb (bool_decide (header ∈ [CWS; FWS]))
      then Returned None
      else if bool_decide (header = FWS) then
        Returned (Some (if size <? 0 then (read_all f).1
                        else (read (Z.to_nat size) f).1))
      else if bool_decide (header = CWS) then
        let '(_, f) := read 3 f in
        let '(five, f) := read 5 f in
        match decompress (read_all f).1 with
        | Some z => Returned (Some (FWS ++ five ++ z))
        | None => Returned None
        end
      else Returned None
    end
  end.

(** The loop of [_extract_swf_objects]: the flag, the calls of
    [_extract_file], and whether [_verify_swf] raised. *)
Record loop_state := {
  swf_found : bool;
  extract_calls : list (pybytes * pystr);
  raised : option exn
}.

Definition visit_offset (data : pybytes) (st : loop_state) (x : nat) : loop_state :=
  match raised st with
  | Some _ => st
  | None =>
    match _verify_swf (data, x) x with
    | Raised e =>
      {| swf_found := swf_found st; extract_calls := extract_calls st; raised := Some e |}
    | Returned None => st
    | Returned (Some swf) =>
      {| swf_found := true;
         extract_calls := extract_calls st ++ [(swf, u ".swf")];
         raised := None |}
    end
  end.

Definition _extract_swf_objects (data : pybytes) : loop_state :=
  fold_left (visit_offset data) (findSWF data)
    {| swf_found := false; extract_calls := []; raised := None |}.

(** The test of [_process_ole_file],
    [b"FWS" in data or b"CWS" in data and self._extract_swf_objects(stream)],
    inside its [try]: whether the line is added to the Flash section,
    and the calls of [_extract_file]. *)
Definition flash_check (data : pybytes) : bool * list (pybytes * pystr) :=
  if contains FWS data then (true, [])
  else if contains CWS data then
    let st := _extract_swf_objects data in
    (match raised st with
     | Some _ => false
     | None => swf_found st
     end, extract_calls st)
  else (false, []).

(** *** What reaches [_extract_file] *)

Lemma startswith_prefix p s : startswith p s = true <-> take (length p) s = p.
Proof.
  revert s. induction p as [|a p IH]; intros s; [split; reflexivity|].
  destruct s as [|c s]; [split; discriminate|]. cbn [startswith length take].
  rewrite andb_true_iff, N.eqb_eq, IH. split.
  - intros [-> ->]. reflexivity.
  - intros [= -> H]. auto.
Qed.

Lemma contains_drop p s x : contains p s = false -> startswith p (drop x s) = false.
Proof.
  revert x. induction s as [|c s IH]; intros x H.
  - rewrite drop_nil. cbn [contains] in H. apply orb_false_iff in H as [H _]. exact H.
  - cbn [contains] in H. apply orb_false_iff in H as [H1 H2].
    destruct x as [|x]; [exact H1|]. apply IH, H2.
Qed.

Lemma unpack_b_length buf v : unpack_b buf = Some v -> length buf = 1%nat.
Proof. destruct buf as [|a [|b t]]; try discriminate. reflexivity. Qed.

Lemma unpack_i_length buf v : unpack_i buf = Some v -> length buf = 4%nat.
Proof. destruct buf as [|a [|b [|c [|d [|e t]]]]]; try discriminate. reflexivity. Qed.

(** What [_verify_swf] returns when it returns data. *)
Lemma verify_swf_some data x swf :
  _verify_swf (data, x) x = Returned (Some swf) ->
  take 3 (drop x data) = FWS
  \/ (take 3 (drop x data) = CWS
      /\ exists z, decompress (drop (x + 8) data) = Some z
                   /\ swf = FWS ++ take 5 (drop (x + 3) data) ++ z).
Proof.
  unfold _verify_swf, seek, read, read_all. cbn [fst snd].
  set (header := take 3 (drop x data)).
  destruct (unpack_b _) as [version|] eqn:Hb; [|discriminate].
  destruct (unpack_i _) as [size|] eqn:Hi; [|discriminate].
  destruct (_ || _); [discriminate|].
  case_bool_decide as HF; [auto|]. case_bool_decide as HC; [|discriminate].
  intros H. right. split; [exact HC|].
  assert (Hh : length header = 3%nat) by (rewrite HC; reflexivity).
  apply unpack_b_length in Hb. apply unpack_i_length in Hi.
  rewrite Hh in *. rewrite Hb in Hi.
  rewrite length_take, length_drop in Hb, Hi.
  assert (Hfive : length (take 5 (drop (x + 3) data)) = 5%nat)
    by (rewrite length_take, length_drop; lia).
  rewrite Hfive in H. replace (x + 3 + 5)%nat with (x + 8)%nat in H by lia.
  destruct (decompress _) as [z|]; [|discriminate].
  injection H as <-. eauto.
Qed.

Lemma visit_offset_calls data (P : pybytes * pystr -> Prop) st x :
  (forall swf, _verify_swf (data, x) x = Returned (Some swf) -> P (swf, u ".swf")) ->
  Forall P (extract_calls st) ->
  Forall P (extract_calls (visit_offset data st x)).
Proof.
  intros HP H. unfold visit_offset. destruct (raised st); [exact H|].
  destruct (_verify_swf (data, x) x) as [[swf|]|e]; [|exact H|exact H].
  cbn. apply Forall_app. split; [exact H|]. constructor; [auto|constructor].
Qed.

(** X13.  In [_process_ole_file] the test reads
    [b"FWS" in data or (b"CWS" in data and ...)].  So a stream that
    holds the bytes [FWS] anywhere is reported as a Flash object at
    once, and nothing in it is verified or extracted; and every file
    that is extracted comes from an offset reported by [findSWF] where
    the stream has [CWS], and is [FWS], the next five bytes and the
    decompressed rest: the branch of [_verify_swf] for uncompressed
    Flash is never taken from there. *)
Theorem flash_streams data :
  (contains FWS data = true -> flash_check data = (true, []))
  /\ forall call, call ∈ (flash_check data).2 ->
       exists x z,
         x ∈ findSWF data
         /\ take 3 (drop x data) = CWS
         /\ decompress (drop (x + 8) data) = Some z
         /\ call = (FWS ++ take 5 (drop (x + 3) data) ++ z, u ".swf").
Proof.
  unfold flash_check. split; [intros ->; reflexivity|].
  destruct (contains FWS data) eqn:HF; [intros call H; inversion H|].
  destruct (contains CWS data); [|intros call H; inversion H].
  cbn [snd]. unfold _extract_swf_objects.
  set (P := fun call : pybytes * pystr =>
              exists x z,
                x ∈ findSWF data
                /\ take 3 (drop x data) = CWS
                /\ decompress (drop (x + 8) data) = Some z
                /\ call = (FWS ++ take 5 (drop (x + 3) data) ++ z, u ".swf")).
  assert (H : forall xs st,
             (forall x, x ∈ xs -> x ∈ findSWF data) ->
             Forall P (extract_calls st) ->
             Forall P (extract_calls (fold_left (visit_offset data) xs st))).
  { induction xs as [|x xs IH]; intros st Hxs Hst; [exact Hst|].
    cbn [fold_left]. apply IH; [intros y Hy; apply Hxs; right; exact Hy|].
    apply visit_offset_calls; [|exact Hst].
    intros swf [Hh|(Hh & z & Hz & ->)]%verify_swf_some.
    - apply (contains_drop FWS data x) in HF.
      assert (E : startswith FWS (drop x data) = true)
        by (apply startswith_prefix; exact Hh).
      congruence.
    - exists x, z. split; [apply Hxs; left|auto]. }
  intros call Hc.
  assert (HP : Forall P (extract_calls
                 (fold_left (visit_offset data) (findSWF data)
                    {| swf_found := false; extract_calls := []; raised := None |})))
    by (apply H; [auto|constructor]).
  rewrite Forall_forall in HP. exact (HP call Hc).
Qed.

Lemma verify_swf_truncated data x :
  (length data < x + 8)%nat -> _verify_swf (data, x) x = Raised StructError.
Proof.
  intros Hlen. unfold _verify_swf, seek, read. cbn [fst snd].
  destruct (unpack_b _) as [version|] eqn:Hb; [|reflexivity].
  destruct (unpack_i _) as [size|] eqn:Hi; [|reflexivity].
  exfalso. apply unpack_b_length in Hb. apply unpack_i_length in Hi.
  rewrite !length_take, !length_drop in Hb.
  rewrite !length_take, !length_drop in Hi. lia.
Qed.

Lemma loop_stays_raised data xs st e :
  raised st = Some e -> fold_left (visit_offset data) xs st = st.
Proof.
  intros H. induction xs as [|x xs IH]; [reflexivity|]. cbn [fold_left].
  unfold visit_offset at 2. rewrite H. exact IH.
Qed.

Lemma loop_raises_at data xs st x :
  x ∈ xs -> (length data < x + 8)%nat ->
  is_Some (raised (fold_left (visit_offset data) xs st)).
Proof.
  intros Hx Hlen. revert st. induction xs as [|y xs IH]; intros st; [inversion Hx|].
  cbn [fold_left]. destruct (raised (visit_offset data st y)) as [e|] eqn:Hr.
  - rewrite (loop_stays_raised _ _ _ e Hr), Hr. eauto.
  - apply elem_of_cons in Hx as [<-|Hx]; [|apply IH, Hx].
    exfalso. unfold visit_offset in Hr. destruct (raised st) eqn:Hs; [congruence|].
    rewrite verify_swf_truncated in Hr by exact Hlen. discriminate.
Qed.

(** X14.  [_verify_swf] unpacks the eight bytes at the offset before
    its [try]; when [findSWF] reports an offset in the last seven bytes
    of a stream, [struct.error] leaves [_extract_swf_objects] and the
    stream is not reported as holding Flash, also when objects at other
    offsets were found, or already extracted. *)
Theorem truncated_candidate_hides_flash data x :
  contains FWS data = false -> contains CWS data = true ->
  x ∈ findSWF data -> (length data < x + 8)%nat ->
  (flash_check data).1 = false.
Proof.
  intros HF HC Hx Hlen. unfold flash_check. rewrite HF, HC. cbn [fst].
  unfold _extract_swf_objects.
  destruct (loop_raises_at data (findSWF data)
              {| swf_found := false; extract_calls := []; raised := None |} x Hx Hlen)
    as [e ->].
  reflexivity.
Qed.

End WithCollaborators.

(** A compressed object at offset 0 and the bytes [CWS] at the end of
    the stream: the object is extracted, the stream is not reported. *)
Definition sample_stream : pybytes :=
  u "CWS" ++ [10; 8; 0; 0; 0; 120; 156]%N ++ u "CWS".

Lemma truncated_candidate_hides_flash_witness :
  contains FWS sample_stream = false /\ contains CWS sample_stream = true
  /\ 10%nat ∈ [0%nat; 10%nat] /\ (length sample_stream < 10 + 8)%nat
  /\ (flash_check (fun _ => Some (u "body")) (fun _ => [0%nat; 10%nat])
        sample_stream).1 = false.
Proof.
  assert (H1 : contains FWS sample_stream = false) by reflexivity.
  assert (H2 : contains CWS sample_stream = true) by reflexivity.
  assert (H3 : 10%nat ∈ [0%nat; 10%nat]) by (right; left).
  assert (H4 : (length sample_stream < 10 + 8)%nat) by (vm_compute; lia).
  split; [exact H1|]. split; [exact H2|]. split; [exact H3|]. split; [exact H4|].
  exact (truncated_candidate_hides_flash (fun _ => Some (u "body"))
           (fun _ => [0%nat; 10%nat]) sample_stream 10%nat H1 H2 H3 H4).
Defined.

Example sample_stream_extracted :
  (flash_check (fun _ => Some (u "body")) (fun _ => [0%nat; 10%nat]) sample_stream).2
  = [(u "FWS" ++ [10; 8; 0; 0; 0]%N ++ u "body", u ".swf")].
Proof. vm_compute. reflexivity. Qed.

(** A stream with a compressed object only, and one that also holds the
    bytes [FWS]. *)
Example flash_check_sample :
  flash_check (fun _ => Some (u "body")) (fun _ => [1%nat])
    ([0%N] ++ u "CWS" ++ [10; 8; 0; 0; 0; 120; 156]%N)
  = (true, [(u "FWS" ++ [10; 8; 0; 0; 0]%N ++ u "body", u ".swf")])
  /\ flash_check (fun _ => Some (u "body")) (fun _ => [1%nat; 12%nat])
       ([0%N] ++ u "CWS" ++ [10; 8; 0; 0; 0; 120; 156]%N ++ u "FWS")
     = (true, []).
Proof. vm_compute. split; reflexivity. Qed.

End Swf.

(** ** More on the URI classifier ([Oletools.parse_uri]) *)

Module UriMore.

Import Urllib Uri.

Lemma first_token_item is_space lead tok c rest :
  forallb is_space lead = true ->
  tok <> [] -> forallb (fun x => negb (is_space x)) tok = true ->
  is_space c = true ->
  first_token is_space (lead ++ tok ++ c :: rest) = Some tok.
Proof.
  intros Hlead Hne Htok Hc. unfold first_token.
  assert (Hd : drop_while is_space (lead ++ tok ++ c :: rest) = tok ++ c :: rest).
  { induction lead as [|x lead IH]; cbn [forallb] in Hlead.
    - destruct tok as [|y tok]; [contradiction|]. cbn [forallb] in Htok.
      apply andb_true_iff in Htok as [Hy _]. apply negb_true_iff in Hy.
      simpl. rewrite Hy. reflexivity.
    - apply andb_true_iff in Hlead as [Hx Hlead]. simpl. rewrite Hx. exact (IH Hlead). }
  rewrite Hd. destruct tok as [|y tok]; [contradiction|].
  cbn [app]. f_equal. clear Hd Hne. change (y :: tok ++ c :: rest) with ((y :: tok) ++ c :: rest).
  induction (y :: tok) as [|z t IH]; simpl.
  - rewrite Hc. reflexivity.
  - cbn [forallb] in Htok. apply andb_true_iff in Htok as [Hz Ht].
    rewrite Hz. f_equal. exact (IH Ht).
Qed.

Lemma first_token_alone is_space tok :
  tok <> [] -> forallb (fun x => negb (is_space x)) tok = true ->
  first_token is_space tok = Some tok.
Proof.
  intros Hne Htok. unfold first_token.
  assert (Hd : drop_while is_space tok = tok).
  { destruct tok as [|y tok]; [contradiction|]. cbn [forallb] in Htok.
    apply andb_true_iff in Htok as [Hy _]. apply negb_true_iff in Hy.
    simpl. rewrite Hy. reflexivity. }
  rewrite Hd. destruct tok as [|y tok]; [contradiction|]. f_equal.
  clear Hd Hne. induction (y :: tok) as [|z t IH]; [reflexivity|].
  cbn [forallb] in Htok. apply andb_true_iff in Htok as [Hz Ht].
  simpl. rewrite Hz. f_equal. exact (IH Ht).
Qed.

Lemma hostname_netloc unicode_lower url host :
  hostname unicode_lower url = Some host -> netloc url <> [].
Proof.
  unfold hostname. intros H E. rewrite E in H. discriminate.
Qed.

Section WithCollaborators.
Variable unicode_lower : pystr -> pystr.
Variable unicode_nfkc : pystr -> pystr.
Variable check_bracketed_host : pystr -> option pystr.
Variable unicode_host_char : N -> bool.
Variable is_valid_domain : pystr -> bool.
Variable is_valid_ip : pystr -> bool.
Variable is_ip_reserved : pystr -> bool.
Variable inet_aton : pystr -> aton.

Local Abbreviation parse_uri :=
  (Uri.parse_uri unicode_lower unicode_nfkc check_bracketed_host unicode_host_char
     is_valid_domain is_valid_ip is_ip_reserved inet_aton).

Lemma url_text_prefix url host :
  hostname unicode_lower url = Some host -> scheme url <> [] ->
  exists rest, url_text url = scheme url ++ u "://" ++ netloc url ++ rest.
Proof.
  intros Hh Hs. apply hostname_netloc in Hh. unfold url_text.
  destruct (has 58 (path url)); [eauto|]. unfold geturl.
  assert (Hn : truthy (netloc url) = true) by (destruct (netloc url); [contradiction|reflexivity]).
  assert (Hsch : truthy (scheme url) = true) by (destruct (scheme url); [contradiction|reflexivity]).
  rewrite Hn, Hsch. cbn [orb].
  set (p := if truthy (path url) && negb (startswith (u "/") (path url))
            then u "/" ++ path url else path url).
  destruct (truthy (query url)), (truthy (fragment url)).
  - exists (p ++ u "?" ++ query url ++ u "#" ++ fragment url).
    rewrite <- ?app_assoc. reflexivity.
  - exists (p ++ u "?" ++ query url). rewrite <- ?app_assoc. reflexivity.
  - exists (p ++ u "#" ++ fragment url). rewrite <- ?app_assoc. reflexivity.
  - exists p. rewrite <- ?app_assoc. reflexivity.
Qed.

(** X15.  What a result of [parse_uri] says.  It is the empty triple,
    or its text is [scheme://netloc] of the first item of the input
    followed by the rest of the URL, and then: an empty kind comes with
    an empty hostname; the domain kind comes with the hostname of the
    URL, which [is_valid_domain] accepted; the IP kind comes with the
    dotted form of the address [inet_aton] read from a hostname that is
    no valid domain, which [is_valid_ip] accepted and [is_ip_reserved]
    did not.  No other kind is returned. *)
Theorem parse_uri_result_sound check_uri text kind host :
  parse_uri check_uri = Returned (text, kind, host) ->
  (text, kind, host) = EMPTY
  \/ exists decoded url h rest,
       decoded_token check_uri = Some decoded
       /\ urlsplit unicode_nfkc check_bracketed_host decoded = Returned url
       /\ hostname unicode_lower url = Some h
       /\ scheme url <> []
       /\ text = scheme url ++ u "://" ++ netloc url ++ rest
       /\ ((kind = ""%string /\ host = [])
           \/ (kind = "network.static.domain"%string /\ host = h
               /\ is_valid_domain h = true)
           \/ (kind = "network.static.ip"%string
               /\ is_valid_domain h = false
               /\ is_valid_ip host = true /\ is_ip_reserved host = false
               /\ exists packed, inet_aton h = Packed packed /\ host = compressed packed)).
Proof.
  unfold Uri.parse_uri.
  destruct (decoded_token check_uri) as [decoded|] eqn:Hd; [|intros [= <- <- <-]; auto].
  destruct (urlsplit _ _ decoded) as [url|msg] eqn:Hu.
  2: { destruct (bool_decide _); [intros [= <- <- <-]; auto|discriminate]. }
  destruct (hostname _ url) as [h|] eqn:Hh; [|intros [= <- <- <-]; auto].
  destruct (truthy (scheme url)) eqn:Hs; cbn [negb orb]; [|intros [= <- <- <-]; auto].
  destruct (Regex.match_prefix _ _ h); cbn [negb]; [|intros [= <- <- <-]; auto].
  assert (Hsch : scheme url <> []) by (intros E; rewrite E in Hs; discriminate).
  destruct (url_text_prefix url h Hh Hsch) as [rest Hrest].
  intros H. right. exists decoded, url, h, rest.
  do 3 (split; [first [reflexivity|assumption]|]). split; [exact Hsch|].
  destruct (is_valid_domain h) eqn:Hdom.
  - injection H as <- <- <-. split; [exact Hrest|]. right. left. auto.
  - destruct (inet_aton h) as [packed| |msg] eqn:Hp; [| |discriminate].
    + cbv zeta in H.
      destruct (is_valid_ip (compressed packed)) eqn:Hv;
        destruct (is_ip_reserved (compressed packed)) eqn:Hr;
        cbn [andb negb] in H; injection H as <- <- <-;
        (split; [exact Hrest|]); auto.
      right. right. split; [reflexivity|]. split; [reflexivity|].
      split; [exact Hv|]. split; [exact Hr|]. eauto.
    + injection H as <- <- <-. split; [exact Hrest|]. auto.
Qed.

(** X16.  Only the first item of the input is read: white space
    before it and everything from the first white space after it
    change nothing, for [str] and for [bytes] input. *)
Theorem parse_uri_reads_first_item lead tok c rest :
  tok <> [] ->
  (forallb is_space_str lead = true ->
   forallb (fun x => negb (is_space_str x)) tok = true ->
   is_space_str c = true ->
   parse_uri (InStr (lead ++ tok ++ c :: rest)) = parse_uri (InStr tok))
  /\ (forallb is_space_bytes lead = true ->
      forallb (fun x => negb (is_space_bytes x)) tok = true ->
      is_space_bytes c = true ->
      parse_uri (InBytes (lead ++ tok ++ c :: rest)) = parse_uri (InBytes tok)).
Proof.
  intros Hne. split; intros Hlead Htok Hc; unfold Uri.parse_uri, decoded_token.
  - rewrite (first_token_item is_space_str), (first_token_alone is_space_str) by assumption.
    reflexivity.
  - rewrite (first_token_item is_space_bytes), (first_token_alone is_space_bytes)
      by assumption.
    reflexivity.
Qed.

End WithCollaborators.

Lemma parse_uri_result_sound_witness :
  sample_parse_uri (InStr (u "http://192.0.2.1/x"))
  = Returned (u "http://192.0.2.1/x", "network.static.ip"%string, u "192.0.2.1")
  /\ ((u "http://192.0.2.1/x", "network.static.ip"%string, u "192.0.2.1") = EMPTY
      \/ exists decoded url h rest,
           decoded_token (InStr (u "http://192.0.2.1/x")) = Some decoded
           /\ urlsplit nfkc_account_of brackets_accepted decoded = Returned url
           /\ hostname lower_unchanged url = Some h
           /\ scheme url <> []
           /\ u "http://192.0.2.1/x" = scheme url ++ u "://" ++ netloc url ++ rest
           /\ (("network.static.ip"%string = ""%string /\ u "192.0.2.1" = [])
               \/ ("network.static.ip"%string = "network.static.domain"%string
                   /\ u "192.0.2.1" = h /\ sample_is_valid_domain h = true)
               \/ ("network.static.ip"%string = "network.static.ip"%string
                   /\ sample_is_valid_domain h = false
                   /\ sample_is_valid_ip (u "192.0.2.1") = true
                   /\ sample_is_ip_reserved (u "192.0.2.1") = false
                   /\ exists packed,
                        sample_inet_aton h = Packed packed
                        /\ u "192.0.2.1" = compressed packed))).
Proof.
  assert (H : sample_parse_uri (InStr (u "http://192.0.2.1/x"))
              = Returned (u "http://192.0.2.1/x", "network.static.ip"%string, u "192.0.2.1"))
    by reflexivity.
  split; [exact H|].
  exact (parse_uri_result_sound lower_unchanged nfkc_account_of brackets_accepted
           no_unicode_host_char sample_is_valid_domain sample_is_valid_ip
           sample_is_ip_reserved sample_inet_aton _ _ _ _ H).
Defined.

Lemma parse_uri_reads_first_item_witness :
  u "http://example.com/" <> []
  /\ sample_parse_uri (InStr (u "  http://example.com/ and more"))
     = sample_parse_uri (InStr (u "http://example.com/"))
  /\ sample_parse_uri (InBytes (u "  http://example.com/ and more"))
     = sample_parse_uri (InBytes (u "http://example.com/")).
Proof.
  assert (Hne : u "http://example.com/" <> []) by discriminate.
  destruct (parse_uri_reads_first_item lower_unchanged nfkc_account_of brackets_accepted
              no_unicode_host_char sample_is_valid_domain sample_is_valid_ip
              sample_is_ip_reserved sample_inet_aton
              (u "  ") (u "http://example.com/") 32%N (u "and more") Hne) as [H1 H2].
  split; [exact Hne|].
  split; [apply H1; reflexivity|apply H2; reflexivity].
Defined.

End UriMore.

(** ** More on the macro scorer ([Oletools._flag_macro]) *)

Module MacroMore.

Import MacroScore.

Section WithConfig.
Variable str_lower : pystr -> pystr.
Variable word_chains : gmap (list N) (gset (list N)).
Variable macro_score_max_size : option Z.
Variable macro_score_min_alert : Q.

Local Abbreviation count_trigraphs := (MacroScore.count_trigraphs word_chains).
Local Abbreviation visit_word := (MacroScore.visit_word word_chains).
Local Abbreviation visit_words := (MacroScore.visit_words word_chains).
Local Abbreviation _flag_macro :=
  (MacroScore._flag_macro str_lower word_chains macro_score_max_size
     macro_score_min_alert).

Definition start : totals := {| score := 0; word_count := 0; byte_count := 0 |}.

(** The inner loop counts at most one trigraph for each of its
    [len(word) - 2] rounds. *)
Lemma count_trigraphs_range prefix w :
  0 <= count_trigraphs prefix w <= Z.of_nat (length w) - 1 \/ (w = [] /\ count_trigraphs prefix w = 0).
Proof.
  revert prefix. induction w as [|a t IH]; intros prefix; [right; auto|left].
  destruct t as [|b t']; [simpl; lia|].
  change (count_trigraphs prefix (a :: b :: t'))
    with ((if bool_decide ([a; b] ∈ default ∅ (word_chains !! [prefix])) then 1 else 0)
          + count_trigraphs a (b :: t')).
  destruct (IH a) as [H|[H _]]; [|discriminate].
  cbn [length] in *. destruct (bool_decide _); lia.
Qed.

Lemma inject_lt a b : a < b -> (inject_Z a < inject_Z b)%Q.
Proof. unfold Qlt. simpl. lia. Qed.

Lemma inject_le a b : a <= b -> (inject_Z a <= inject_Z b)%Q.
Proof. unfold Qle. simpl. lia. Qed.

Lemma ratio_range tri n :
  0 <= tri <= n -> 0 < n ->
  (0 <= inject_Z tri / inject_Z n)%Q /\ (inject_Z tri / inject_Z n <= 1)%Q.
Proof.
  intros [H1 H2] Hn.
  assert (Hq : (0 < inject_Z n)%Q) by exact (inject_lt 0 n Hn).
  split.
  - apply Qle_shift_div_l; [exact Hq|]. rewrite Qmult_0_l.
    exact (inject_le 0 tri H1).
  - apply Qle_shift_div_r; [exact Hq|]. rewrite Qmult_1_l.
    exact (inject_le tri n H2).
Qed.

(** What the loop over the words keeps. *)
Definition in_range (t : totals) : Prop :=
  (0 <= score t)%Q /\ (score t <= inject_Z (word_count t))%Q /\ 0 <= word_count t.

Lemma visit_word_range acc w acc' :
  (3 <= length w)%nat -> in_range acc ->
  visit_word acc w = Returned acc' -> in_range acc'.
Proof.
  intros Hw (H0 & H1 & H2). unfold MacroScore.visit_word.
  assert (Hstep : (inject_Z (word_count acc) <= inject_Z (word_count acc + 1))%Q)
    by (apply inject_le; lia).
  destruct (bool_decide _).
  - intros [= <-]. unfold in_range. cbn [score word_count].
    split; [exact H0|]. split; [|lia]. eapply Qle_trans; [exact H1|exact Hstep].
  - destruct w as [|prefix rest]; [discriminate|].
    rewrite true_div_returns by (unfold len; simpl in *; lia). cbn [bind].
    intros [= <-]. unfold in_range. cbn [score word_count].
    destruct (ratio_range (count_trigraphs prefix rest) (len (prefix :: rest) - 2))
      as [Ha Hb].
    { destruct (count_trigraphs_range prefix rest) as [H|[-> _]];
        [|simpl in Hw; lia]. unfold len. cbn [length]. lia. }
    { unfold len. simpl in *. lia. }
    split; [|split; [|lia]].
    + rewrite <- (Qplus_0_l 0). apply Qplus_le_compat; assumption.
    + rewrite inject_Z_plus. apply Qplus_le_compat; assumption.
Qed.

Lemma visit_words_range ws acc t :
  (forall w, w ∈ ws -> (3 <= length w)%nat) -> in_range acc ->
  visit_words acc ws = Returned t -> in_range t.
Proof.
  revert acc. induction ws as [|w ws IH]; intros acc Hws Hacc; cbn [MacroScore.visit_words].
  - intros [= <-]. exact Hacc.
  - destruct (visit_word acc w) as [acc'|e] eqn:Hv; [|discriminate]. cbn [bind].
    apply IH; [intros w' Hw'; apply Hws; right; exact Hw'|].
    eapply visit_word_range; [apply Hws; left| exact Hacc | exact Hv].
Qed.

(** X17.  The score of [_flag_macro] is a mean of ratios between 0 and
    1: the loop over the words ends with [0 <= score <= word_count].
    So with a threshold [macro_score_min_alert] of 0 or less no macro is
    flagged, and with a threshold above 1 every macro that passes the
    size and length guards is. *)
Theorem flag_macro_score_range macro_text :
  exists t,
    visit_words start (finditer_words (str_lower macro_text)) = Returned t
    /\ (0 <= score t)%Q /\ (score t <= inject_Z (word_count t))%Q
    /\ ((macro_score_min_alert <= 0)%Q -> _flag_macro macro_text = Returned false)
    /\ ((1 < macro_score_min_alert)%Q ->
        too_large macro_score_max_size macro_text = false ->
        128 <= byte_count t -> 32 <= word_count t ->
        _flag_macro macro_text = Returned true).
Proof.
  assert (Hlong : forall w, w ∈ finditer_words (str_lower macro_text) -> (3 <= length w)%nat).
  { intros w. apply words_from_long. }
  destruct (visit_words_returns word_chains start _ Hlong) as (t & Ht & _).
  assert (Hr : in_range t).
  { apply (visit_words_range _ start t Hlong); [|exact Ht].
    unfold in_range, start. cbn. split; [apply Qle_refl|]. split; [apply Qle_refl|lia]. }
  destruct Hr as (H0 & H1 & H2).
  exists t. split; [exact Ht|]. split; [exact H0|]. split; [exact H1|].
  unfold MacroScore._flag_macro. fold start. split.
  - intros Hmin. destruct (too_large _ _); [reflexivity|]. rewrite Ht. cbn [bind].
    destruct (_ || _) eqn:Hg; [reflexivity|].
    apply orb_false_iff in Hg as [_ Hw%Z.ltb_ge].
    rewrite true_div_returns by lia. cbn [bind]. do 2 f_equal.
    apply negb_false_iff, Qle_bool_iff.
    eapply Qle_trans; [exact Hmin|].
    apply Qle_shift_div_l; [apply (inject_lt 0); lia|].
    rewrite Qmult_0_l. exact H0.
  - intros Hmin -> Hb Hw. rewrite Ht. cbn [bind].
    destruct (Z.ltb_spec (byte_count t) 128); [lia|].
    destruct (Z.ltb_spec (word_count t) 32); [lia|]. cbn [orb].
    rewrite true_div_returns by lia. cbn [bind]. do 2 f_equal.
    apply negb_true_iff. destruct (Qle_bool _ _) eqn:E; [|reflexivity].
    apply Qle_bool_iff in E. exfalso.
    assert (Hq : (score t / inject_Z (word_count t) <= 1)%Q).
    { apply Qle_shift_div_r; [apply (inject_lt 0); lia|].
      rewrite Qmult_1_l. exact H1. }
    apply (Qlt_irrefl 1). eapply Qlt_le_trans; [exact Hmin|].
    eapply Qle_trans; [exact E|exact Hq].
Qed.

(** *** Skipped words *)

Lemma visit_skipped ws acc :
  forallb (fun w => bool_decide (w ∈ MACRO_SKIP_WORDS)) ws = true ->
  visit_words acc ws
  = Returned {| score := score acc;
                word_count := word_count acc + len ws;
                byte_count := byte_count acc + len (concat ws) |}.
Proof.
  revert acc. induction ws as [|w ws IH]; intros acc H; cbn [MacroScore.visit_words].
  - destruct acc as [s wc bc]. unfold len. cbn. do 2 f_equal; lia.
  - cbn [forallb] in H. apply andb_true_iff in H as [Hw Hws].
    unfold MacroScore.visit_word. rewrite Hw. cbn [bind]. rewrite IH by exact Hws.
    cbn [score word_count byte_count]. unfold len. cbn [concat length].
    rewrite length_app. do 2 f_equal; lia.
Qed.

(** X18.  The words of [MACRO_SKIP_WORDS] are counted but add nothing
    to the score.  A macro whose words are all of that list, 32 or more
    with 128 letters or more together, has score 0 and is flagged with
    every positive threshold: text made of common keywords only scores
    as the most random text there is. *)
Theorem keyword_only_macro_flagged macro_text :
  too_large macro_score_max_size macro_text = false ->
  forallb (fun w => bool_decide (w ∈ MACRO_SKIP_WORDS))
          (finditer_words (str_lower macro_text)) = true ->
  32 <= len (finditer_words (str_lower macro_text)) ->
  128 <= len (concat (finditer_words (str_lower macro_text))) ->
  (0 < macro_score_min_alert)%Q ->
  _flag_macro macro_text = Returned true.
Proof.
  intros Hsize Hskip Hw Hb Hmin. unfold MacroScore._flag_macro.
  rewrite Hsize, (visit_skipped _ _ Hskip). cbn [bind score word_count byte_count].
  destruct (Z.ltb_spec (0 + len (concat (finditer_words (str_lower macro_text)))) 128); [lia|].
  destruct (Z.ltb_spec (0 + len (finditer_words (str_lower macro_text))) 32); [lia|].
  cbn [orb]. rewrite true_div_returns by lia. cbn [bind]. do 2 f_equal.
  apply negb_true_iff. destruct (Qle_bool _ _) eqn:E; [|reflexivity].
  apply Qle_bool_iff in E. exfalso. apply (Qlt_irrefl 0).
  eapply Qlt_le_trans; [exact Hmin|]. eapply Qle_trans; [exact E|].
  unfold Qdiv. rewrite Qmult_0_l. apply Qle_refl.
Qed.

End WithConfig.

(** Thirty-two times [End Function]. *)
Definition keyword_macro : pystr :=
  concat (replicate 32 (u "End Function" ++ [nl])).

Lemma keyword_only_macro_flagged_witness :
  _flag_macro ascii_lower ∅ None (6 # 10)%Q keyword_macro = Returned true.
Proof.
  apply (keyword_only_macro_flagged ascii_lower ∅ None (6 # 10)%Q keyword_macro).
  - reflexivity.
  - vm_compute. reflexivity.
  - vm_compute. discriminate.
  - vm_compute. discriminate.
  - reflexivity.
Defined.

End MacroMore.

(** ** More on the macro deobfuscator ([Oletools._deobfuscator]) *)

Module DeobfMore.

Import Deobfuscator.

Section WithUnicode.
Variable unicode_decimal : N -> option N.

Local Abbreviation digits := (Deobfuscator.digits unicode_decimal).
Local Abbreviation digits_value := (Deobfuscator.digits_value unicode_decimal).
Local Abbreviation _deobfuscator := (Deobfuscator._deobfuscator unicode_decimal).

(** *** Text the patterns do not touch *)

(** X19.  A text without the letter [c], in either case, and without
    the five characters [" & "] is returned as it is: every pattern of
    [_deobfuscator] starts with that letter or is that idiom. *)
Theorem deobfuscator_leaves_other_text text :
  Forall (fun c => ascii_lower_chr c <> 99%N) text ->
  contains (dq :: u " & " ++ [dq]) text = false ->
  _deobfuscator text = text.
Proof.
  intros Hc Hq.
  rewrite (deobfuscator_never unicode_decimal text)
    by (intros k; apply never_match_call_gen, Hc).
  apply Re.sub_never, never_concat_absent, Hq.
Qed.

(** *** A call on one literal *)

Lemma sub_concat_short s :
  (length s < 5)%nat -> Re.sub CONCAT_RE (fun _ => []) s = s.
Proof.
  intros H. apply Re.sub_never. induction s as [|c s IH]; [exact I|].
  cbn [length] in H. split; [|apply IH; lia].
  unfold CONCAT_RE. destruct (startswith _ _) eqn:E; [|reflexivity].
  apply startswith_length in E. cbn in E. lia.
Qed.

(** X20.  [Chr(X)] and [ChrW(X)] on one decimal literal, in any
    casing and with or without [$]: as the whole text, the call becomes
    the double-quoted character of code point [X] when [X] is at most
    255 for the narrow form, at most 0x10FFFF for the wide one.  With a
    larger [X] nothing is left of the call, not even its text.  That is
    for an [X] written with at most 4300 digits: with more, [int]
    raises and the call is returned as it is. *)
Theorem chr_literal_deobfuscated name dollar dx :
  digits dx ->
  (ascii_lower name = u "chr" ->
   _deobfuscator (call1 name dollar dx)
   = if INT_MAX_STR_DIGITS <? len dx then call1 name dollar dx
     else if digits_value dx <=? 255 then quoted_chr (digits_value dx) else [])
  /\ (ascii_lower name = u "chrw" ->
      _deobfuscator (call1 name dollar dx)
      = if INT_MAX_STR_DIGITS <? len dx then call1 name dollar dx
        else if digits_value dx <=? 0x10FFFF then quoted_chr (digits_value dx) else []).
Proof.
  intros Hx.
  pose proof (Deobfuscator.digits_value_nonneg unicode_decimal dx) as Hpos.
  assert (Hone : forall (Hn : is_name name),
    _deobfuscator (call1 name dollar dx)
    = if INT_MAX_STR_DIGITS <? len dx then call1 name dollar dx
      else Re.sub CONCAT_RE (fun _ => [])
             (replacement unicode_decimal name dollar dx Alone)).
  { intros Hn.
    pose proof (deobfuscator_pieces unicode_decimal [Call name dollar dx Alone]) as H.
    cbn [flat_map source replaced call_text existsb too_long] in H.
    unfold over_limit in H.
    rewrite !app_nil_r, !orb_false_r in H. apply H; [|reflexivity].
    constructor; [|constructor]. split; [exact Hn|]. split; [exact Hx|exact I]. }
  split; intros Hn.
  - rewrite (Hone (or_introl Hn)). destruct (_ <? len dx); [reflexivity|].
    unfold replacement, wide. cbn [code_point]. rewrite Hn.
    rewrite bool_decide_eq_false_2 by discriminate.
    replace (0 <=? digits_value dx) with true by lia. cbn [andb].
    destruct (_ <=? 255); apply sub_concat_short; cbn; lia.
  - rewrite (Hone (or_intror Hn)). destruct (_ <? len dx); [reflexivity|].
    unfold replacement, wide. cbn [code_point]. rewrite Hn.
    rewrite bool_decide_eq_true_2 by reflexivity.
    replace (0 <=? digits_value dx) with true by lia. cbn [andb].
    destruct (_ <=? 1114111); apply sub_concat_short; cbn; lia.
Qed.

End WithUnicode.

(** [cHr$(65)], [ChrW(1114112)], and [chr] on 65 written with 4301
    digits. *)
Lemma chr_literal_deobfuscated_witness :
  _deobfuscator ascii_digits_only (u "cHr$(65)") = [dq; 65%N; dq]
  /\ _deobfuscator ascii_digits_only (u "ChrW(1114112)") = []
  /\ _deobfuscator ascii_digits_only (call1 (u "chr") false (repeat 48%N 4299 ++ u "65"))
     = call1 (u "chr") false (repeat 48%N 4299 ++ u "65").
Proof.
  split; [|split].
  - exact (proj1 (chr_literal_deobfuscated ascii_digits_only (u "cHr") true (u "65")
             (digits_of_forallb _ (u "65") ltac:(discriminate) eq_refl)) eq_refl).
  - exact (proj2 (chr_literal_deobfuscated ascii_digits_only (u "ChrW") false (u "1114112")
             (digits_of_forallb _ (u "1114112") ltac:(discriminate) eq_refl)) eq_refl).
  - assert (Hd : Deobfuscator.digits ascii_digits_only (repeat 48%N 4299 ++ u "65")).
    { apply digits_of_forallb; [discriminate|vm_compute; reflexivity]. }
    exact (proj1 (chr_literal_deobfuscated ascii_digits_only (u "chr") false _ Hd) eq_refl).
Defined.

Lemma deobfuscator_leaves_other_text_witness :
  _deobfuscator ascii_digits_only (u "Sub AutoOpen: x = 1 & 2: End Sub")
  = u "Sub AutoOpen: x = 1 & 2: End Sub".
Proof.
  apply (deobfuscator_leaves_other_text ascii_digits_only).
  - repeat constructor; discriminate.
  - reflexivity.
Defined.

End DeobfMore.

(** ** The template path of an RTF document
    ([Oletools._process_rtf_alternate_metadata]) *)

Module RtfTemplate.

Inductive exn := ValueError.


(** [s.find(sub)] and [s.find(sub, start)] for [0 <= start]: the lowest
    index, or [-1]. *)
Fixpoint find_in (sub s : pybytes) (i : Z) : Z :=
  if startswith sub s then i
  else match s with
       | [] => -1
       | _ :: t => find_in sub t (i + 1)
       end.

Definition find (sub s : pybytes) : Z := find_in sub s 0.

(** [s[a:e]] for [0 <= a]; a negative [e] counts from the end. *)
Definition slice (a e : Z) (s : pybytes) : pybytes :=
  let e := if e <? 0 then Z.max (len s + e) 0 else e in
  take (Z.to_nat (e - a)) (drop (Z.to_nat a) s).






(** *** The pattern [\\(?:(?P<uN>u-?[0-9]+[?]?)|(?P<other>.))] *)

Definition ascii_digit (c : N) : bool := ((48 <=? c) && (c <=? 57))%N.

(** The group that matched, with its text. *)
Inductive escape :=
| UN (match_str : pystr)
| Other (match_str : pystr).

(** [u-?[0-9]+[?]?] at the head of a text: the text matched.  When a
    minus sign is not followed by a digit the group fails, also after
    giving the sign back. *)
Definition uN_at (s : pystr) : option pystr :=
  match s with
  | c :: t =>
    if (c =? 117)%N then
      let '(sign, t1) := match t with
                         | m :: t' => if (m =? 45)%N then ([45%N], t') else ([], t)
                         | [] => ([], t)
                         end in
      match Urllib.take_while ascii_digit t1 with
      | [] => None
      | ds =>
        let q := match drop (length ds) t1 with
                 | x :: _ => if (x =? 63)%N then [63%N] else []
                 | [] => []
                 end in
        Some (117%N :: sign ++ ds ++ q)
      end
    else None
  | [] => None
  end.

(** The match at the head of a text and its length; [.] matches
    anything but a line feed. *)
Definition escape_at (s : pystr) : option (escape * nat) :=
  match s with
  | b :: rest =>
    if (b =? 92)%N then
      match uN_at rest with
      | Some g => Some (UN g, S (length g))
      | None =>
        match rest with
        | c :: _ => if (c =? 10)%N then None else Some (Other [c], 2%nat)
        | [] => None
        end
      end
    else None
  | [] => None
  end.

(** [s.strip("u?")] *)
Definition strip_u_q (s : pystr) : pystr :=
  let drop_it := fun c => bool_decide (c ∈ [117; 63]%N) in
  rev (Urllib.drop_while drop_it (rev (Urllib.drop_while drop_it s))).

(** [int(s)] on an optional minus sign and ASCII digits: [ValueError]
    when there is no digit, or more of them than the interpreter
    converts. *)
Definition digits_value (ds : pystr) : Z :=
  fold_left (fun acc c => 10 * acc + (Z.of_N c - 48)) ds 0.

Definition py_int (s : pystr) : outcome exn Z :=
  let '(neg, ds) := match s with
                    | c :: t => if (c =? 45)%N then (true, t) else (false, s)
                    | [] => (false, [])
                    end in
  if (len ds =? 0) || (INT_MAX_STR_DIGITS <? len ds) then Raised ValueError
  else Returned (if neg then - digits_value ds else digits_value ds).

(** [chr(i)] *)
Definition py_chr (i : Z) : outcome exn pystr :=
  if (0 <=? i) && (i <=? 0x10FFFF) then Returned [Z.to_N i] else Raised ValueError.

Definition unicode_rtf_replace (m : escape) : outcome exn pystr :=
  match m with
  | UN match_str =>
    bind (py_int (strip_u_q match_str)) (fun match_int =>
    let match_int := if match_int <? -1 then 0x10000 + match_int else match_int in
    py_chr match_int)
  | Other match_str => Returned match_str
  end.

(** [re_rtf_escaped_str.sub(unicode_rtf_replace, text)]: the callback
    runs match by match from the left, and what it raises ends the
    substitution. *)
Fixpoint sub_from (skip : nat) (s : pystr) : outcome exn pystr :=
  match s with
  | [] => Returned []
  | c :: t =>
    match skip with
    | S k => sub_from k t
    | O =>
      match escape_at s with
      | Some (m, S n) =>
        bind (unicode_rtf_replace m) (fun r =>
        bind (sub_from n t) (fun rest => Returned (r ++ rest)))
      | _ => bind (sub_from 0 t) (fun rest => Returned (c :: rest))
      end
    end
  end.


(** *** One escape in a text *)













(** The code point [chr] is called with. *)
Definition code_point (neg : bool) (ds : pystr) : Z :=
  let n := if neg then - digits_value ds else digits_value ds in
  if n <? -1 then 0x10000 + n else n.





Section WithCollaborators.
(** [assemblyline.common.str_utils.safe_str] *)
Variable safe_str : pybytes -> pystr.




End WithCollaborators.




End RtfTemplate.

(** ** Which OLE streams are extracted
    (the loop over the streams in [Oletools._process_ole_file]) *)

Module Streams.

(** A stream of the OLE file: its name and its content. *)
Record entry := {
  stream_name : pystr;
  raw : pybytes
}.

(** What the loop carries from one stream to the next, as far as the
    extraction goes: [ole_dir_examined], whether the shared sections
    [swf_sec] and [hex_sec] have a body, and the streams handed to
    [_extract_file], with the data handed over. *)
Record state := {
  ole_dir_examined : gset pystr;
  swf_body : bool;
  hex_body : bool;
  extracted : list (pystr * pybytes)
}.

Section WithCollaborators.
(** [hashlib.sha256(data).hexdigest()] *)
Variable sha256_hexdigest : pybytes -> pystr.
(** Whether the test for Flash objects adds its line ([Swf.flash_check]
    gives it); an exception in it is caught and adds none. *)
Variable flash : pybytes -> bool.
(** [_process_ole10native]: [None] when it raised. *)
Variable process_ole10native : pystr -> pybytes -> option bool.
Variable process_powerpoint_stream : pybytes -> bool.
(** Whether the file has a [HwpSummaryInformation] stream, and
    [zlib.decompress(data, -15)], [None] for [zlib.error]. *)
Variable decompress : bool.
Variable inflate : pybytes -> option pybytes.
(** [re.findall(VBS_HEX_RE, data)] *)
Variable hex_chunks : pybytes -> list pybytes.
(** [_check_for_patterns(data, extract_all)]: whether the dictionary is
    not empty, and the flag. *)
Variable check_for_patterns : pybytes -> bool -> bool * bool.
(** Whether [_check_for_b64(data, stream_name)] returns a section. *)
Variable check_for_b64 : pybytes -> pystr -> bool.

Variable extract_all : bool.
Variable is_installer : bool.












(** *** The shared sections *)




End WithCollaborators.



End Streams.

(** ** The SttbfAssoc strings of a Word document
    ([Oletools._process_ole_alternate_metadata]) *)

Module Sttb.

Definition sttb_fassoc_start_bytes : pybytes := [255; 255; 18; 0; 0; 0]%N.

Definition sttb_fassoc_lut (i : nat) : option string :=
  match i with
  | 1 => Some "template"
  | 2 => Some "title"
  | 3 => Some "subject"
  | 4 => Some "keywords"
  | 6 => Some "author"
  | 7 => Some "last_saved_by"
  | 8 => Some "mail_merge_data_source"
  | 9 => Some "mail_merge_header_document"
  | 17 => Some "write_reservation_password"
  | _ => None
  end%nat%string.

(** [struct.unpack("H", buf)] on a little-endian host: [None] for
    [struct.error], raised when the buffer is not two bytes long. *)
Definition unpack_H (buf : pybytes) : option nat :=
  match buf with
  | [a; b] => Some (N.to_nat (a + 256 * b))
  | _ => None
  end.

(** [current_pos] and [json_body]. *)
Record state := {
  current_pos : nat;
  json_body : gmap string pystr
}.

Section WithCollaborators.
(** [b.decode("utf16", "ignore")] and [safe_str]. *)
Variable decode_utf16_ignore : pybytes -> pystr.
Variable safe_str : pystr -> pystr.

Definition value_of (s : pybytes) : pystr := safe_str (decode_utf16_ignore s).

(** One round of [for i in range(18)]; [None] is the [return None] of
    the [except] branch. *)
Definition step (data : pybytes) (st : state) (i : nat) : option state :=
  str_len ← unpack_H (take 2 (drop (current_pos st) data));
  let current_pos := (current_pos st + 2)%nat in
  let str_len := (str_len * 2)%nat in
  if (0 <? str_len)%nat then
    Some {| current_pos := (current_pos + str_len)%nat;
            json_body :=
              match sttb_fassoc_lut i with
              | Some key =>
                if (str_len <? 512)%nat
                then <[key := value_of (take str_len (drop current_pos data))]> (json_body st)
                else json_body st
              | None => json_body st
              end |}
  else Some {| current_pos := current_pos; json_body := json_body st |}.

Fixpoint rounds (data : pybytes) (st : state) (indices : list nat) : option state :=
  match indices with
  | [] => Some st
  | i :: rest => st' ← step data st i; rounds data st' rest
  end.

(** The body of the section, and the link handed to [_process_link]
    when it is not empty; [None] when no section is returned. *)
Definition _process_ole_alternate_metadata (data : pybytes)
  : option (gmap string pystr * pystr) :=
  let sttb_fassoc_idx := RtfTemplate.find sttb_fassoc_start_bytes data in
  if sttb_fassoc_idx <? 0 then None
  else
    let current_pos := (Z.to_nat sttb_fassoc_idx + length sttb_fassoc_start_bytes)%nat in
    st ← rounds data {| current_pos := current_pos; json_body := ∅ |} (seq 0 18);
    if bool_decide (json_body st = ∅) then None
    else Some (json_body st, default [] (json_body st !! "template"%string)).

(** *** A table that is cut short *)

Lemma step_bounds data st i st' :
  step data st i = Some st' ->
  (current_pos st + 2 <= length data)%nat /\ (current_pos st + 2 <= current_pos st')%nat.
Proof.
  unfold step. destruct (unpack_H _) as [n|] eqn:E; [|discriminate]. cbn [mbind option_bind].
  assert (Hlen : length (take 2 (drop (current_pos st) data)) = 2%nat).
  { destruct (take 2 (drop (current_pos st) data)) as [|a [|b [|c t]]]; try discriminate.
    reflexivity. }
  rewrite length_take, length_drop in Hlen.
  destruct (0 <? n * 2)%nat; intros [= <-]; cbn [current_pos]; lia.
Qed.

Lemma rounds_bounds data indices st st' :
  rounds data st indices = Some st' ->
  (current_pos st + 2 * length indices <= current_pos st')%nat
  /\ (indices <> [] -> current_pos st + 2 * length indices <= length data)%nat.
Proof.
  revert st. induction indices as [|i rest IH]; intros st; cbn [rounds].
  - intros [= <-]. split; [simpl; lia|congruence].
  - destruct (step data st i) as [st1|] eqn:E; [|discriminate]. cbn [mbind option_bind].
    intros H. apply step_bounds in E as [E1 E2]. apply IH in H as [H1 H2].
    cbn [length]. split; [lia|]. intros _. destruct rest as [|j rest'].
    + simpl. lia.
    + specialize (H2 ltac:(discriminate)). lia.
Qed.

(** X25.  The strings are all or nothing.  A section is returned only
    when the marker is found and all eighteen length words that follow
    it, each after the string of the one before, lie within the data:
    at least 42 bytes from the marker on.  When the data ends earlier,
    the strings read until then are dropped with the rest. *)
Theorem sttb_needs_all_lengths data r :
  _process_ole_alternate_metadata data = Some r ->
  0 <= RtfTemplate.find sttb_fassoc_start_bytes data
  /\ RtfTemplate.find sttb_fassoc_start_bytes data + 42 <= len data
  /\ r.1 <> ∅.
Proof.
  unfold _process_ole_alternate_metadata.
  destruct (Z.ltb_spec (RtfTemplate.find sttb_fassoc_start_bytes data) 0) as [|Hidx];
    [discriminate|].
  destruct (rounds _ _ _) as [st|] eqn:E; [|discriminate]. cbn [mbind option_bind].
  case_bool_decide as Hb; [discriminate|]. intros [= <-]. cbn [fst].
  apply rounds_bounds in E as [_ E]. specialize (E ltac:(discriminate)).
  cbn [current_pos] in E. change (length (seq 0 18)) with 18%nat in E.
  change (length sttb_fassoc_start_bytes) with 6%nat in E.
  split; [exact Hidx|]. split; [unfold len; lia|exact Hb].
Qed.

(** *** A table that is whole *)

(** A length word and a string as the table holds them. *)
Definition le16 (n : nat) : pybytes := [N.of_nat (n mod 256); N.of_nat (n / 256)].
Definition record_of (s : pybytes) : pybytes := le16 (length s / 2) ++ s.
Definition table (strs : list pybytes) : pybytes := flat_map record_of strs.















End WithCollaborators.


(** A table with a template path in slot 1 and a long title in
    slot 2. *)
Definition sample_strs : list pybytes :=
  [[]; [104; 0; 105; 0]%N; repeat 65%N 600] ++ repeat [] 15.

Definition sample_doc : pybytes :=
  u "xx" ++ sttb_fassoc_start_bytes ++ table sample_strs ++ u "tail".


Lemma sttb_needs_all_lengths_witness :
  _process_ole_alternate_metadata (fun b => b) (fun s => s) sample_doc
  = Some ({[ "template"%string := [104; 0; 105; 0]%N ]}, [104; 0; 105; 0]%N)
  /\ 0 <= RtfTemplate.find sttb_fassoc_start_bytes sample_doc
  /\ RtfTemplate.find sttb_fassoc_start_bytes sample_doc + 42 <= len sample_doc
  /\ ({[ "template"%string := [104; 0; 105; 0]%N ]} : gmap string pystr) <> ∅.
Proof.
  assert (H : _process_ole_alternate_metadata (fun b => b) (fun s => s) sample_doc
              = Some ({[ "template"%string := [104; 0; 105; 0]%N ]}, [104; 0; 105; 0]%N))
    by (vm_compute; reflexivity).
  split; [exact H|].
  exact (sttb_needs_all_lengths (fun b => b) (fun s => s) sample_doc _ H).
Defined.

(** The same table without its last length word. *)
Example sttb_truncated_sample :
  _process_ole_alternate_metadata (fun b => b) (fun s => s)
    (u "xx" ++ sttb_fassoc_start_bytes ++ table (take 17 sample_strs) ++ [0%N])
  = None.
Proof. vm_compute. reflexivity. Qed.

End Sttb.

(** ** Suspicious strings in an [Ole10Native] stream
    ([Oletools._process_ole10native]) *)

Module Ole10Native.

(** The descriptions of [SUSPICIOUS_STRINGS], in order; the pattern of
    entry [i] is given by what [re.search] answers for it. *)
Definition SUSPICIOUS_DESCRIPTIONS : list pybytes :=
  [u "use of suspicious system function";
   u "embedded executable";
   u "embedded executable";
   u "embedded javascript";
   u "embedded javascript";
   u "suspicious rtf code"].

(** What [oleobj.OleNativeStream] parsed. *)
Record native := {
  data : pybytes;
  filename : pystr;
  src_path : pystr;
  temp_path : pystr
}.

(** Of what the call does, the part that depends on the suspicious
    strings: the value returned, the heuristics of the subsections
    added to [sus_sec], in order, whether [sus_sec] was added to the
    section of the streams, and the text appended to [self.macros].
    The extraction of the data and the lines and tags that describe
    the stream are the same on every path that returns [True]. *)
Record effect := {
  returned : bool;
  subsections : list Z;
  reported : bool;
  macros : list pybytes
}.

(** The body of the loop over [SUSPICIOUS_STRINGS] for one entry that
    matched: the second [if] has the [else], the first has none. *)
Definition on_match (desc : pybytes) : list Z :=
  (if contains (u "javascript") desc then [23] else [])
  ++ (if contains (u "executable") desc then [24] else [25]).

Definition scan (matched : nat -> bool) : list Z :=
  flat_map (fun '(i, desc) => if matched i then on_match desc else [])
           (combine (seq 0 6) SUSPICIOUS_DESCRIPTIONS).

Definition _process_ole10native (search : nat -> pybytes -> bool) (n : native) : effect :=
  if negb (truthy (data n)) || negb (truthy (filename n)) || negb (truthy (src_path n))
     || negb (truthy (temp_path n))
  then {| returned := false; subsections := []; reported := false; macros := [] |}
  else if endswith (u ".vbs") (filename n) || endswith (u ".vbs") (temp_path n)
          || endswith (u ".vbs") (src_path n)
  then {| returned := true; subsections := []; reported := false; macros := [data n] |}
  else
    let subs := scan (fun i => search i (data n)) in
    {| returned := true; subsections := subs;
       reported := existsb (fun i => search i (data n)) (seq 0 6);
       macros := [] |}.

(** X27.  In [_process_ole10native] the [else] that adds the plain
    subsection with heuristic 25 belongs to the test for an executable
    only.  So for a stream that is searched, heuristic 24 is added
    exactly for a match of an executable pattern, heuristic 23 exactly
    for a match of a javascript pattern, and heuristic 25 for a match
    of any pattern that is not an executable one: a javascript match is
    reported twice, once as javascript and once as a plain suspicious
    string. *)
Theorem javascript_match_reported_twice search n :
  truthy (data n) && truthy (filename n) && truthy (src_path n) && truthy (temp_path n)
  = true ->
  endswith (u ".vbs") (filename n) || endswith (u ".vbs") (temp_path n)
  || endswith (u ".vbs") (src_path n) = false ->
  let found := fun i => search i (data n) in
  let subs := subsections (_process_ole10native search n) in
  (23 ∈ subs <-> found 3%nat = true \/ found 4%nat = true)
  /\ (24 ∈ subs <-> found 1%nat = true \/ found 2%nat = true)
  /\ (25 ∈ subs <-> found 0%nat = true \/ found 3%nat = true \/ found 4%nat = true
                    \/ found 5%nat = true)
  /\ (found 3%nat = true \/ found 4%nat = true -> 23 ∈ subs /\ 25 ∈ subs).
Proof.
  intros Hparsed Hvbs found subs.
  apply andb_true_iff in Hparsed as [[[H1 H2]%andb_true_iff H3]%andb_true_iff H4].
  assert (Hsubs : subs = scan found).
  { unfold subs, _process_ole10native. rewrite H1, H2, H3, H4, Hvbs. reflexivity. }
  rewrite Hsubs. clear Hsubs subs. unfold scan.
  change (combine (seq 0 6) SUSPICIOUS_DESCRIPTIONS)
    with [(0%nat, u "use of suspicious system function"); (1%nat, u "embedded executable");
          (2%nat, u "embedded executable"); (3%nat, u "embedded javascript");
          (4%nat, u "embedded javascript"); (5%nat, u "suspicious rtf code")].
  cbn [flat_map].
  change (on_match (u "use of suspicious system function")) with [25].
  change (on_match (u "embedded executable")) with [24].
  change (on_match (u "embedded javascript")) with [23; 25].
  change (on_match (u "suspicious rtf code")) with [25].
  assert (Hin : forall (x : Z) l, x ∈ l <-> In x l) by (intros; apply list_elem_of_In).
  destruct (found 0%nat), (found 1%nat), (found 2%nat), (found 3%nat), (found 4%nat),
    (found 5%nat); cbn [app]; rewrite !Hin; cbn [In];
    (repeat split; intros; try tauto; try (intuition (discriminate || lia))).
Qed.

Definition sample_native : native :=
  {| data := u "x = new ActiveXObject(1)"; filename := u "a.js";
     src_path := u "C:\a.js"; temp_path := u "C:\tmp\a.js" |}.

Lemma javascript_match_reported_twice_witness :
  23 ∈ subsections (_process_ole10native (fun i _ => (i =? 3)%nat) sample_native)
  /\ 25 ∈ subsections (_process_ole10native (fun i _ => (i =? 3)%nat) sample_native).
Proof.
  exact (proj2 (proj2 (proj2
           (javascript_match_reported_twice (fun i _ => (i =? 3)%nat) sample_native
              eq_refl eq_refl))) (or_introl eq_refl)).
Defined.

End Ole10Native.

(** ** The signer of an Authenticode signature
    ([Oletools._format_signer], [_process_authenticode]) *)

Module Signer.

(** A certificate, and the signer information, as the dictionaries the
    signature library describes them with. *)
Abbreviation info := (gmap string pystr).

(** [d.get(key, "")] *)
Definition get (d : info) (key : string) : pystr := default [] (d !! key).

(** A signed data: [None] where the key is missing. *)
Record signed_data := {
  certificates : option (list info);
  signer : option info
}.

Inductive exn := AttributeError.

(** The certificate the function reports: subject, issuer, serial,
    start and end of validity. *)
Definition report_of (cert : info) : pystr * pystr * pystr * pystr * pystr :=
  (get cert "subject", get cert "issuer", get cert "serial",
   get cert "valid_from", get cert "valid_to").

(** The loop over the certificates: [signer_cert] is assigned at every
    certificate whose issuer is the signer's. *)
Definition find_signer (signer_issuer : pystr) (certs : list info) : option info :=
  fold_left
    (fun signer_cert cert =>
       if bool_decide (get cert "issuer" = signer_issuer) then Some cert else signer_cert)
    certs None.

(** [None] stands for the pair of empty dictionaries. *)
Definition _format_signer (signed_datas : list signed_data)
  : outcome exn (option (pystr * pystr * pystr * pystr * pystr)) :=
  match signed_datas with
  | [] => Returned None
  | first :: _ =>
    let certs := default [] (certificates first) in
    let signer := default ∅ (signer first) in
    let signer_issuer := get signer "issuer" in
    match find_signer signer_issuer certs with
    | None => Raised AttributeError
    | Some cert => Returned (Some (report_of cert))
    end
  end.

(** [parsed] is the list of described signed datas, [None] when the
    parsing raised.  The result is the certificate the section
    reports. *)
Definition _process_authenticode (parsed : option (list signed_data))
  : option (pystr * pystr * pystr * pystr * pystr) :=
  match parsed with
  | None => None
  | Some signed_datas =>
    match _format_signer signed_datas with
    | Raised _ => None
    | Returned r => if truthy signed_datas then r else None
    end
  end.

Lemma find_signer_last signer_issuer certs acc :
  fold_left
    (fun signer_cert cert =>
       if bool_decide (get cert "issuer" = signer_issuer) then Some cert else signer_cert)
    certs acc
  = match last (filter (fun cert => get cert "issuer" = signer_issuer) certs) with
    | Some cert => Some cert
    | None => acc
    end.
Proof.
  revert acc. induction certs as [|cert certs IH]; intros acc; [reflexivity|].
  cbn [fold_left]. rewrite IH. case_bool_decide as E.
  - rewrite filter_cons_True by exact E.
    destruct (filter _ certs) as [|c l]; [reflexivity|].
    change (last (cert :: c :: l)) with (last (c :: l)).
    destruct (last (c :: l)) eqn:El; [reflexivity|].
    apply last_None in El. discriminate.
  - rewrite filter_cons_False by exact E. reflexivity.
Qed.

(** X28.  [_process_authenticode] reports a certificate exactly when
    the signature has a signed data and, among the certificates of the
    first one, some have the issuer named by its signer; it reports the
    last of these.  The other signed datas are not looked at.  When no
    certificate has that issuer, among them when the certificates or
    the signer are missing, the [AttributeError] on [None] is caught
    and no section is made. *)
Theorem authenticode_reports_last_match parsed r :
  _process_authenticode parsed = Some r <->
  exists first rest cert,
    parsed = Some (first :: rest)
    /\ last (filter (fun cert => get cert "issuer"
                                 = get (default ∅ (signer first)) "issuer")
                    (default [] (certificates first))) = Some cert
    /\ r = report_of cert.
Proof.
  unfold _process_authenticode, _format_signer. destruct parsed as [[|first rest]|].
  - split; [discriminate|]. intros (? & ? & ? & [=] & _).
  - unfold find_signer. rewrite find_signer_last. cbn [truthy]. split.
    + destruct (last _) as [cert|] eqn:El; [|discriminate].
      intros [= <-]. exists first, rest, cert.
      split; [reflexivity|]. split; [exact El|reflexivity].
    + intros (f & t & cert & [= <- <-] & -> & ->). reflexivity.
  - split; [discriminate|]. intros (? & ? & ? & [=] & _).
Qed.

Definition cert_of (subject issuer : string) : info :=
  {[ "subject"%string := u subject; "issuer"%string := u issuer ]}.

(** A leaf and the intermediate that issued it, both issued by names
    the signer may carry. *)
Example authenticode_sample :
  _process_authenticode
    (Some [ {| certificates := Some [cert_of "leaf" "CA"; cert_of "other" "CA";
                                     cert_of "CA" "root"];
               signer := Some {[ "issuer"%string := u "CA" ]} |} ])
  = Some (u "other", u "CA", [], [], [])
  /\ _process_authenticode
       (Some [ {| certificates := Some [cert_of "leaf" "CA"];
                  signer := Some {[ "issuer"%string := u "elsewhere" ]} |} ])
     = None.
Proof. split; vm_compute; reflexivity. Qed.

End Signer.
